(** * DBAgent: read-only guard, bounded execution, agent loop and result comparison

    A shallow embedding of the Python sources
      - [agent/tools/db_tools.py]  (statement guard, [safe_query]),
      - [agent_old.py]             ([BasicAgent.run], [_normalize_results]),
      - [evaluation/functions.py]  ([_canonicalize_rows], [compare_results],
                                    the per-turn body of [run_experiment]),
    together with the properties proved about them.

    Conventions.  A Python [str] is a list of code points below 256, held as
    [list ascii]; the character classes of [str.strip], [str.lower] and of the
    [re] module ([\s], [\w], [\b], [.]) are the ones CPython uses on that
    range.  Wall-clock time is an exact rational number of seconds; where a
    property depends on the rounding of Python's floats, the arithmetic of
    the source is also given on binary64 floats ([Binary64]). *)

From Stdlib Require Import String Ascii List Bool Arith ZArith QArith Lia Lqa.
From Stdlib Require Import Permutation Sorted DecimalString.
From Stdlib Require PrimFloat Uint63.
Import ListNotations.
Close Scope Q_scope.
Close Scope Z_scope.

Set Implicit Arguments.

(** ** Python strings *)

Module PyStr.

Definition str := list ascii.

(** A string literal of the source, as a [str]. *)
Definition py (s : string) : str := list_ascii_of_string s.
Arguments py s%_string.

Definition code (c : ascii) : nat := nat_of_ascii c.

Definition between (lo hi : nat) (c : ascii) : bool :=
  (lo <=? code c) && (code c <=? hi).

(** [str.isspace] on one character; [\s] of [re] is the same class. *)
Definition is_space (c : ascii) : bool :=
  between 9 13 c || between 28 32 c || (code c =? 133) || (code c =? 160).

Definition is_alnum (c : ascii) : bool :=
  between 48 57 c || between 65 90 c || between 97 122 c
  || (code c =? 170) || between 178 179 c || (code c =? 181)
  || between 185 186 c || between 188 190 c
  || between 192 214 c || between 216 246 c || between 248 255 c.

(** [\w] of [re] on str patterns: alphanumeric or underscore. *)
Definition is_word (c : ascii) : bool := is_alnum c || (code c =? 95).

Definition lower_char (c : ascii) : ascii :=
  if between 65 90 c || between 192 214 c || between 216 222 c
  then ascii_of_nat (code c + 32) else c.

(** [s.lower()] *)
Definition lower (s : str) : str := map lower_char s.

Fixpoint lstrip_by (f : ascii -> bool) (s : str) : str :=
  match s with
  | c :: s' => if f c then lstrip_by f s' else s
  | [] => []
  end.

Definition rstrip_by (f : ascii -> bool) (s : str) : str :=
  rev (lstrip_by f (rev s)).

Definition strip_by (f : ascii -> bool) (s : str) : str :=
  rstrip_by f (lstrip_by f s).

(** [s.strip()] *)
Definition strip (s : str) : str := strip_by is_space s.

Definition mem_char (chars : str) (c : ascii) : bool :=
  existsb (Ascii.eqb c) chars.

(** [s.strip(chars)] and [s.rstrip(chars)] *)
Definition strip_chars (chars s : str) : str := strip_by (mem_char chars) s.
Definition rstrip_chars (chars s : str) : str := rstrip_by (mem_char chars) s.

Fixpoint str_eqb (a b : str) : bool :=
  match a, b with
  | [], [] => true
  | x :: a', y :: b' => Ascii.eqb x y && str_eqb a' b'
  | _, _ => false
  end.

Fixpoint is_prefix (a s : str) : bool :=
  match a, s with
  | [], _ => true
  | x :: a', y :: s' => Ascii.eqb x y && is_prefix a' s'
  | _ :: _, [] => false
  end.

(** [sub in s] *)
Fixpoint contains (sub s : str) : bool :=
  is_prefix sub s ||
  match s with
  | [] => false
  | _ :: s' => contains sub s'
  end.

(** The character before the position reached after reading [w], when the
    character before [w] was [p]. *)
Definition last_of (p : option ascii) (w : str) : option ascii :=
  match rev w with
  | c :: _ => Some c
  | [] => p
  end.

End PyStr.
Export PyStr.

(** ** The part of Python's [re] the guard uses: a backtracking matcher *)

Module Re.

Inductive re : Type :=
| Eps                              (* the empty pattern *)
| Chr (f : ascii -> bool)          (* one character of a class *)
| Seq (a b : re)                   (* ab *)
| Alt (a b : re)                   (* a|b, left alternative first *)
| Star (a : re)                    (* a*, greedy *)
| StarLazy (a : re)                (* a*?, lazy *)
| Bol                              (* ^ *)
| Eol                              (* $ without MULTILINE *)
| WordB.                           (* \b *)

Definition Opt (a : re) : re := Alt a Eps.     (* a? *)
Definition Plus (a : re) : re := Seq a (Star a). (* a+ *)

Definition chr (c : ascii) : re := Chr (Ascii.eqb c).

Fixpoint lit_list (s : str) : re :=
  match s with
  | [] => Eps
  | [c] => chr c
  | c :: s' => Seq (chr c) (lit_list s')
  end.

Definition lit (s : string) : re := lit_list (py s).
Arguments lit s%_string.

Fixpoint alts (rs : list re) : re :=
  match rs with
  | [] => Chr (fun _ => false)
  | [r] => r
  | r :: rs' => Alt r (alts rs')
  end.

(** [.] with DOTALL, and without it. *)
Definition any_char : re := Chr (fun _ => true).
Definition dot : re := Chr (fun c => negb (Ascii.eqb c "010"%char)).
Definition space : re := Chr is_space.

Definition word_at (o : option ascii) : bool :=
  match o with
  | Some c => is_word c
  | None => false
  end.

(** [\b]: exactly one side of the position is a word character. *)
Definition word_boundary (p : option ascii) (s : str) : bool :=
  xorb (word_at p) (word_at (hd_error s)).

(** [$]: at the end, or just before a newline that ends the string. *)
Definition at_end (s : str) : bool :=
  match s with
  | [] => true
  | [c] => Ascii.eqb c "010"%char
  | _ => false
  end.

Section Matcher.

Variable A : Type.

(** A continuation receives the character before the position reached and
    the text that is left. *)
Definition cont := option ascii -> str -> option A.

Definition orelse (x y : option A) : option A :=
  match x with
  | Some _ => x
  | None => y
  end.

(** Repetition.  [n] bounds the number of iterations by the length of the
    text; an iteration that reads nothing is given up. *)
Fixpoint star_greedy (body : option ascii -> str -> cont -> option A)
    (n : nat) (p : option ascii) (s : str) (k : cont) : option A :=
  match n with
  | 0 => k p s
  | S n' =>
      orelse
        (body p s (fun p' s' =>
           if length s' <? length s then star_greedy body n' p' s' k else None))
        (k p s)
  end.

Fixpoint star_lazy (body : option ascii -> str -> cont -> option A)
    (n : nat) (p : option ascii) (s : str) (k : cont) : option A :=
  match n with
  | 0 => k p s
  | S n' =>
      orelse
        (k p s)
        (body p s (fun p' s' =>
           if length s' <? length s then star_lazy body n' p' s' k else None))
  end.

(** [m r p s k]: match [r] at the front of [s], the character before being
    [p]; alternatives are tried in the order of Python's engine and the first
    one the continuation accepts wins. *)
Fixpoint m (r : re) (p : option ascii) (s : str) (k : cont) : option A :=
  match r with
  | Eps => k p s
  | Chr f =>
      match s with
      | c :: s' => if f c then k (Some c) s' else None
      | [] => None
      end
  | Seq a b => m a p s (fun p' s' => m b p' s' k)
  | Alt a b => orelse (m a p s k) (m b p s k)
  | Star a => star_greedy (m a) (length s) p s k
  | StarLazy a => star_lazy (m a) (length s) p s k
  | Bol => match p with None => k p s | Some _ => None end
  | Eol => if at_end s then k p s else None
  | WordB => if word_boundary p s then k p s else None
  end.

End Matcher.

(** The end of a match is reported as the text left after it. *)
Definition accept : cont str := fun _ rest => Some rest.

Definition accept_nonempty (s : str) : cont str :=
  fun _ rest => if length rest <? length s then Some rest else None.

(** [re.match(r, s)] *)
Definition re_match (r : re) (s : str) : option str := m r None s accept.

(** [re.search(r, s)]: the leftmost position where [r] matches. *)
Fixpoint search_from (r : re) (p : option ascii) (s : str) : option str :=
  match m r p s accept with
  | Some rest => Some rest
  | None =>
      match s with
      | [] => None
      | c :: s' => search_from r (Some c) s'
      end
  end.

Definition re_search (r : re) (s : str) : option str := search_from r None s.

(** [re.sub(r, repl, s)] for a replacement without group references.
    [skip] counts the characters still inside the match being replaced. *)
Fixpoint sub_go (r : re) (repl : str) (p : option ascii) (s : str)
    (skip : nat) : str :=
  match skip with
  | S k =>
      match s with
      | [] => []
      | c :: s' => sub_go r repl (Some c) s' k
      end
  | 0 =>
      match s with
      | [] =>
          match m r p [] accept with
          | Some _ => repl
          | None => []
          end
      | c :: s' =>
          match m r p s accept with
          | Some rest =>
              match length s - length rest with
              | S l => repl ++ sub_go r repl (Some c) s' l
              | 0 =>
                  (* an empty match is replaced; the search then goes on at
                     the same place for a match that reads something *)
                  repl ++
                  match m r p s (accept_nonempty s) with
                  | Some rest' =>
                      repl ++ sub_go r repl (Some c) s'
                                (length s - length rest' - 1)
                  | None => c :: sub_go r repl (Some c) s' 0
                  end
              end
          | None => c :: sub_go r repl (Some c) s' 0
          end
      end
  end.

Definition re_sub (r : re) (repl s : str) : str := sub_go r repl None s 0.

End Re.
Export Re.

(** ** agent/tools/db_tools.py: the statement guard *)

Definition not_quote (c : ascii) : bool := negb (Ascii.eqb c "'"%char).

(** [r"/\*.*?\*/"] with [re.S] *)
Definition block_comment_re : re :=
  Seq (lit "/*") (Seq (StarLazy any_char) (lit "*/")).

(** [r"--.*?(|$)"] *)
Definition line_comment_re : re :=
  Seq (lit "--") (Seq (StarLazy dot) (Alt Eps Eol)).

(** [r"'([^']|'')*'"] *)
Definition literal_re : re :=
  Seq (chr "'") (Seq (Star (Alt (Chr not_quote) (lit "''"))) (chr "'")).

Definition _strip_comments_and_literals (statement : str) : str :=
  let statement := re_sub block_comment_re (py " ") statement in
  let statement := re_sub line_comment_re (py " ") statement in
  let statement := re_sub literal_re (py "''") statement in
  statement.

(** [r"^\s*(?:explain\s+(?:query\s+plan\s+)?)?(select|with)\b"] *)
Definition read_only_re : re :=
  Seq Bol
   (Seq (Star space)
     (Seq (Opt (Seq (lit "explain")
                 (Seq (Plus space)
                   (Opt (Seq (lit "query")
                          (Seq (Plus space)
                            (Seq (lit "plan") (Plus space))))))))
       (Seq (Alt (lit "select") (lit "with")) WordB))).

Definition prohibited_words : list str :=
  map py
    ["insert"; "update"; "delete"; "replace"; "create"; "alter"; "drop";
     "truncate"; "attach"; "detach"; "vacuum"; "reindex"; "analyze"; "begin";
     "commit"; "rollback"; "savepoint"; "release"; "pragma"]%string.

(** [r"\b(insert|update|...|pragma)\b"] *)
Definition prohibited_re : re :=
  Seq WordB (Seq (alts (map lit_list prohibited_words)) WordB).

(** [_strip_comments_and_literals(statement).strip().lower().strip(';')] *)
Definition cleaned_of (sanitized : str) : str :=
  strip_chars (py ";") (lower (strip sanitized)).

Definition classify (sanitized : str) : bool :=
  let cleaned := cleaned_of sanitized in
  match re_match read_only_re cleaned with
  | None => false
  | Some _ =>
      match re_search prohibited_re cleaned with
      | None => true
      | Some _ => false
      end
  end.

Definition _is_read_only (statement : str) : bool :=
  classify (_strip_comments_and_literals statement).


(** ** What a pattern matches, stated without the engine *)

Module ReSem.

(** Zero or more iterations, each reading at least one character. *)
Inductive iter (R : option ascii -> str -> str -> Prop) :
    option ascii -> str -> str -> Prop :=
| iter_nil p s : iter R p [] s
| iter_cons p w1 w2 s :
    w1 <> [] -> R p w1 (w2 ++ s) -> iter R (last_of p w1) w2 s ->
    iter R p (w1 ++ w2) s.

(** [matches r p w s]: [r] matches the text [w], when the character before
    [w] is [p] and the text after it is [s]. *)
Fixpoint matches (r : re) (p : option ascii) (w s : str) : Prop :=
  match r with
  | Eps => w = []
  | Chr f => exists c, w = [c] /\ f c = true
  | Seq a b =>
      exists w1 w2, w = w1 ++ w2 /\
        matches a p w1 (w2 ++ s) /\ matches b (last_of p w1) w2 s
  | Alt a b => matches a p w s \/ matches b p w s
  | Star a => iter (matches a) p w s
  | StarLazy a => iter (matches a) p w s
  | Bol => w = [] /\ p = None
  | Eol => w = [] /\ at_end s = true
  | WordB => w = [] /\ word_boundary p s = true
  end.

(** The matcher finds only matches, and finds one whenever there is one. *)
Section MatcherSpec.

Variable A : Type.

Definition sound_at (f : option ascii -> str -> cont A -> option A)
    (R : option ascii -> str -> str -> Prop) : Prop :=
  forall p s k x, f p s k = Some x ->
    exists w s', s = w ++ s' /\ R p w s' /\ k (last_of p w) s' = Some x.

Definition complete_at (f : option ascii -> str -> cont A -> option A)
    (R : option ascii -> str -> str -> Prop) : Prop :=
  forall p w s' k, R p w s' -> k (last_of p w) s' <> None ->
    f p (w ++ s') k <> None.

End MatcherSpec.

End ReSem.
Export ReSem.

(** ** The guard as the specification words it *)

Module GuardSpec.

(** A run of whitespace, possibly empty; and a run of at least one. *)
Definition blank (w : str) : Prop := forallb is_space w = true.
Definition blank1 (w : str) : Prop := w <> [] /\ blank w.

(** An optional leading "explain" or "explain query plan" prefix. *)
Inductive explain_prefix : str -> Prop :=
| no_explain : explain_prefix []
| explain_only w1 :
    blank1 w1 -> explain_prefix (py "explain" ++ w1)
| explain_query_plan w1 w2 w3 :
    blank1 w1 -> blank1 w2 -> blank1 w3 ->
    explain_prefix (py "explain" ++ w1 ++ py "query" ++ w2 ++ py "plan" ++ w3).

(** A token ends where the text ends or a non-word character follows. *)
Definition ends_token (rest : str) : Prop := word_at (hd_error rest) = false.

(** The text starts, after optional whitespace and an optional explain
    prefix, with "select" or "with" as a whole token. *)
Definition starts_read_only (t : str) : Prop :=
  exists w0 pre kw rest,
    t = w0 ++ pre ++ kw ++ rest /\
    blank w0 /\ explain_prefix pre /\
    (kw = py "select" \/ kw = py "with") /\ ends_token rest.

(** [w] occurs in [t] as a whole word: no word character touches it. *)
Definition whole_word (w t : str) : Prop :=
  exists pre post,
    t = pre ++ w ++ post /\
    word_at (last_of None pre) = false /\ word_at (hd_error post) = false.

Definition no_prohibited_word (t : str) : Prop :=
  forall w, In w prohibited_words -> ~ whole_word w t.

(** The specification's preprocessing: whitespace trimmed, trailing
    semicolons trimmed, lowercased. *)
Definition spec_cleaned (sanitized : str) : str :=
  lower (rstrip_chars (py ";") (strip sanitized)).

Definition spec_classify (sanitized : str) : Prop :=
  starts_read_only (spec_cleaned sanitized) /\
  no_prohibited_word (spec_cleaned sanitized).

(** The same with the preprocessing of the code: semicolons trimmed at both
    ends. *)
Definition code_classify (sanitized : str) : Prop :=
  starts_read_only (cleaned_of sanitized) /\
  no_prohibited_word (cleaned_of sanitized).

(** [(?:explain\s+(?:query\s+plan\s+)?)?] *)
Definition explain_re : re :=
  Opt (Seq (lit "explain")
        (Seq (Plus space)
          (Opt (Seq (lit "query")
                 (Seq (Plus space) (Seq (lit "plan") (Plus space))))))).

(** A text that starts and ends with a word character. *)
Definition wordy (u : str) : bool :=
  word_at (hd_error u) && word_at (hd_error (rev u)).

End GuardSpec.
Export GuardSpec.

(** ** Python values and control flow *)

Module Py.

(** The exception classes the sources tell apart. *)
Inductive exn : Type :=
| SqliteError (msg : str)         (* sqlite3.Error and its subclasses *)
| FileNotFoundError (msg : str)
| TypeError (msg : str)
| ValueError (msg : str)
| AttributeError (msg : str)
| OtherError (msg : str).          (* any other BaseException *)

Inductive res (A : Type) : Type :=
| Ret (a : A)
| Raise (e : exn).
Arguments Raise {A} e.

(** What a database cell needs: its [repr] and Python's [==]. *)
Class Cell (C : Type) : Type := {
  cell_repr : C -> str;
  cell_eqb : C -> C -> bool
}.

(** A result row: the tuple sqlite3 fetches, the list the agent logs, or a
    bare scalar. *)
Inductive row (C : Type) : Type :=
| RTuple (cells : list C)
| RList (cells : list C)
| RScalar (c : C).

End Py.
Export Py.

(** ** The world the program runs in *)

Section Program.

Variable C : Type.

(** The closure [_progress_handler] holds the deadline it was made with. *)
Record progress_handler : Type := { ph_deadline : option Q }.

(** One sqlite3 connection: the database file, the installed progress
    handler with its instruction count, and whether it is open. *)
Record conn_state : Type := {
  c_file : str;
  c_handler : option (progress_handler * nat);
  c_open : bool;
  c_close_calls : nat
}.

(** What evaluating one statement does in the backend: the virtual-machine
    instructions it runs, each with the time it takes, and what it yields
    when it is left to finish. *)
Inductive vm_outcome : Type :=
| Rows (rs : list (list C))
| Fails (msg : str).

Record program : Type := { vm_ops : list Q; vm_result : vm_outcome }.

(** The dict [safe_query] returns. *)
Record exec_dict : Type := {
  d_success : bool;
  d_status : str;
  d_elapsed_ms : Q;
  d_results : list (row C);
  d_error : option str
}.

(** agent/schemes.py *)
Record SQLExecution : Type := {
  executed : bool;
  success : bool;
  status : str;
  elapsed_ms : option Q;
  results : list (row C);
  error : option str
}.

Record QueryStep : Type := {
  reasoning : str;
  sql : str;
  execution : SQLExecution
}.

Record AgentResult : Type := {
  steps : list QueryStep;
  final_answer : str
}.

Definition schema : Type := list (str * list str).

(** A request to the oracle: the planner prompt or the final-answer prompt,
    by what is put into the template. *)
Inductive request : Type :=
| PlannerRequest (question : str) (sch : schema) (prior : list QueryStep)
| FinalRequest (question : str) (prior : list QueryStep).

(** A decoded JSON object, by the text [str] gives for each of its
    values. *)
Definition payload : Type := list (str * str).

(** What [json.loads] returns for a valid text: an object, or a value of
    another kind (array, string, number, [true], [false], [null]), of which
    only the name of its Python type matters: [list], [str], [int], ... *)
Inductive json : Type :=
| JObject (fields : payload)
| JOther (type_name : str).

(** What the log records: a call of the oracle, a call of [safe_query], the
    [cursor.execute] that [safe_query] makes, a call of [close]. *)
Inductive event : Type :=
| EvOracle (req : request)
| EvSafeQuery (conn : nat) (statement : str)
| EvExecute (conn : nat) (statement : str)
| EvClose (conn : nat).

(** The state: the monotonic clock, the connections opened so far, and the
    log of what was done.  The clock advances only while the backend
    evaluates a statement. *)
Record world : Type := {
  now : Q;
  conns : list conn_state;
  trace : list event
}.

(** The outside: the file system, the databases, the oracle.  The reply of
    the oracle is the JSON value its text decodes to, [None] when the text
    is not valid JSON, or a transport failure.  [vm_program] gives what one
    evaluation of a statement does; it is a function of the file and the
    text, so that a statement whose rows change from one evaluation to the
    next ([random()], [datetime('now')]) is outside the model, and no
    statement below compares the rows of two evaluations.  [schema_result]
    stands for the statements [get_database_schema] runs on the
    connection; they are not part of the log. *)
Record env : Type := {
  file_exists : str -> bool;
  vm_program : str -> str -> program;
  schema_result : str -> res schema;
  close_error : nat -> option exn;
  oracle : nat -> request -> res (option json)
}.

Variable E : env.

(** *** A state-and-exception monad *)

Definition M (A : Type) : Type := world -> res A * world.

Definition ret {A} (a : A) : M A := fun w => (Ret a, w).

Definition raise {A} (e : exn) : M A := fun w => (Raise e, w).

Definition bind {A B} (c : M A) (f : A -> M B) : M B :=
  fun w =>
    match c w with
    | (Ret a, w') => f a w'
    | (Raise e, w') => (Raise e, w')
    end.

(** [try: body  finally: fin] *)
Definition try_finally {A} (body : M A) (fin : M unit) : M A :=
  fun w =>
    let (r, w1) := body w in
    match fin w1 with
    | (Ret _, w2) => (r, w2)
    | (Raise e, w2) => (Raise e, w2)
    end.

(** [try: body  except sqlite3.Error as exc: handler(str(exc))] *)
Definition try_except_sqlite {A} (body : M A) (handler : str -> M A) : M A :=
  fun w =>
    match body w with
    | (Raise (SqliteError msg), w1) => handler msg w1
    | other => other
    end.

End Program.

Arguments Fails {C} msg.
Arguments EvSafeQuery {C} conn statement.
Arguments EvExecute {C} conn statement.
Arguments EvClose {C} conn.
Arguments ret {C A} a.
Arguments raise {C A} e.
Arguments bind {C A B} c f.
Arguments try_finally {C A} body fin.
Arguments try_except_sqlite {C A} body handler.

Declare Scope py_scope.
Delimit Scope py_scope with py.
Notation "x <- c ;; k" := (bind c (fun x => k))
  (at level 61, c at next level, right associativity) : py_scope.
Notation "c ;; k" := (bind c (fun _ => k))
  (at level 61, right associativity) : py_scope.
Open Scope py_scope.

(** ** agent/tools/db_tools.py and the sqlite3 calls it makes *)

Section Database.

Variable C : Type.
Variable E : env C.

Definition log (ev : event C) : M C unit :=
  fun w => (Ret tt, {| now := now w; conns := conns w; trace := trace w ++ [ev] |}).

(** [time.monotonic()] *)
Definition time_monotonic : M C Q := fun w => (Ret (now w), w).

Definition advance (dt : Q) : M C unit :=
  fun w => (Ret tt, {| now := (now w + dt)%Q; conns := conns w; trace := trace w |}).

Fixpoint update_nth {A} (i : nat) (f : A -> A) (l : list A) : list A :=
  match l, i with
  | [], _ => []
  | x :: l', 0 => f x :: l'
  | x :: l', S i' => x :: update_nth i' f l'
  end.

Definition update_conn (c : nat) (f : conn_state -> conn_state) : M C unit :=
  fun w => (Ret tt, {| now := now w; conns := update_nth c f (conns w);
                       trace := trace w |}).

(** [conn.set_progress_handler(handler, n)]; [None] uninstalls.  This is the
    call on an open connection; on a closed one sqlite3 raises instead.
    [run] and the experiment loop call [safe_query] on connections they
    have just opened. *)
Definition set_progress_handler (c : nat) (h : option progress_handler)
    (n : nat) : M C unit :=
  update_conn c (fun cs =>
    {| c_file := c_file cs;
       c_handler := match h with Some h' => Some (h', n) | None => None end;
       c_open := c_open cs;
       c_close_calls := c_close_calls cs |}).

(** db_tools.py, [_progress_handler_generator]: the closure, and its call. *)
Definition _progress_handler_generator (deadline : option Q) : progress_handler :=
  {| ph_deadline := deadline |}.

Definition _progress_handler (h : progress_handler) : M C Z :=
  match ph_deadline h with
  | Some deadline =>
      t <- time_monotonic ;;
      if Qle_bool deadline t then ret 1%Z else ret 0%Z
  | None => ret 0%Z
  end.

(** The backend runs the instructions one by one; with a handler installed
    for every [n] instructions it calls it after each [n]-th one, and a
    non-zero answer interrupts the statement.  The result tells whether the
    run was interrupted. *)
Fixpoint run_vm (h : option (progress_handler * nat)) (ops : list Q)
    (count : nat) : M C bool :=
  match ops with
  | [] => ret false
  | dt :: ops' =>
      advance dt ;;
      match h with
      | Some (handler, n) =>
          if S count =? n then
            answer <- _progress_handler handler ;;
            if (answer =? 0)%Z then run_vm h ops' 0 else ret true
          else run_vm h ops' (S count)
      | None => run_vm h ops' (S count)
      end
  end.

Definition conn_of (w : world C) (c : nat) : option conn_state :=
  nth_error (conns w) c.

(** [cursor = conn.cursor(); cursor.execute(sql); cursor.fetchall()] *)
Definition execute_fetchall (c : nat) (statement : str) : M C (list (row C)) :=
  fun w =>
    match conn_of w c with
    | Some {| c_file := file; c_handler := h; c_open := true |} =>
        let prog := vm_program E file statement in
        (log (EvExecute c statement) ;;
         interrupted <- run_vm h (vm_ops prog) 0 ;;
         if interrupted : bool then raise (SqliteError (py "interrupted"))
         else match vm_result prog with
              | Rows rs => ret (map (@RTuple C) rs)
              | Fails msg => raise (SqliteError msg)
              end) w
    | _ => (Raise (SqliteError (py "Cannot operate on a closed database.")), w)
    end.

Definition seconds_to_ms (t : Q) : Q := (t * 1000)%Q.

(** [safe_query], with the clock, the deadline and the elapsed time as exact
    rationals; [Binary64] below gives the same arithmetic on floats. *)
Definition safe_query (conn : nat) (statement : str) (msx_ms : Z)
    : M C (exec_dict C) :=
  log (EvSafeQuery conn statement) ;;
  start <- time_monotonic ;;
  if negb (_is_read_only statement) then
    t <- time_monotonic ;;
    ret {| d_success := false;
           d_status := py "NoSafe";
           d_elapsed_ms := seconds_to_ms (t - start);
           d_results := [];
           d_error := Some (py "Query rejected by read-only policy") |}
  else
    let deadline :=
      if (0 <? msx_ms)%Z then Some (start + inject_Z msx_ms / 1000)%Q
      else None in
    let handler := _progress_handler_generator deadline in
    set_progress_handler conn (Some handler) 1000 ;;
    try_finally
      (try_except_sqlite
         (rows <- execute_fetchall conn statement ;;
          t <- time_monotonic ;;
          ret {| d_success := true;
                 d_status := py "success";
                 d_elapsed_ms := seconds_to_ms (t - start);
                 d_results := rows;
                 d_error := None |})
         (fun exc =>
            let status :=
              if contains (py "interrupted") (lower exc)
              then py "TimeOut" else py "ExecFailed" in
            t <- time_monotonic ;;
            ret {| d_success := false;
                   d_status := status;
                   d_elapsed_ms := seconds_to_ms (t - start);
                   d_results := [];
                   d_error := Some exc |}))
      (set_progress_handler conn None 0).

(** data/main.py *)
Definition get_db_connection (db_file : option str) : M C nat :=
  match db_file with
  | None => raise (TypeError (py "expected str, bytes or os.PathLike object"))
  | Some f =>
      if file_exists E f then
        fun w =>
          (Ret (length (conns w)),
           {| now := now w;
              conns := conns w ++
                [{| c_file := f; c_handler := None; c_open := true;
                    c_close_calls := 0 |}];
              trace := trace w |})
      else raise (FileNotFoundError (py "Database file not found"))
  end.

(** [get_database_schema]: what the statements it runs on the connection
    yield - a SELECT on [sqlite_master] and a [PRAGMA table_info] for each
    table - is the environment's [schema_result]; these statements do not
    go through [safe_query] and are not logged as [EvExecute]. *)
Definition get_database_schema (c : nat) : M C (schema) :=
  fun w =>
    match conn_of w c with
    | Some cs => (schema_result E (c_file cs), w)
    | None => (Raise (OtherError (py "no such connection")), w)
    end.

(** [conn.close()] *)
Definition conn_close (c : nat) : M C unit :=
  log (EvClose c) ;;
  update_conn c (fun cs =>
    {| c_file := c_file cs; c_handler := c_handler cs; c_open := c_open cs;
       c_close_calls := S (c_close_calls cs) |}) ;;
  match close_error E c with
  | Some e => raise e
  | None =>
      update_conn c (fun cs =>
        {| c_file := c_file cs; c_handler := c_handler cs; c_open := false;
           c_close_calls := c_close_calls cs |})
  end.

Definition connect_to_db (db_file : option str) : M C (nat * schema) :=
  conn <- get_db_connection db_file ;;
  sch <- get_database_schema conn ;;
  ret (conn, sch).

(** The clock at each call of the progress handler in a run that is left
    to finish, and the clock when that run ends. *)
Fixpoint poll_times (n : nat) (ops : list Q) (count : nat) (t : Q) : list Q :=
  match ops with
  | [] => []
  | dt :: ops' =>
      if S count =? n then (t + dt)%Q :: poll_times n ops' 0 (t + dt)%Q
      else poll_times n ops' (S count) (t + dt)%Q
  end.

Definition vm_end (ops : list Q) (t : Q) : Q := fold_left Qplus ops t.

Definition clear_handler (cs : conn_state) : conn_state :=
  {| c_file := c_file cs; c_handler := None; c_open := c_open cs;
     c_close_calls := c_close_calls cs |}.

(** The handler installed on a connection, if any. *)
Definition installed (w : world C) (c : nat) : option (progress_handler * nat) :=
  match conn_of w c with
  | Some cs => c_handler cs
  | None => None
  end.

(** *** Vocabulary of the proofs *)

(** The answer of the deadline check at a given state of the clock. *)
Definition answer_of (h : progress_handler) (w : world C) : Z :=
  match ph_deadline h with
  | Some d => if Qle_bool d (now w) then 1%Z else 0%Z
  | None => 0%Z
  end.

Definition tick (dt : Q) (w : world C) : world C :=
  {| now := (now w + dt)%Q; conns := conns w; trace := trace w |}.

(** What a row list fetched from the backend looks like. *)
Definition fetched (rows : list (row C)) : Prop :=
  exists rs, rows = map (@RTuple C) rs.

(** The world after [conn.set_progress_handler(h, n)]. *)
Definition with_handler (c : nat) (h : option (progress_handler * nat))
    (w : world C) : world C :=
  {| now := now w;
     conns := update_nth c (fun cs =>
       {| c_file := c_file cs; c_handler := h; c_open := c_open cs;
          c_close_calls := c_close_calls cs |}) (conns w);
     trace := trace w |}.

Definition logged (ev : event C) (w : world C) : world C :=
  {| now := now w; conns := conns w; trace := trace w ++ [ev] |}.

Definition fresh (f : str) : conn_state :=
  {| c_file := f; c_handler := None; c_open := true; c_close_calls := 0 |}.

Definition after_close (c : nat) (w : world C) : world C :=
  {| now := now w;
     conns := update_nth c (fun cs =>
       {| c_file := c_file cs; c_handler := c_handler cs;
          c_open := match close_error E c with
                    | Some _ => c_open cs
                    | None => false
                    end;
          c_close_calls := S (c_close_calls cs) |}) (conns w);
     trace := trace w ++ [EvClose c] |}.

End Database.

(** ** agent_old.py: [BasicAgent] *)

Section Agent.

Variable C : Type.
Variable E : env C.

(** [payload.get(key, default)], the value taken as a string. *)
Fixpoint payload_get (p : payload) (key default : str) : str :=
  match p with
  | [] => default
  | (k, v) :: p' => if str_eqb k key then v else payload_get p' key default
  end.

Fixpoint count_oracle (tr : list (event C)) : nat :=
  match tr with
  | [] => 0
  | EvOracle _ :: tr' => S (count_oracle tr')
  | _ :: tr' => count_oracle tr'
  end.

(** [_openai_chat]: one call to the oracle; transport failures propagate. *)
Definition _openai_chat (req : request C) : M C (option json) :=
  fun w =>
    let i := count_oracle (trace w) in
    match log (EvOracle req) w with
    | (_, w') => (oracle E i req, w')
    end.

(** [_extract_json] *)
Definition _extract_json (text : option json) : M C json :=
  match text with
  | Some j => ret j
  | None => raise (ValueError (py "Model did not return valid JSON"))
  end.

(** [x.get]: a dict has the method; on a value of another kind the
    attribute lookup raises. *)
Definition get_method (j : json) : M C payload :=
  match j with
  | JObject p => ret p
  | JOther type_name =>
      raise (AttributeError
               (py "'" ++ type_name ++ py "' object has no attribute 'get'"))
  end.

(** [_normalize_results]: tuples become lists, other rows stay. *)
Definition _normalize_results (rs : list (row C)) : list (row C) :=
  map (fun r => match r with
                | RTuple cells => RList cells
                | other => other
                end) rs.

Definition is_empty (s : str) : bool :=
  match s with
  | [] => true
  | _ :: _ => false
  end.

(** The planning loop of [run]: [for _ in range(max_steps)], with its three
    [break]s.  The result is the list of steps and [final_answer]. *)
Fixpoint plan_rounds (n : nat) (question : str) (sch : schema) (conn : nat)
    (msx_ms : Z) (done : list (QueryStep C))
    : M C (list (QueryStep C) * option str) :=
  match n with
  | 0 => ret (done, None)
  | S n' =>
      planner_resp_text <- _openai_chat (PlannerRequest question sch done) ;;
      planner_json <- _extract_json planner_resp_text ;;
      planner_payload <- get_method planner_json ;;
      let action := lower (strip (payload_get planner_payload (py "action") [])) in
      if str_eqb action (py "final") then
        ret (done,
             Some (strip (payload_get planner_payload (py "final_answer") [])))
      else if negb (str_eqb action (py "query")) then
        ret (done, Some (py "Agent returned an invalid action."))
      else
        let reasoning := payload_get planner_payload (py "reasoning") [] in
        let statement := strip (payload_get planner_payload (py "sql") []) in
        if is_empty statement then
          ret (done, Some (py "Agent did not provide SQL to execute."))
        else
          exec_dict <- safe_query E conn statement msx_ms ;;
          let execution :=
            {| executed := true;
               success := d_success exec_dict;
               status := d_status exec_dict;
               elapsed_ms := Some (d_elapsed_ms exec_dict);
               results := _normalize_results (d_results exec_dict);
               error := d_error exec_dict |} in
          plan_rounds n' question sch conn msx_ms
            (done ++ [{| reasoning := reasoning; sql := statement;
                         execution := execution |}])
  end.

(** The body of the [try] in [run]. *)
Definition run_body (question : str) (sch : schema) (conn : nat)
    (msx_ms max_steps : Z) : M C (AgentResult C) :=
  looped <- plan_rounds (Z.to_nat max_steps) question sch conn msx_ms [] ;;
  let '(done, final_answer) := looped in
  match final_answer with
  | Some answer => ret {| steps := done; final_answer := answer |}
  | None =>
      final_resp_text <- _openai_chat (FinalRequest question done) ;;
      final_json <- _extract_json final_resp_text ;;
      final_payload <- get_method final_json ;;
      ret {| steps := done;
             final_answer :=
               strip (payload_get final_payload (py "final_answer") []) |}
  end.

(** [try: body  except BaseException as exc: run_exc = exc; raise
     finally: try: conn.close()  except BaseException: if run_exc is None: raise] *)
Definition closing (A : Type) (conn : nat) (body : M C A) : M C A :=
  fun w =>
    let (r, w1) := body w in
    let run_exc := match r with Raise exc => Some exc | Ret _ => None end in
    match conn_close E conn w1 with
    | (Ret _, w2) => (r, w2)
    | (Raise close_exc, w2) =>
        match run_exc with
        | None => (Raise close_exc, w2)
        | Some _ => (r, w2)
        end
    end.

Definition run (question : str) (db_file : option str) (msx_ms max_steps : Z)
    : M C (AgentResult C) :=
  opened <- connect_to_db E db_file ;;
  let '(conn, sch) := opened in
  closing conn (run_body question sch conn msx_ms max_steps).

(** Counting in the log. *)
Definition count_events (f : event C -> bool) (tr : list (event C)) : nat :=
  length (filter f tr).

Definition is_planner_request (ev : event C) : bool :=
  match ev with EvOracle (PlannerRequest _ _ _) => true | _ => false end.

Definition is_final_request (ev : event C) : bool :=
  match ev with EvOracle (FinalRequest _ _) => true | _ => false end.

Definition is_safe_query (ev : event C) : bool :=
  match ev with EvSafeQuery _ _ => true | _ => false end.

Definition is_execute (ev : event C) : bool :=
  match ev with EvExecute _ _ => true | _ => false end.


(** What of a connection only opening and closing change. *)
Definition static (cs : conn_state) : str * bool * nat :=
  (c_file cs, c_open cs, c_close_calls cs).

(** Calls of the oracle and guarded queries leave every connection as open
    or as closed as it was. *)
Definition same_static (w w' : world C) : Prop :=
  map static (conns w) = map static (conns w').

(** A row as the agent logs it: never a tuple. *)
Definition normalized (r : row C) : Prop :=
  match r with
  | RTuple _ => False
  | _ => True
  end.

Definition step_normalized (s : QueryStep C) : Prop :=
  Forall normalized (results (execution s)).

End Agent.

(** ** evaluation/functions.py *)

(** Python's order on strings: code points, left to right. *)
Fixpoint str_leb (a b : str) : bool :=
  match a, b with
  | [], _ => true
  | _ :: _, [] => false
  | x :: a', y :: b' =>
      if code x <? code y then true
      else if code y <? code x then false
      else str_leb a' b'
  end.

Fixpoint insert_sorted (x : str) (l : list str) : list str :=
  match l with
  | [] => [x]
  | y :: l' => if str_leb x y then x :: l else y :: insert_sorted x l'
  end.

(** [sorted(l)] on a list of strings. *)
Fixpoint sorted (l : list str) : list str :=
  match l with
  | [] => []
  | x :: l' => insert_sorted x (sorted l')
  end.

Definition str_le (a b : str) : Prop := str_leb a b = true.

(** [a == b] on lists, by the equality of the elements. *)
Fixpoint list_eqb {A} (eqb : A -> A -> bool) (a b : list A) : bool :=
  match a, b with
  | [], [] => true
  | x :: a', y :: b' => eqb x y && list_eqb eqb a' b'
  | _, _ => false
  end.

Fixpoint join (sep : str) (parts : list str) : str :=
  match parts with
  | [] => []
  | [x] => x
  | x :: rest => x ++ sep ++ join sep rest
  end.

Definition truthy (o : option str) : bool :=
  match o with
  | Some (_ :: _) => true
  | _ => false
  end.

Definition text_of (o : option str) : str :=
  match o with
  | Some s => s
  | None => py "None"
  end.

(** One turn of the population, by the fields the runner reads. *)
Record turn : Type := {
  t_text : str;
  t_db_file : option str;
  t_gold_sql : option str
}.

Record metrics : Type := {
  match_count : nat;
  comparable_count : nat;
  pred_query_time_sum_ms : Q;
  gold_query_time_sum_ms : Q;
  pred_query_time_count : nat;
  gold_query_time_count : nat
}.

Definition metrics0 : metrics :=
  {| match_count := 0; comparable_count := 0;
     pred_query_time_sum_ms := 0; gold_query_time_sum_ms := 0;
     pred_query_time_count := 0; gold_query_time_count := 0 |}.

(** [accuracy = (match_count / comparable_count) if comparable_count else None] *)
Definition accuracy (mt : metrics) : option Q :=
  match comparable_count mt with
  | 0 => None
  | S _ =>
      Some (inject_Z (Z.of_nat (match_count mt)) /
            inject_Z (Z.of_nat (comparable_count mt)))%Q
  end.

(** What a verdict adds to [match_count]. *)
Definition bonus (v : option bool) : nat :=
  match v with
  | Some true => 1
  | _ => 0
  end.

Section Evaluation.

Variable C : Type.
Context {cellC : Cell C}.
Variable E : env C.

(** [repr] of a tuple of cells. *)
Definition repr_tuple (cells : list C) : str :=
  match cells with
  | [] => py "()"
  | [c] => py "(" ++ cell_repr c ++ py ",)"
  | _ => py "(" ++ join (py ", ") (map cell_repr cells) ++ py ")"
  end.

(** [repr(tuple(r))] for a list or tuple, [repr((r,))] otherwise. *)
Definition canon_row (r : row C) : str :=
  match r with
  | RTuple cells => repr_tuple cells
  | RList cells => repr_tuple cells
  | RScalar c => repr_tuple [c]
  end.

Definition _canonicalize_rows (rows : list (row C)) : list str :=
  sorted (map canon_row rows).

(** [a == b] on rows: a list never equals a tuple, nor a scalar either. *)
Definition row_eqb (a b : row C) : bool :=
  match a, b with
  | RTuple x, RTuple y => list_eqb cell_eqb x y
  | RList x, RList y => list_eqb cell_eqb x y
  | RScalar x, RScalar y => cell_eqb x y
  | _, _ => false
  end.

Definition compare_results (pred_rows gold_rows : list (row C))
    (order_insensitive : bool) : bool :=
  if order_insensitive then
    list_eqb str_eqb (_canonicalize_rows pred_rows) (_canonicalize_rows gold_rows)
  else list_eqb row_eqb pred_rows gold_rows.

(** The record [run_experiment] appends to [items] for one turn. *)
Record item : Type := {
  it_agent_result : AgentResult C;
  it_pred_sql : str;
  it_pred_execution : option (SQLExecution C);
  it_pred_query_time_ms : option Q;
  it_gold_execution : option (exec_dict C);
  it_gold_query_time_ms : option Q;
  it_query_time_delta_ms : option Q;
  it_results_match : option bool
}.

Definition last_step (ar : AgentResult C) : option (QueryStep C) :=
  last (map Some (steps ar)) None.

Definition has_reference (t : turn) : bool :=
  truthy (t_db_file t) && truthy (t_gold_sql t)
  && negb (is_empty (strip (text_of (t_gold_sql t)))).

(** The verdict of lines 139-145, once both executions are at hand. *)
Definition verdict_of (pred_exec : option (SQLExecution C))
    (pred_rows : list (row C)) (gold_exec : exec_dict C)
    (order_insensitive : bool) : option bool :=
  match pred_exec with
  | Some pe =>
      if success pe && d_success gold_exec then
        Some (compare_results pred_rows (d_results gold_exec) order_insensitive)
      else Some false
  | None => None
  end.

Definition delta (a b : option Q) : option Q :=
  match a, b with
  | Some x, Some y => Some (x - y)%Q
  | _, _ => None
  end.

(** The body of the loop over the turns in [run_experiment]. *)
Definition process_turn (order_insensitive : bool) (msx_ms max_steps : Z)
    (t : turn) (acc : metrics) : M C (item * metrics) :=
  agent_result <- run E (t_text t) (t_db_file t) msx_ms max_steps ;;
  let pred_sql :=
    match last_step agent_result with Some s => sql s | None => [] end in
  let pred_exec := option_map (@execution C) (last_step agent_result) in
  let pred_rows :=
    match last_step agent_result with
    | Some s => results (execution s)
    | None => []
    end in
  let pred_query_time_ms :=
    match pred_exec with Some pe => elapsed_ms pe | None => None end in
  let acc1 :=
    match pred_query_time_ms with
    | Some ms =>
        {| match_count := match_count acc;
           comparable_count := comparable_count acc;
           pred_query_time_sum_ms := (pred_query_time_sum_ms acc + ms)%Q;
           gold_query_time_sum_ms := gold_query_time_sum_ms acc;
           pred_query_time_count := S (pred_query_time_count acc);
           gold_query_time_count := gold_query_time_count acc |}
    | None => acc
    end in
  if has_reference t then
    conn <- get_db_connection E (t_db_file t) ;;
    gold_exec <- try_finally
                   (safe_query E conn (text_of (t_gold_sql t)) msx_ms)
                   (conn_close E conn) ;;
    let gold_query_time_ms := Some (d_elapsed_ms gold_exec) in
    let results_match :=
      verdict_of pred_exec pred_rows gold_exec order_insensitive in
    let matched := bonus results_match in
    ret ({| it_agent_result := agent_result;
            it_pred_sql := pred_sql;
            it_pred_execution := pred_exec;
            it_pred_query_time_ms := pred_query_time_ms;
            it_gold_execution := Some gold_exec;
            it_gold_query_time_ms := gold_query_time_ms;
            it_query_time_delta_ms := delta pred_query_time_ms gold_query_time_ms;
            it_results_match := results_match |},
         {| match_count := match_count acc1 + matched;
            comparable_count := S (comparable_count acc1);
            pred_query_time_sum_ms := pred_query_time_sum_ms acc1;
            gold_query_time_sum_ms :=
              (gold_query_time_sum_ms acc1 + d_elapsed_ms gold_exec)%Q;
            pred_query_time_count := pred_query_time_count acc1;
            gold_query_time_count := S (gold_query_time_count acc1) |})
  else
    ret ({| it_agent_result := agent_result;
            it_pred_sql := pred_sql;
            it_pred_execution := pred_exec;
            it_pred_query_time_ms := pred_query_time_ms;
            it_gold_execution := None;
            it_gold_query_time_ms := None;
            it_query_time_delta_ms := None;
            it_results_match := None |},
         acc1).

(** [for idx, t in enumerate(turns): ...] *)
Fixpoint run_turns (order_insensitive : bool) (msx_ms max_steps : Z)
    (turns : list turn) (acc : metrics) : M C (list item * metrics) :=
  match turns with
  | [] => ret ([], acc)
  | t :: rest =>
      one <- process_turn order_insensitive msx_ms max_steps t acc ;;
      more <- run_turns order_insensitive msx_ms max_steps rest (snd one) ;;
      ret (fst one :: fst more, snd more)
  end.

End Evaluation.

(** ** Fixtures: integer-or-NULL cells and a small database *)

Module Demo.

Inductive value : Type :=
| VNone
| VInt (z : Z).

(** [repr] of [None] and of an [int]. *)
Definition value_repr (v : value) : str :=
  match v with
  | VNone => py "None"
  | VInt z => list_ascii_of_string (NilZero.string_of_int (Z.to_int z))
  end.

Definition value_eqb (a b : value) : bool :=
  match a, b with
  | VNone, VNone => true
  | VInt x, VInt y => (x =? y)%Z
  | _, _ => false
  end.

#[export] Instance value_cell : Cell value :=
  {| cell_repr := value_repr; cell_eqb := value_eqb |}.

Definition students_db : str := py "students.db".

(** A thousand instructions that take a second between them: the work is
    in the last one. *)
Definition burst : list Q := repeat 0%Q 999 ++ [1%Q].

(** A table scan of 2500 instructions that ends after 2.5 seconds, so the
    progress handler is called after 1 and after 2 seconds; a count; anything
    else fails. *)
Definition demo_program (file statement : str) : program value :=
  if str_eqb statement (py "SELECT * FROM big") then
    {| vm_ops := burst ++ burst ++ repeat 0%Q 499 ++ [1 # 2]%Q;
       vm_result := Rows [[VInt 1]; [VInt 2]] |}
  else if str_eqb statement (py "SELECT 1") then
    {| vm_ops := [1 # 1000]%Q; vm_result := Rows [[VInt 1]] |}
  else if str_eqb statement (py "SELECT COUNT(*) FROM students") then
    {| vm_ops := [1 # 100]%Q; vm_result := Rows [[VInt 5]] |}
  else
    {| vm_ops := []; vm_result := Fails (py "no such table") |}.

Definition query_payload (statement : string) : payload :=
  [(py "action", py "query"); (py "reasoning", py "look");
   (py "sql", py statement)].

Definition final_payload (answer : string) : payload :=
  [(py "action", py "final"); (py "final_answer", py answer)].

(** An oracle that asks for the same query on every call. *)
Definition stubborn_oracle (i : nat) (req : request value)
    : res (option json) :=
  Ret (Some (JObject (query_payload "SELECT 1"))).

(** An oracle that answers at once, and one that queries once. *)
Definition hasty_oracle (i : nat) (req : request value)
    : res (option json) :=
  Ret (Some (JObject (final_payload "5"))).

Definition scripted_oracle (i : nat) (req : request value)
    : res (option json) :=
  match i with
  | 0 => Ret (Some (JObject (query_payload "SELECT COUNT(*) FROM students")))
  | _ => Ret (Some (JObject (final_payload "5")))
  end.


Definition demo_env (orc : nat -> request value -> res (option json))
    (closing_fails : bool) : env value :=
  {| file_exists := fun f => str_eqb f students_db;
     vm_program := demo_program;
     schema_result := fun _ => Ret [(py "students", [py "id"; py "name"])];
     close_error := fun _ =>
       if closing_fails then Some (SqliteError (py "unable to close"))
       else None;
     oracle := orc |}.

Definition fresh_conn : conn_state :=
  {| c_file := students_db; c_handler := None; c_open := true;
     c_close_calls := 0 |}.

(** One open connection and nothing done yet. *)
Definition one_conn : world value :=
  {| now := 0; conns := [fresh_conn]; trace := [] |}.

(** The same, with a deadline check that other code left installed. *)
Definition one_conn_watched : world value :=
  {| now := 0;
     conns := [{| c_file := students_db;
                  c_handler := Some ({| ph_deadline := Some 60%Q |}, 1000);
                  c_open := true; c_close_calls := 0 |}];
     trace := [] |}.

Definition empty_world : world value :=
  {| now := 0; conns := []; trace := [] |}.

(** Two statements on two lines, each ending in a line comment that holds
    a quote. *)
Definition two_statements : str :=
  py "SELECT 1 --'" ++ ["010"%char] ++ py "; DROP TABLE t --'".

(** A turn with the reference query of the scenario. *)
Definition count_turn : turn :=
  {| t_text := py "How many students are there?";
     t_db_file := Some students_db;
     t_gold_sql := Some (py "SELECT COUNT(*) FROM students") |}.

End Demo.
Export Demo.

(** ** Further vocabulary *)

(** A statement without a quote and without a comment marker. *)
Definition marker_free (statement : str) : Prop :=
  contains (py "/*") statement = false /\
  contains (py "--") statement = false /\
  contains (py "'") statement = false.

(** No call of the deadline check in a run left to finish finds the clock
    at or past the deadline: there is no deadline, or every call comes
    before it. *)
Definition quiet (deadline : option Q) (n : nat) (ops : list Q) (t : Q)
    : Prop :=
  match deadline with
  | None => True
  | Some d => Forall (fun t' => (t' < d)%Q) (poll_times n ops 0 t)
  end.

(** The deadline [safe_query] computes. *)
Definition deadline_of (start : Q) (msx_ms : Z) : option Q :=
  if (0 <? msx_ms)%Z then Some (start + inject_Z msx_ms / 1000)%Q else None.

(** The statements the log says were sent to the backend. *)
Fixpoint executed_statements {C : Type} (tr : list (event C)) : list str :=
  match tr with
  | [] => []
  | EvExecute _ statement :: tr' => statement :: executed_statements tr'
  | _ :: tr' => executed_statements tr'
  end.

Module Demo2.



(** A database file that opens but whose schema cannot be read. *)
Definition unreadable_env : env value :=
  {| file_exists := fun f => str_eqb f students_db;
     vm_program := demo_program;
     schema_result := fun _ =>
       Raise (SqliteError (py "file is not a database"));
     close_error := fun _ => None;
     oracle := stubborn_oracle |}.

(** An oracle whose reply is valid JSON but no object, such as [[1, 2]]. *)
Definition array_oracle (i : nat) (req : request value)
    : res (option json) :=
  Ret (Some (JOther (py "list"))).

Definition array_env : env value :=
  {| file_exists := fun f => str_eqb f students_db;
     vm_program := demo_program;
     schema_result := fun _ => Ret [(py "students", [py "id"; py "name"])];
     close_error := fun _ => None;
     oracle := array_oracle |}.

End Demo2.
Export Demo2.

Section MoreVocabulary.

Variable C : Type.

(** Every statement the log says was sent to the backend passes the guard. *)
Definition guarded (tr : list (event C)) : Prop :=
  Forall (fun statement => _is_read_only statement = true)
    (executed_statements tr).

(** What every dict of [safe_query] satisfies: a success carries the status
    "success" and no error; a failure carries no rows and an error. *)
Definition dict_ok (statement : str) (d : exec_dict C) : Prop :=
  (d_success d = true ->
     d_status d = py "success" /\ d_error d = None /\
     _is_read_only statement = true) /\
  (d_success d = false -> d_results d = [] /\ d_error d <> None).

(** What every step of a transcript satisfies. *)
Definition step_ok (s : QueryStep C) : Prop :=
  executed (execution s) = true /\
  sql s <> [] /\
  elapsed_ms (execution s) <> None /\
  Forall (@normalized C) (results (execution s)) /\
  (success (execution s) = true ->
     status (execution s) = py "success" /\ error (execution s) = None /\
     _is_read_only (sql s) = true) /\
  (success (execution s) = false ->
     results (execution s) = [] /\ error (execution s) <> None).

(** The failures of the oracle: its transport, a reply that is not JSON, or
    a reply that is JSON but no object. *)
Definition oracle_failure (E : env C) (e : exn) : Prop :=
  (exists i req, oracle E i req = Raise e) \/
  e = ValueError (py "Model did not return valid JSON") \/
  (exists i req type_name,
     oracle E i req = Ret (Some (JOther type_name)) /\
     e = AttributeError
           (py "'" ++ type_name ++ py "' object has no attribute 'get'")).

End MoreVocabulary.

(** The answer with which the planning loop of [run] stops on a reply, if
    it stops: a "final" action, an action that is not "query", a "query"
    without SQL. *)
Definition early_answer (p : payload) : option str :=
  let action := lower (strip (payload_get p (py "action") [])) in
  if str_eqb action (py "final") then
    Some (strip (payload_get p (py "final_answer") []))
  else if negb (str_eqb action (py "query")) then
    Some (py "Agent returned an invalid action.")
  else if is_empty (strip (payload_get p (py "sql") [])) then
    Some (py "Agent did not provide SQL to execute.")
  else None.

(** A connection that was closed, once, and has no handler. *)
Definition closed_once (cs : conn_state) : Prop :=
  c_open cs = false /\ c_close_calls cs = 1 /\ c_handler cs = None.

(** The number of turns that carry a reference. *)
Definition references (turns : list turn) : nat :=
  length (filter has_reference turns).

(** A turn with a reference followed by one without. *)
Definition two_turns : list turn :=
  [Demo.count_turn;
   {| t_text := PyStr.py "anything"; t_db_file := Some Demo.students_db;
      t_gold_sql := None |}].

(** ** agent_old.py: what the prompt shows of earlier results *)

(** [l[:n]]: a negative [n] counts from the end. *)
Definition slice_to {A} (n : Z) (l : list A) : list A :=
  if (0 <=? n)%Z then firstn (Z.to_nat n) l
  else firstn (length l - Z.to_nat (- n)) l.

(** A truncated row: the list of its cells as text, or one text. *)
Inductive prompt_row : Type :=
| PCells (cells : list str)
| PText (s : str).

(** [s = str(x); if len(s) > max_cell_chars: s = s[:max_cell_chars] + "..."] *)
Definition clip (max_cell_chars : Z) (s : str) : str :=
  if (max_cell_chars <? Z.of_nat (length s))%Z
  then slice_to max_cell_chars s ++ py "..."
  else s.

Section Prompt.

Variable C : Type.
Context {cellC : Cell C}.

(** [str(cell)] *)
Variable cell_str : C -> str.

(** [_truncate_results(results, max_rows, max_cell_chars)]: a list row is
    truncated cell by cell, any other row as the text of the whole row. *)
Definition _truncate_results (results : list (row C))
    (max_rows max_cell_chars : Z) : list prompt_row :=
  map (fun r =>
         match r with
         | RList cells =>
             PCells (map (fun cell => clip max_cell_chars (cell_str cell)) cells)
         | RTuple cells => PText (clip max_cell_chars (repr_tuple cells))
         | RScalar c => PText (clip max_cell_chars (cell_str c))
         end)
      (slice_to max_rows results).

(** Every text of a truncated row has at most [n] characters. *)
Definition texts_within (n : Z) (r : prompt_row) : Prop :=
  match r with
  | PCells cells => Forall (fun s => (Z.of_nat (length s) <= n)%Z) cells
  | PText s => (Z.of_nat (length s) <= n)%Z
  end.

End Prompt.

(** ** evaluation/functions.py: the summary of the loaded turns *)

(** A turn as [load_data] returns it: a dict from column names to values,
    [None] for NULL. *)
Definition turn_dict : Type := list (str * option str).

(** [t.get(key)] *)
Fixpoint dict_get (key : str) (t : turn_dict) : option str :=
  match t with
  | [] => None
  | (k, v) :: t' => if str_eqb k key then v else dict_get key t'
  end.

(** [Counter]: keys in the order of their first occurrence. *)
Fixpoint counter_incr (k : str) (c : list (str * nat)) : list (str * nat) :=
  match c with
  | [] => [(k, 1)]
  | (k', n) :: c' =>
      if str_eqb k k' then (k', S n) :: c' else (k', n) :: counter_incr k c'
  end.

Definition Counter (l : list str) : list (str * nat) :=
  fold_left (fun c k => counter_incr k c) l [].

(** [[t.get(key) for t in turns if t.get(key) is not None]] *)
Fixpoint present (key : str) (turns : list turn_dict) : list str :=
  match turns with
  | [] => []
  | t :: rest =>
      match dict_get key t with
      | Some v => v :: present key rest
      | None => present key rest
      end
  end.

(** [[t.get(key) for t in turns if t.get(key)]] *)
Fixpoint present_truthy (key : str) (turns : list turn_dict) : list str :=
  match turns with
  | [] => []
  | t :: rest =>
      match dict_get key t with
      | Some (a :: v) => (a :: v) :: present_truthy key rest
      | _ => present_truthy key rest
      end
  end.

(** [len(set(l))] *)
Fixpoint distinct (l : list str) : list str :=
  match l with
  | [] => []
  | x :: l' => if existsb (str_eqb x) l' then distinct l' else x :: distinct l'
  end.

Record summary : Type := {
  num_turns : nat;
  datasets : list (str * nat);
  splits : list (str * nat);
  unique_dbs : nat
}.

Definition summarize_turns (turns : list turn_dict) : summary :=
  let datasets := present (py "dataset") turns in
  let splits := present (py "split") turns in
  let db_files := present_truthy (py "db_file") turns in
  {| num_turns := length turns;
     datasets := Counter datasets;
     splits := Counter splits;
     unique_dbs := length (distinct db_files) |}.

(** The total of a counter. *)
Definition total (c : list (str * nat)) : nat :=
  fold_right (fun kn s => snd kn + s) 0 c.

(** ** data/main.py: the statement [load_data] builds *)

(** A bound parameter: a string or an integer. *)
Inductive sql_param : Type :=
| PStr (s : str)
| PInt (z : Z).

(** [f"{n}"] for an [int]. *)
Definition decimal (z : Z) : str :=
  list_ascii_of_string (NilZero.string_of_int (Z.to_int z)).

(** load_data, lines 69-92: the text of the query and its parameters.  A
    filter is added for a non-empty [source], a non-empty [split] and a
    [min_turn_index] that is not [None]; a [limit] other than [None] and 0
    is written into the text. *)
Definition load_data_query (source split : option str)
    (min_turn_index limit : option Z) : str * list sql_param :=
  let conditions :=
    (if truthy source then [(py "dataset = ?", PStr (text_of source))] else [])
    ++ (if truthy split then [(py "split = ?", PStr (text_of split))] else [])
    ++ (match min_turn_index with
        | Some i => [(py "turn_index >= ?", PInt i)]
        | None => []
        end) in
  let query := py "SELECT * FROM turns" in
  let query :=
    match conditions with
    | [] => query
    | _ :: _ => query ++ py " WHERE " ++ join (py " AND ") (map fst conditions)
    end in
  let query := query ++ py " ORDER BY turn_uid" in
  let query :=
    match limit with
    | Some n => if (n =? 0)%Z then query else query ++ py " LIMIT " ++ decimal n
    | None => query
    end in
  (query, map snd conditions).

(** The number of [?] placeholders of a statement. *)
Definition placeholders (statement : str) : nat :=
  length (filter (fun a => code a =? 63) statement).


(** ** db_tools.py: the arithmetic of [safe_query] on floats *)

(** Lines 37, 44-47, 56, 64 and 74 as the interpreter evaluates them: the
    clock reading, the deadline and the elapsed time are binary64 floats. *)
Module Binary64.

Import PrimFloat.

(** The float of a non-negative [int] below 2^53. *)
Definition of_int (n : Z) : float := of_uint63 (Uint63.of_Z n).

(** [start + (msx_ms / 1000.0)] *)
Definition deadline (start : float) (msx_ms : Z) : float :=
  add start (div (of_int msx_ms) (of_int 1000)).

(** [(time.monotonic() - start) * 1000.0] *)
Definition elapsed_ms (start t : float) : float :=
  mul (sub t start) (of_int 1000).

(** [1 if time.monotonic() >= deadline else 0], with a deadline set. *)
Definition _progress_handler (deadline t : float) : Z :=
  if leb deadline t then 1%Z else 0%Z.

End Binary64.
(** * Properties *)

(** ** The matcher finds a match exactly when the pattern has one *)

Section MatcherCorrect.

Variable A : Type.

Lemma last_of_nil (p : option ascii) : last_of p [] = p.
Proof. reflexivity. Qed.

Lemma last_of_app (p : option ascii) (w1 w2 : str) :
  last_of p (w1 ++ w2) = last_of (last_of p w1) w2.
Proof.
  unfold last_of. rewrite rev_app_distr.
  destruct (rev w2) as [|c r]; simpl; [reflexivity|reflexivity].
Qed.

Lemma last_of_cons (p : option ascii) (c : ascii) (w : str) :
  last_of p (c :: w) = last_of (Some c) w.
Proof. change (c :: w) with ([c] ++ w). now rewrite last_of_app. Qed.

Lemma orelse_some (x y : option A) (v : A) :
  orelse x y = Some v -> x = Some v \/ (x = None /\ y = Some v).
Proof. destruct x; simpl; intros H; [left|right]; auto. Qed.

Lemma orelse_not_none (x y : option A) :
  orelse x y <> None <-> x <> None \/ y <> None.
Proof.
  destruct x; simpl; split; intros H.
  - left; discriminate.
  - discriminate.
  - now right.
  - destruct H as [H|H]; [now elim H|exact H].
Qed.

Lemma star_step_shorter (w s' : str) :
  w <> [] -> (length s' <? length (w ++ s')) = true.
Proof.
  intros Hw. apply Nat.ltb_lt. rewrite length_app.
  destruct w; [now elim Hw|simpl; lia].
Qed.

Lemma shorter_nonempty (w s' : str) :
  (length s' <? length (w ++ s')) = true -> w <> [].
Proof.
  intros H Hw. subst w. simpl in H. apply Nat.ltb_lt in H. lia.
Qed.

Lemma star_greedy_sound (body : option ascii -> str -> cont A -> option A) R :
  sound_at body R -> forall n, sound_at (star_greedy body n) (iter R).
Proof.
  intros Hb n. induction n as [|n IH]; intros p s k x H; simpl in H.
  - exists [], s. repeat split; [constructor|exact H].
  - apply orelse_some in H. destruct H as [H|[_ H]].
    + apply Hb in H. destruct H as (w1 & s1 & -> & HR & Hk).
      destruct (length s1 <? length (w1 ++ s1)) eqn:Hlt; [|discriminate].
      apply IH in Hk. destruct Hk as (w2 & s' & -> & Hit & Hk).
      exists (w1 ++ w2), s'. rewrite <- app_assoc, last_of_app.
      repeat split; [|exact Hk].
      constructor; [eapply shorter_nonempty; eassumption|exact HR|exact Hit].
    + exists [], s. repeat split; [constructor|exact H].
Qed.

Lemma star_lazy_sound (body : option ascii -> str -> cont A -> option A) R :
  sound_at body R -> forall n, sound_at (star_lazy body n) (iter R).
Proof.
  intros Hb n. induction n as [|n IH]; intros p s k x H; simpl in H.
  - exists [], s. repeat split; [constructor|exact H].
  - apply orelse_some in H. destruct H as [H|[_ H]].
    + exists [], s. repeat split; [constructor|exact H].
    + apply Hb in H. destruct H as (w1 & s1 & -> & HR & Hk).
      destruct (length s1 <? length (w1 ++ s1)) eqn:Hlt; [|discriminate].
      apply IH in Hk. destruct Hk as (w2 & s' & -> & Hit & Hk).
      exists (w1 ++ w2), s'. rewrite <- app_assoc, last_of_app.
      repeat split; [|exact Hk].
      constructor; [eapply shorter_nonempty; eassumption|exact HR|exact Hit].
Qed.

Lemma star_greedy_complete (body : option ascii -> str -> cont A -> option A) R :
  complete_at body R ->
  forall p w s', iter R p w s' ->
  forall n k, length (w ++ s') <= n -> k (last_of p w) s' <> None ->
    star_greedy body n p (w ++ s') k <> None.
Proof.
  intros Hb p w s' Hit.
  induction Hit as [p s|p w1 w2 s Hne HR Hit IH]; intros n k Hn Hk.
  - destruct n; simpl; [exact Hk|].
    apply orelse_not_none. now right.
  - destruct n as [|n].
    + exfalso. rewrite !length_app in Hn. destruct w1; [now elim Hne|simpl in Hn; lia].
    + simpl. apply orelse_not_none. left.
      rewrite <- app_assoc. apply Hb; [exact HR|].
      rewrite star_step_shorter by exact Hne.
      apply IH.
      * rewrite <- app_assoc in Hn. rewrite length_app in Hn.
        destruct w1; [now elim Hne|simpl in Hn; lia].
      * now rewrite <- last_of_app.
Qed.

Lemma star_lazy_complete (body : option ascii -> str -> cont A -> option A) R :
  complete_at body R ->
  forall p w s', iter R p w s' ->
  forall n k, length (w ++ s') <= n -> k (last_of p w) s' <> None ->
    star_lazy body n p (w ++ s') k <> None.
Proof.
  intros Hb p w s' Hit.
  induction Hit as [p s|p w1 w2 s Hne HR Hit IH]; intros n k Hn Hk.
  - destruct n; simpl; [exact Hk|].
    apply orelse_not_none. now left.
  - destruct n as [|n].
    + exfalso. rewrite !length_app in Hn. destruct w1; [now elim Hne|simpl in Hn; lia].
    + simpl. apply orelse_not_none. right.
      rewrite <- app_assoc. apply Hb; [exact HR|].
      rewrite star_step_shorter by exact Hne.
      apply IH.
      * rewrite <- app_assoc in Hn. rewrite length_app in Hn.
        destruct w1; [now elim Hne|simpl in Hn; lia].
      * now rewrite <- last_of_app.
Qed.

Lemma m_sound (r : re) : sound_at (m (A:=A) r) (matches r).
Proof.
  induction r as [|f|a IHa b IHb|a IHa b IHb|a IHa|a IHa| | |];
    intros p s k x H; simpl in H.
  - exists [], s. now repeat split.
  - destruct s as [|c s']; [discriminate|].
    destruct (f c) eqn:Hf; [|discriminate].
    exists [c], s'. repeat split; [now exists c|exact H].
  - apply IHa in H. destruct H as (w1 & s1 & -> & Ha & H).
    apply IHb in H. destruct H as (w2 & s' & -> & Hb & H).
    exists (w1 ++ w2), s'. rewrite <- app_assoc, last_of_app.
    repeat split; [|exact H]. now exists w1, w2.
  - apply orelse_some in H. destruct H as [H|[_ H]].
    + apply IHa in H. destruct H as (w & s' & -> & Ha & H).
      exists w, s'. repeat split; [now left|exact H].
    + apply IHb in H. destruct H as (w & s' & -> & Hb & H).
      exists w, s'. repeat split; [now right|exact H].
  - eapply star_greedy_sound in H; [exact H|exact IHa].
  - eapply star_lazy_sound in H; [exact H|exact IHa].
  - destruct p; [discriminate|]. exists [], s. now repeat split.
  - destruct (at_end s) eqn:He; [|discriminate]. exists [], s. now repeat split.
  - destruct (word_boundary p s) eqn:He; [|discriminate].
    exists [], s. now repeat split.
Qed.

Lemma m_complete (r : re) : complete_at (m (A:=A) r) (matches r).
Proof.
  induction r as [|f|a IHa b IHb|a IHa b IHb|a IHa|a IHa| | |];
    intros p w s' k H Hk; simpl in H.
  - subst w. exact Hk.
  - destruct H as (c & -> & Hf). simpl. now rewrite Hf.
  - destruct H as (w1 & w2 & -> & Ha & Hb). simpl.
    rewrite <- app_assoc. apply IHa; [exact Ha|].
    apply IHb; [exact Hb|]. now rewrite <- last_of_app.
  - simpl. apply orelse_not_none. destruct H as [H|H].
    + left. now apply IHa.
    + right. now apply IHb.
  - simpl. eapply star_greedy_complete; eauto.
  - simpl. eapply star_lazy_complete; eauto.
  - destruct H as [-> ->]. exact Hk.
  - destruct H as [-> He]. simpl. now rewrite He.
  - destruct H as [-> He]. simpl. now rewrite He.
Qed.

End MatcherCorrect.

(** [re.match] succeeds exactly when a prefix of the text matches. *)
Lemma re_match_iff (r : re) (s : str) :
  re_match r s <> None <-> exists w s', s = w ++ s' /\ matches r None w s'.
Proof.
  unfold re_match. split.
  - destruct (m r None s accept) as [x|] eqn:H; [intros _|now intros E; elim E].
    apply m_sound in H. destruct H as (w & s' & -> & Hm & _). now exists w, s'.
  - intros (w & s' & -> & Hm). apply m_complete; [exact Hm|discriminate].
Qed.

(** [re.search] succeeds exactly when the pattern matches somewhere. *)
Lemma search_from_iff (r : re) (s : str) (p : option ascii) :
  search_from r p s <> None <->
  exists pre w post, s = pre ++ w ++ post /\ matches r (last_of p pre) w post.
Proof.
  revert p. induction s as [|c s IH]; intros p; simpl.
  - destruct (m r p [] accept) as [x|] eqn:H.
    + split; [intros _|discriminate].
      apply m_sound in H. destruct H as (w & s' & E & Hm & _).
      exists [], w, s'. now split.
    + split; [now intros E; elim E|].
      intros (pre & w & post & E & Hm). exfalso.
      symmetry in E. apply app_eq_nil in E. destruct E as [-> E].
      rewrite <- E in H. simpl in Hm.
      apply (m_complete (A:=str) r _ _ _ accept Hm); [discriminate|exact H].
  - destruct (m r p (c :: s) accept) as [x|] eqn:H.
    + split; [intros _|discriminate].
      apply m_sound in H. destruct H as (w & s' & E & Hm & _).
      exists [], w, s'. now split.
    + rewrite IH. split.
      * intros (pre & w & post & -> & Hm).
        exists (c :: pre), w, post. split; [reflexivity|].
        now rewrite last_of_cons.
      * intros (pre & w & post & E & Hm). destruct pre as [|c' pre].
        -- exfalso. simpl in E. rewrite E in H. simpl in Hm.
           apply (m_complete (A:=str) r _ _ _ accept Hm); [discriminate|exact H].
        -- simpl in E. injection E as <- ->.
           exists pre, w, post. split; [reflexivity|].
           now rewrite last_of_cons in Hm.
Qed.

Lemma re_search_iff (r : re) (s : str) :
  re_search r s <> None <->
  exists pre w post, s = pre ++ w ++ post /\ matches r (last_of None pre) w post.
Proof. apply search_from_iff. Qed.

(** ** The guard's two patterns, read declaratively *)

Section GuardPatterns.

Lemma matches_chr (c : ascii) p w s :
  matches (chr c) p w s <-> w = [c].
Proof.
  simpl. split.
  - intros (c' & -> & H). apply Ascii.eqb_eq in H. now subst.
  - intros ->. exists c. split; [reflexivity|apply Ascii.eqb_refl].
Qed.

Lemma matches_lit_list (u : str) p w s :
  matches (lit_list u) p w s <-> w = u.
Proof.
  revert p w s. induction u as [|c u IH]; intros p w s.
  - simpl. tauto.
  - destruct u as [|c' u].
    + apply matches_chr.
    + change (lit_list (c :: c' :: u)) with (Seq (chr c) (lit_list (c' :: u))).
      cbn [matches]. split.
      * intros (w1 & w2 & -> & H1 & H2).
        apply matches_chr in H1. apply IH in H2. now subst.
      * intros ->. exists [c], (c' :: u). split; [reflexivity|].
        split; [now apply matches_chr|now apply IH].
Qed.

Lemma matches_alts_lits (ws : list str) p w s :
  matches (alts (map lit_list ws)) p w s <-> In w ws.
Proof.
  induction ws as [|u ws IH].
  - simpl. split; [intros (c & _ & H); discriminate|tauto].
  - destruct ws as [|u' ws].
    + simpl map. cbn [alts]. rewrite matches_lit_list. simpl. intuition.
    + change (alts (map lit_list (u :: u' :: ws)))
        with (Alt (lit_list u) (alts (map lit_list (u' :: ws)))).
      cbn [matches]. rewrite matches_lit_list, IH.
      simpl. intuition.
Qed.

Lemma iter_space p w s : iter (matches space) p w s <-> blank w.
Proof.
  unfold blank. split.
  - induction 1 as [|p w1 w2 s _ (c & -> & Hc) _ IH]; [reflexivity|].
    simpl. now rewrite Hc.
  - revert p. induction w as [|c w IH]; intros p H; [constructor|].
    simpl in H. apply andb_true_iff in H. destruct H as [Hc Hw].
    change (c :: w) with ([c] ++ w). constructor.
    + discriminate.
    + now exists c.
    + now apply IH.
Qed.

Lemma matches_plus_space p w s : matches (Plus space) p w s <-> blank1 w.
Proof.
  unfold Plus, blank1. cbn [matches]. split.
  - intros (w1 & w2 & -> & (c & -> & Hc) & Hit).
    apply iter_space in Hit. split; [discriminate|].
    unfold blank in *. simpl. now rewrite Hc.
  - intros [Hne Hb]. destruct w as [|c w]; [now elim Hne|].
    unfold blank in Hb. simpl in Hb. apply andb_true_iff in Hb.
    destruct Hb as [Hc Hw].
    exists [c], w. split; [reflexivity|]. split; [now exists c|].
    now apply iter_space.
Qed.

Lemma matches_explain p w s : matches explain_re p w s <-> explain_prefix w.
Proof.
  unfold explain_re, Opt, lit. cbn [matches]. split.
  - intros [(w1 & w2 & -> & H1 & w3 & w4 & -> & H3 & H4)| ->]; [|constructor].
    apply matches_lit_list in H1. subst w1.
    apply matches_plus_space in H3.
    destruct H4 as [(w5 & w6 & -> & H5 & w7 & w8 & -> & H7 & w9 & w10 & -> & H9 & H10)| ->].
    + apply matches_lit_list in H5. apply matches_lit_list in H9. subst w5 w9.
      apply matches_plus_space in H7. apply matches_plus_space in H10.
      now apply explain_query_plan.
    + rewrite app_nil_r. now apply explain_only.
  - intros H. destruct H as [|w1 H1|w1 w2 w3 H1 H2 H3].
    + now right.
    + left. exists (py "explain"), w1. split; [reflexivity|].
      split; [now apply matches_lit_list|].
      exists w1, []. split; [now rewrite app_nil_r|].
      split; [now apply matches_plus_space|now right].
    + left. exists (py "explain"), (w1 ++ py "query" ++ w2 ++ py "plan" ++ w3).
      split; [reflexivity|]. split; [now apply matches_lit_list|].
      exists w1, (py "query" ++ w2 ++ py "plan" ++ w3). split; [reflexivity|].
      split; [now apply matches_plus_space|]. left.
      exists (py "query"), (w2 ++ py "plan" ++ w3). split; [reflexivity|].
      split; [now apply matches_lit_list|].
      exists w2, (py "plan" ++ w3). split; [reflexivity|].
      split; [now apply matches_plus_space|].
      exists (py "plan"), w3. split; [reflexivity|].
      split; [now apply matches_lit_list|now apply matches_plus_space].
Qed.

Lemma boundary_after_word (c : ascii) (rest : str) :
  is_word c = true ->
  (word_boundary (Some c) rest = true <-> ends_token rest).
Proof.
  intros Hc. unfold word_boundary, ends_token. simpl. rewrite Hc.
  destruct (word_at (hd_error rest)); simpl; intuition discriminate.
Qed.

Lemma boundary_before_word (p : option ascii) (c : ascii) (rest : str) :
  is_word c = true ->
  (word_boundary p (c :: rest) = true <-> word_at p = false).
Proof.
  intros Hc. unfold word_boundary. simpl. rewrite Hc.
  destruct (word_at p); simpl; intuition discriminate.
Qed.

Lemma last_of_select p : last_of p (py "select") = Some "t"%char.
Proof. reflexivity. Qed.

Lemma last_of_with p : last_of p (py "with") = Some "h"%char.
Proof. reflexivity. Qed.

Lemma read_only_re_shape :
  read_only_re =
  Seq Bol (Seq (Star space)
    (Seq explain_re (Seq (Alt (lit "select") (lit "with")) WordB))).
Proof. reflexivity. Qed.

(** [re.match] of the read-only pattern, declaratively. *)
Lemma read_only_match_iff (t : str) :
  re_match read_only_re t <> None <-> starts_read_only t.
Proof.
  rewrite re_match_iff, read_only_re_shape. unfold starts_read_only, lit.
  cbn [matches]. split.
  - intros (w & rest & -> & wa & wb & -> & [-> _] & w0 & wc & -> & H0 &
            pre & wd & -> & Hpre & kw & we & -> & Hkw & -> & Hb).
    apply iter_space in H0. apply matches_explain in Hpre.
    rewrite !matches_lit_list in Hkw.
    exists w0, pre, kw, rest. simpl. rewrite !app_nil_r, <- !app_assoc.
    repeat split; try assumption.
    destruct Hkw as [-> | ->].
    + rewrite last_of_select in Hb.
      now apply (boundary_after_word "t" rest).
    + rewrite last_of_with in Hb.
      now apply (boundary_after_word "h" rest).
  - intros (w0 & pre & kw & rest & -> & H0 & Hpre & Hkw & Hend).
    exists (w0 ++ pre ++ kw), rest. split; [now rewrite <- !app_assoc|].
    exists [], (w0 ++ pre ++ kw). split; [reflexivity|]. split; [now split|].
    exists w0, (pre ++ kw). split; [reflexivity|].
    split; [now apply iter_space|].
    exists pre, kw. split; [reflexivity|].
    split; [now apply matches_explain|].
    exists kw, []. split; [now rewrite app_nil_r|].
    split; [rewrite !matches_lit_list; exact Hkw|].
    split; [reflexivity|].
    destruct Hkw as [-> | ->].
    + rewrite last_of_select. now apply (boundary_after_word "t" rest).
    + rewrite last_of_with. now apply (boundary_after_word "h" rest).
Qed.

(** Every prohibited word starts and ends with a word character. *)
Lemma prohibited_wordy : forallb wordy prohibited_words = true.
Proof. reflexivity. Qed.

Lemma wordy_inv (u : str) :
  wordy u = true ->
  exists c u' c', u = c :: u' /\ is_word c = true /\
    is_word c' = true /\ forall p, last_of p u = Some c'.
Proof.
  unfold wordy. intros H. apply andb_true_iff in H. destruct H as [H1 H2].
  destruct u as [|c u']; [discriminate|].
  destruct (rev (c :: u')) as [|c' r] eqn:Hr; [discriminate|].
  exists c, u', c'. repeat split; [exact H1|exact H2|].
  intros p. unfold last_of. now rewrite Hr.
Qed.

(** [re.search] of the prohibited-word pattern, declaratively. *)
Lemma prohibited_search_iff (t : str) :
  re_search prohibited_re t <> None <->
  exists w, In w prohibited_words /\ whole_word w t.
Proof.
  rewrite re_search_iff. unfold prohibited_re, whole_word. cbn [matches].
  split.
  - intros (pre & w & post & -> & wa & wb & -> & [-> Hb1] & u & wc & -> & Hu & -> & Hb2).
    apply matches_alts_lits in Hu. simpl in *. rewrite app_nil_r in *.
    exists u. split; [exact Hu|]. exists pre, post. split; [reflexivity|].
    pose proof prohibited_wordy as Hw. rewrite forallb_forall in Hw.
    destruct (wordy_inv _ (Hw u Hu)) as (c & u' & c' & -> & Hc & Hc' & Hl).
    rewrite Hl in Hb2. simpl in Hb1.
    split.
    + now apply (boundary_before_word _ c (u' ++ post)).
    + now apply (boundary_after_word c' post).
  - intros (u & Hu & pre & post & -> & Hp & Hn).
    exists pre, u, post. split; [reflexivity|].
    pose proof prohibited_wordy as Hw. rewrite forallb_forall in Hw.
    destruct (wordy_inv _ (Hw u Hu)) as (c & u' & c' & E & Hc & Hc' & Hl).
    exists [], u. split; [reflexivity|]. split.
    + split; [reflexivity|]. rewrite E.
      now apply (boundary_before_word _ c (u' ++ post)).
    + exists u, []. split; [now rewrite app_nil_r|].
      split; [now apply matches_alts_lits|].
      split; [reflexivity|]. rewrite last_of_nil, Hl.
      now apply (boundary_after_word c' post).
Qed.

Lemma classify_true_iff (sanitized : str) :
  classify sanitized = true <-> code_classify sanitized.
Proof.
  unfold classify, code_classify, no_prohibited_word.
  rewrite <- read_only_match_iff.
  pose proof (prohibited_search_iff (cleaned_of sanitized)) as Hs.
  destruct (re_match read_only_re (cleaned_of sanitized)) as [x|].
  - destruct (re_search prohibited_re (cleaned_of sanitized)) as [y|].
    + split; [discriminate|]. intros [_ Hno]. exfalso.
      destruct Hs as [Hs _]. destruct Hs as (w & Hin & Hw); [discriminate|].
      exact (Hno w Hin Hw).
    + split; [intros _|reflexivity]. split; [discriminate|].
      intros w Hin Hw. destruct Hs as [_ Hs]. apply Hs; [|reflexivity].
      now exists w.
  - split; [discriminate|]. intros [H _]. now elim H.
Qed.

End GuardPatterns.

(** ** The guard *)

(** C1 as the specification words it (semicolons trimmed at the end only)
    does not hold: the code also trims leading semicolons, so [;select 1]
    is allowed although its trimmed text does not start with a query
    keyword. *)
Lemma guard_spec_iff_fails :
  ~ (forall s : str,
       _is_read_only s = true <->
       spec_classify (_strip_comments_and_literals s)).
Proof.
  intros H. destruct (H (py ";select 1")) as [H1 _].
  destruct (H1 eq_refl) as [Hstart _].
  apply read_only_match_iff in Hstart. apply Hstart.
  vm_compute. reflexivity.
Qed.

(** C1 (amended): for every SQL text, [_is_read_only] allows it exactly when
    the sanitized text, trimmed of whitespace, lowercased and trimmed of
    semicolons at both ends, starts (after optional whitespace and an optional
    "explain" / "explain query plan" prefix) with "select" or "with" as a
    whole token and has no whole-word occurrence of a prohibited term; in
    particular a text whose cleaned form has such an occurrence is rejected,
    as is [SELECT 1; DROP TABLE t]. *)
Theorem is_read_only_characterised :
  (forall s : str,
     _is_read_only s = true <->
     code_classify (_strip_comments_and_literals s)) /\
  (forall (s w : str),
     In w prohibited_words ->
     whole_word w (cleaned_of (_strip_comments_and_literals s)) ->
     _is_read_only s = false) /\
  _is_read_only (py "SELECT 1; DROP TABLE t") = false.
Proof.
  split; [|split].
  - intros s. apply classify_true_iff.
  - intros s w Hin Hw.
    destruct (_is_read_only s) eqn:H; [|reflexivity].
    apply classify_true_iff in H. destruct H as [_ Hno].
    elim (Hno w Hin Hw).
  - vm_compute. reflexivity.
Qed.

(** The line-comment pattern reads the two dashes and nothing more: the
    lazy [.*?] stops at once because the group [(|$)] accepts the empty
    text. *)
Lemma line_comment_reads_marker_only (p : option ascii) (s : str) :
  m line_comment_re p ("-"%char :: "-"%char :: s) accept = Some s.
Proof.
  unfold line_comment_re, lit. simpl.
  destruct (length s); reflexivity.
Qed.

(** C2 (the code misses it): a line comment is not replaced, only its
    [--] marker is, so a prohibited word inside a line comment stays in the
    text and the statement is rejected; the same word inside a block comment
    or a quoted literal is removed and the statement is allowed.  The text
    of a line comment also takes part in the literal pattern: a quote in it
    can open a literal that swallows a statement on the next line. *)
Theorem line_comment_keyword_rejected :
  _strip_comments_and_literals (py "SELECT 1 -- drop") = py "SELECT 1   drop" /\
  _is_read_only (py "SELECT 1 -- drop") = false /\
  _is_read_only (py "SELECT 1 /* drop */") = true /\
  _is_read_only (py "SELECT 'drop'") = true /\
  _strip_comments_and_literals two_statements = py "SELECT 1  ''" /\
  _is_read_only two_statements = true.
Proof. vm_compute. repeat split. Qed.

(** C10: [SELECT * FROM t WHERE name='drop table'] is allowed; the literal
    is replaced by the placeholder [''] before the prohibited-word search. *)
Theorem literal_keyword_allowed :
  _strip_comments_and_literals (py "SELECT * FROM t WHERE name='drop table'")
    = py "SELECT * FROM t WHERE name=''" /\
  _is_read_only (py "SELECT * FROM t WHERE name='drop table'") = true.
Proof. vm_compute. split; reflexivity. Qed.

(** ** Bounded execution: [safe_query] *)

Section SafeQuery.

Variable C : Type.
Variable E : env C.

Lemma update_nth_length {A} (i : nat) (f : A -> A) (l : list A) :
  length (update_nth i f l) = length l.
Proof.
  revert i. induction l as [|x l IH]; intros [|i]; simpl; auto.
Qed.

Lemma nth_error_update_nth {A} (i j : nat) (f : A -> A) (l : list A) :
  nth_error (update_nth i f l) j =
  if i =? j then option_map f (nth_error l j) else nth_error l j.
Proof.
  revert i j. induction l as [|x l IH]; intros i j.
  - destruct i, j; simpl; try reflexivity. now destruct (i =? j).
  - destruct i, j; simpl; auto.
Qed.

Lemma update_nth_twice {A} (i : nat) (f g : A -> A) (l : list A) :
  update_nth i g (update_nth i f l) = update_nth i (fun x => g (f x)) l.
Proof.
  revert i. induction l as [|x l IH]; intros [|i]; simpl; auto.
  now rewrite IH.
Qed.

Lemma progress_handler_run (h : progress_handler) (w : world C) :
  _progress_handler h w = (Ret (answer_of h w), w).
Proof.
  unfold _progress_handler, answer_of.
  destruct (ph_deadline h) as [d|]; [|reflexivity].
  unfold bind, time_monotonic. now destruct (Qle_bool d (now w)).
Qed.

Lemma run_vm_cons h dt ops k (w : world C) :
  run_vm h (dt :: ops) k w =
  match h with
  | Some (handler, n) =>
      if S k =? n then
        if (answer_of handler (tick dt w) =? 0)%Z
        then run_vm h ops 0 (tick dt w) else (Ret true, tick dt w)
      else run_vm h ops (S k) (tick dt w)
  | None => run_vm h ops (S k) (tick dt w)
  end.
Proof.
  cbn [run_vm]. unfold bind at 1. unfold advance. fold (tick dt w).
  destruct h as [[handler n]|]; [|reflexivity].
  destruct (S k =? n); [|reflexivity].
  unfold bind. rewrite progress_handler_run.
  now destruct (answer_of handler (tick dt w) =? 0)%Z.
Qed.

(** Running the instructions touches the clock only. *)
Lemma run_vm_frame h ops k (w : world C) :
  exists b w', run_vm h ops k w = (Ret b, w') /\
    conns w' = conns w /\ trace w' = trace w.
Proof.
  revert k w. induction ops as [|dt ops IH]; intros k w.
  - now exists false, w.
  - rewrite run_vm_cons.
    destruct h as [[handler n]|].
    + destruct (S k =? n).
      * destruct (answer_of handler (tick dt w) =? 0)%Z.
        -- apply (IH 0 (tick dt w)).
        -- now exists true, (tick dt w).
      * apply (IH (S k) (tick dt w)).
    + apply (IH (S k) (tick dt w)).
Qed.

(** With a deadline check installed, the run is interrupted as soon as a
    call of the check finds the clock at or past the deadline. *)
Lemma run_vm_interrupted (d : Q) (n : nat) ops k (w : world C) :
  Exists (fun t => (d <= t)%Q) (poll_times n ops k (now w)) ->
  exists w', run_vm (Some ({| ph_deadline := Some d |}, n)) ops k w
               = (Ret true, w') /\
    (d <= now w')%Q /\ conns w' = conns w /\ trace w' = trace w.
Proof.
  revert k w. induction ops as [|dt ops IH]; intros k w H.
  - inversion H.
  - rewrite run_vm_cons. cbn [poll_times] in H.
    destruct (S k =? n).
    + unfold answer_of. cbn [ph_deadline tick now].
      destruct (Qle_bool d (now w + dt)) eqn:Hle.
      * exists (tick dt w). apply Qle_bool_iff in Hle. now repeat split.
      * inversion H as [? ? Hd|? ? Hd]; subst.
        -- apply Qle_bool_iff in Hd. congruence.
        -- apply (IH 0 (tick dt w) Hd).
    + apply (IH (S k) (tick dt w) H).
Qed.

Lemma interrupted_is_timeout :
  contains (py "interrupted") (lower (py "interrupted")) = true.
Proof. reflexivity. Qed.

Lemma execute_fetchall_effect (c : nat) (statement : str) (w : world C) :
  exists r w', execute_fetchall E c statement w = (r, w') /\
    conns w' = conns w /\
    (trace w' = trace w \/ trace w' = trace w ++ [EvExecute c statement]) /\
    match r with
    | Ret rows => fetched rows
    | Raise (SqliteError _) => True
    | Raise _ => False
    end.
Proof.
  unfold execute_fetchall.
  destruct (conn_of w c) as [[file h [|] k]|].
  - unfold bind at 1. cbn [log].
    set (w0 := {| now := now w; conns := conns w;
                  trace := trace w ++ [EvExecute c statement] |}).
    destruct (run_vm_frame h (vm_ops (vm_program E file statement)) 0 w0)
      as (b & w1 & Hrun & Hcs & Htr).
    unfold bind at 1. rewrite Hrun.
    destruct b.
    + exists (Raise (SqliteError (py "interrupted"))), w1.
      split; [reflexivity|]. split; [exact Hcs|]. split; [now right|exact I].
    + destruct (vm_result (vm_program E file statement)) as [rs|msg].
      * exists (Ret (map (@RTuple C) rs)), w1.
        split; [reflexivity|]. split; [exact Hcs|]. split; [now right|].
        now exists rs.
      * exists (Raise (SqliteError msg)), w1.
        split; [reflexivity|]. split; [exact Hcs|]. split; [now right|exact I].
  - eexists _, w. split; [reflexivity|]. split; [reflexivity|].
    split; [now left|exact I].
  - eexists _, w. split; [reflexivity|]. split; [reflexivity|].
    split; [now left|exact I].
Qed.

(** The steps of [safe_query] on an allowed statement, world by world. *)
Lemma safe_query_allowed (c : nat) (statement : str) (ms : Z) (w : world C) :
  _is_read_only statement = true ->
  let start := now w in
  let deadline := if (0 <? ms)%Z then Some (start + inject_Z ms / 1000)%Q
                  else None in
  let w1 := with_handler c (Some ({| ph_deadline := deadline |}, 1000))
              (logged (EvSafeQuery c statement) w) in
  safe_query E c statement ms w =
  match execute_fetchall E c statement w1 with
  | (Ret rows, w2) =>
      (Ret {| d_success := true; d_status := py "success";
              d_elapsed_ms := seconds_to_ms (now w2 - start);
              d_results := rows; d_error := None |},
       with_handler c None w2)
  | (Raise (SqliteError exc), w2) =>
      (Ret {| d_success := false;
              d_status := if contains (py "interrupted") (lower exc)
                          then py "TimeOut" else py "ExecFailed";
              d_elapsed_ms := seconds_to_ms (now w2 - start);
              d_results := []; d_error := Some exc |},
       with_handler c None w2)
  | (Raise e, w2) => (Raise e, with_handler c None w2)
  end.
Proof.
  intros Hro. cbv zeta. unfold safe_query.
  unfold bind at 1. cbn [log]. unfold bind at 1. cbn [time_monotonic].
  rewrite Hro. cbn [negb]. unfold bind at 1.
  unfold set_progress_handler at 1, update_conn at 1.
  unfold try_finally, try_except_sqlite. unfold bind at 1.
  cbn [now trace conns].
  fold (logged (EvSafeQuery c statement) w).
  unfold _progress_handler_generator.
  match goal with
  | |- context [execute_fetchall E c statement ?ww] =>
      change ww with (with_handler c
        (Some ({| ph_deadline :=
                    if (0 <? ms)%Z then Some (now w + inject_Z ms / 1000)%Q
                    else None |}, 1000))
        (logged (EvSafeQuery c statement) w))
  end.
  destruct (execute_fetchall E c statement _) as [[rows|e] w2].
  - reflexivity.
  - destruct e; reflexivity.
Qed.

Lemma safe_query_rejected (c : nat) (statement : str) (ms : Z) (w : world C) :
  _is_read_only statement = false ->
  safe_query E c statement ms w =
  (Ret {| d_success := false; d_status := py "NoSafe";
          d_elapsed_ms := seconds_to_ms (now w - now w);
          d_results := [];
          d_error := Some (py "Query rejected by read-only policy") |},
   logged (EvSafeQuery c statement) w).
Proof.
  intros Hro. unfold safe_query.
  unfold bind at 1. cbn [log]. unfold bind at 1. cbn [time_monotonic].
  rewrite Hro. reflexivity.
Qed.

(** [safe_query] always returns a dict.  A rejected statement leaves the
    connections as they were; an allowed one leaves the connection without
    a handler and the others as they were. *)
Lemma safe_query_effect (c : nat) (statement : str) (ms : Z) (w : world C) :
  exists d w', safe_query E c statement ms w = (Ret d, w') /\
    conns w' = (if _is_read_only statement
                then update_nth c clear_handler (conns w) else conns w) /\
    (trace w' = trace w ++ [EvSafeQuery c statement] \/
     trace w' = trace w ++ [EvSafeQuery c statement; EvExecute c statement]) /\
    (_is_read_only statement = false ->
       d_status d = py "NoSafe" /\ d_success d = false) /\
    (d_success d = true -> fetched (d_results d)) /\
    (d_success d = false -> d_results d = []).
Proof.
  destruct (_is_read_only statement) eqn:Hro.
  - rewrite (safe_query_allowed c statement ms w Hro). cbv zeta.
    match goal with
    | |- context [execute_fetchall E c statement ?ww] =>
        destruct (execute_fetchall_effect c statement ww)
          as (r & w2 & Hex & Hcs & Htr & Hr); rewrite Hex
    end.
    assert (forall h, conns (with_handler c h w2)
                      = update_nth c (fun cs =>
                          {| c_file := c_file cs; c_handler := h;
                             c_open := c_open cs;
                             c_close_calls := c_close_calls cs |}) (conns w))
      as Hconns.
    { intros h. unfold with_handler at 1. cbn [conns]. rewrite Hcs.
      unfold with_handler, logged. cbn [conns].
      now rewrite update_nth_twice. }
    assert (trace w2 = trace w ++ [EvSafeQuery c statement] \/
            trace w2 = trace w ++ [EvSafeQuery c statement; EvExecute c statement])
      as Htrace.
    { destruct Htr as [Htr|Htr]; rewrite Htr; unfold with_handler, logged;
        cbn [trace]; [now left|right]. now rewrite <- app_assoc. }
    destruct r as [rows|e].
    + eexists _, _. split; [reflexivity|]. split; [apply Hconns|].
      split; [exact Htrace|]. split; [discriminate|].
      split; [intros _; exact Hr|discriminate].
    + destruct e; try contradiction.
      eexists _, _. split; [reflexivity|]. split; [apply Hconns|].
      split; [exact Htrace|]. split; [discriminate|].
      split; [discriminate|reflexivity].
  - rewrite (safe_query_rejected c statement ms w Hro).
    eexists _, _. split; [reflexivity|]. split; [reflexivity|].
    split; [now left|]. split; [now split|].
    split; [discriminate|reflexivity].
Qed.

Lemma installed_update (c c' : nat) (f : conn_state -> conn_state)
    (w w' : world C) :
  conns w' = update_nth c f (conns w) ->
  installed w' c' =
  if c =? c' then match conn_of w c' with
                  | Some cs => c_handler (f cs)
                  | None => None
                  end
  else installed w c'.
Proof.
  intros H. unfold installed, conn_of. rewrite H, nth_error_update_nth.
  destruct (c =? c'); [|reflexivity].
  now destruct (nth_error (conns w) c').
Qed.

End SafeQuery.

(** C8 as stated does not hold on the rejection path: a statement the
    policy rejects returns before any handler is installed or removed, so a
    handler that was on the open connection is still there. *)
Lemma rejected_query_keeps_handler :
  ~ (forall (E : env value) (c : nat) (cs : conn_state) (statement : str)
            (ms : Z) (w : world value),
       conn_of w c = Some cs -> c_open cs = true ->
       installed (snd (safe_query E c statement ms w)) c = None).
Proof.
  intros H.
  specialize (H (demo_env stubborn_oracle false) 0 _ (py "DROP TABLE t")
                1000%Z one_conn_watched eq_refl eq_refl).
  vm_compute in H. discriminate.
Qed.

(** C8 (amended): a call of [safe_query] on an open connection returns a
    dict; when the statement passes the policy check, on every exit path -
    rows fetched, backend error, timeout - the connection has no progress
    handler when the call returns; when the policy rejects the statement,
    no handler is installed and the connections are left as they were; so a
    connection without a handler before the call has none after it, and the
    handlers of other connections are never touched. *)
Theorem safe_query_leaves_no_handler (C : Type) (E : env C) (c : nat)
    (cs : conn_state) (statement : str) (ms : Z) (w : world C) :
  conn_of w c = Some cs -> c_open cs = true ->
  exists d w', safe_query E c statement ms w = (Ret d, w') /\
    (_is_read_only statement = true -> installed w' c = None) /\
    (_is_read_only statement = false ->
       conns w' = conns w /\ d_status d = py "NoSafe") /\
    (installed w c = None -> installed w' c = None) /\
    (forall c', c' <> c -> installed w' c' = installed w c').
Proof.
  intros _ _.
  destruct (safe_query_effect E c statement ms w)
    as (d & w' & Hq & Hcs & _ & Hrej & _ & _).
  exists d, w'. split; [exact Hq|].
  destruct (_is_read_only statement) eqn:Hro.
  - pose proof (fun c' => installed_update c c' clear_handler w w' Hcs) as Hi.
    split; [intros _|split; [discriminate|split]].
    + rewrite Hi, Nat.eqb_refl. now destruct (conn_of w c).
    + intros _. rewrite Hi, Nat.eqb_refl. now destruct (conn_of w c).
    + intros c' Hne. rewrite Hi.
      destruct (c =? c') eqn:Heq; [|reflexivity].
      apply Nat.eqb_eq in Heq. congruence.
  - split; [discriminate|]. split; [intros _; split; [exact Hcs|now apply Hrej]|].
    unfold installed, conn_of. rewrite Hcs. split; [auto|reflexivity].
Qed.

(** The scan that the deadline check interrupts, on a connection on which
    other code had left a handler: none is left. *)
Lemma safe_query_leaves_no_handler_witness :
  exists d w',
    safe_query (demo_env stubborn_oracle false) 0 (py "SELECT * FROM big")
      1500%Z one_conn_watched = (Ret d, w') /\
    (_is_read_only (py "SELECT * FROM big") = true -> installed w' 0 = None) /\
    (_is_read_only (py "SELECT * FROM big") = false ->
       conns w' = conns one_conn_watched /\ d_status d = py "NoSafe") /\
    (installed one_conn_watched 0 = None -> installed w' 0 = None) /\
    (forall c', c' <> 0 -> installed w' c' = installed one_conn_watched c').
Proof.
  eapply (@safe_query_leaves_no_handler value (demo_env stubborn_oracle false)
            0 _ (py "SELECT * FROM big") 1500%Z one_conn_watched).
  - reflexivity.
  - reflexivity.
Defined.

(** C3 as stated does not hold.  An evaluation that runs past the deadline
    but ends before the backend's next call of the deadline check is not
    interrupted; the outcome is a success whose elapsed time exceeds the
    budget: here the scan ends after 2.5 s with a budget of 2.2 s; the
    check ran after 1 s and after 2 s.  And when the check does interrupt,
    the elapsed time the code computes can be below the budget: with the
    clock at 1000.0 at the start and a budget of 50 ms, a check made at the
    deadline answers 1, and [(t - start) * 1000.0] is 49.99999999995. *)
Lemma overrun_between_checks_succeeds :
  ~ (forall (E : env value) (c : nat) (cs : conn_state) (statement : str)
            (ms : Z) (w : world value),
       conn_of w c = Some cs -> c_open cs = true ->
       _is_read_only statement = true -> (0 < ms)%Z ->
       (now w + inject_Z ms / 1000 <
          vm_end (vm_ops (vm_program E (c_file cs) statement)) (now w))%Q ->
       exists d w', safe_query E c statement ms w = (Ret d, w') /\
         d_status d = py "TimeOut" /\ d_success d = false /\
         (inject_Z ms <= d_elapsed_ms d)%Q) /\
  (let start := Binary64.of_int 1000 in
   let t := Binary64.deadline start 50 in
   Binary64._progress_handler (Binary64.deadline start 50) t = 1%Z /\
   PrimFloat.ltb (Binary64.elapsed_ms start t) (Binary64.of_int 50) = true).
Proof.
  split.
  - intros H.
    destruct (H (demo_env stubborn_oracle false) 0 fresh_conn
                (py "SELECT * FROM big") 2200%Z one_conn)
      as (d & w' & Hq & Hst & _).
    + reflexivity.
    + reflexivity.
    + vm_compute. reflexivity.
    + reflexivity.
    + vm_compute. reflexivity.
    + vm_compute in Hq. injection Hq as <- _. discriminate.
  - vm_compute. split; reflexivity.
Qed.

(** C3 (amended): for an allowed statement run on an open connection with a
    positive budget [msx_ms], if some call of the deadline check - made by
    the backend after every 1000th instruction - finds the clock at or past
    the deadline computed at the start, [safe_query] returns the status
    "TimeOut" with success false, no rows and the error "interrupted"; the
    check answers non-zero exactly when it has a deadline and the clock has
    reached it. *)
Theorem safe_query_times_out (C : Type) (E : env C) (c : nat)
    (cs : conn_state) (statement : str) (ms : Z) (w : world C) :
  conn_of w c = Some cs -> c_open cs = true ->
  _is_read_only statement = true -> (0 < ms)%Z ->
  Exists (fun t => (now w + inject_Z ms / 1000 <= t)%Q)
    (poll_times 1000 (vm_ops (vm_program E (c_file cs) statement)) 0 (now w)) ->
  (exists d w', safe_query E c statement ms w = (Ret d, w') /\
     d_status d = py "TimeOut" /\ d_success d = false /\
     d_results d = [] /\ d_error d = Some (py "interrupted")) /\
  (forall (deadline : option Q) (w0 : world C),
     _progress_handler (_progress_handler_generator deadline) w0 =
     (Ret (match deadline with
           | Some dl => if Qle_bool dl (now w0) then 1%Z else 0%Z
           | None => 0%Z
           end), w0)).
Proof.
  intros Hc Hopen Hro Hms Hpoll. split.
  - rewrite (safe_query_allowed E c statement ms w Hro). cbv zeta.
    apply Z.ltb_lt in Hms. rewrite Hms.
    unfold execute_fetchall at 1.
    unfold conn_of, with_handler at 1. cbn [conns].
    rewrite nth_error_update_nth, Nat.eqb_refl.
    unfold logged at 1. cbn [conns].
    unfold conn_of in Hc. rewrite Hc. cbn [option_map].
    rewrite Hopen. cbn [c_file].
    unfold bind at 1. cbn [log]. unfold bind at 1.
    match goal with
    | |- context [run_vm _ _ 0 ?ww] =>
        destruct (run_vm_interrupted 1000
                    (vm_ops (vm_program E (c_file cs) statement)) 0 ww Hpoll)
          as (w2 & Hrun & _)
    end.
    rewrite Hrun. cbn [raise].
    rewrite interrupted_is_timeout.
    eexists _, _. split; [reflexivity|].
    cbn [d_status d_success d_results d_error]. now repeat split.
  - intros deadline w0. apply progress_handler_run.
Qed.

(** The scan under a budget of 1.5 s: the check after 1 s lets it go on,
    the check after 2 s interrupts it. *)
Lemma safe_query_times_out_witness :
  (exists d w',
     safe_query (demo_env stubborn_oracle false) 0 (py "SELECT * FROM big")
       1500%Z one_conn = (Ret d, w') /\
     d_status d = py "TimeOut" /\ d_success d = false /\
     d_results d = [] /\ d_error d = Some (py "interrupted")).
Proof.
  apply (@safe_query_times_out value (demo_env stubborn_oracle false) 0
           fresh_conn (py "SELECT * FROM big") 1500%Z one_conn).
  - reflexivity.
  - reflexivity.
  - vm_compute. reflexivity.
  - lia.
  - vm_compute poll_times. apply Exists_cons_tl, Exists_cons_hd.
    vm_compute. discriminate.
Defined.

(** ** The agent loop: [BasicAgent.run] *)

Section AgentLoop.

Variable C : Type.
Variable E : env C.

Lemma same_static_refl (w : world C) : same_static w w.
Proof. reflexivity. Qed.

Lemma same_static_trans (w1 w2 w3 : world C) :
  same_static w1 w2 -> same_static w2 w3 -> same_static w1 w3.
Proof. unfold same_static. congruence. Qed.

Lemma map_static_update (c : nat) (f : conn_state -> conn_state)
    (l : list conn_state) :
  (forall cs, static (f cs) = static cs) ->
  map static (update_nth c f l) = map static l.
Proof.
  intros Hf. revert c. induction l as [|x l IH]; intros [|c]; simpl; auto.
  - now rewrite Hf.
  - now rewrite IH.
Qed.

Lemma safe_query_static (c : nat) (statement : str) (ms : Z) (w : world C) :
  exists d w', safe_query E c statement ms w = (Ret d, w') /\
    same_static w w' /\
    (trace w' = trace w ++ [EvSafeQuery c statement] \/
     trace w' = trace w ++ [EvSafeQuery c statement; EvExecute c statement]).
Proof.
  destruct (safe_query_effect E c statement ms w)
    as (d & w' & Hq & Hcs & Htr & _).
  exists d, w'. split; [exact Hq|]. split; [|exact Htr].
  unfold same_static. rewrite Hcs.
  destruct (_is_read_only statement); [|reflexivity].
  symmetry. now apply map_static_update.
Qed.

Lemma openai_chat_run (req : request C) (w : world C) :
  _openai_chat E req w =
  (oracle E (count_oracle (trace w)) req,
   {| now := now w; conns := conns w; trace := trace w ++ [EvOracle req] |}).
Proof. reflexivity. Qed.

Lemma count_events_app (f : event C -> bool) (a b : list (event C)) :
  count_events f (a ++ b) = count_events f a + count_events f b.
Proof. unfold count_events. now rewrite filter_app, length_app. Qed.

Lemma normalize_results_normalized (rs : list (row C)) :
  Forall (@normalized C) (_normalize_results rs).
Proof.
  unfold _normalize_results. apply Forall_forall. intros r Hin.
  apply in_map_iff in Hin. destruct Hin as (x & <- & _).
  now destruct x.
Qed.

(** The planning loop never closes a connection, whatever the oracle says,
    and every step it appends holds normalized rows. *)
Lemma plan_rounds_static (n : nat) question sch conn ms done (w : world C) :
  exists r w', plan_rounds E n question sch conn ms done w = (r, w') /\
    same_static w w' /\
    (Forall (@step_normalized C) done ->
     match r with
     | Ret (done', _) => Forall (@step_normalized C) done'
     | Raise _ => True
     end).
Proof.
  revert done w. induction n as [|n IH]; intros done w.
  - exists (Ret (done, None)), w.
    split; [reflexivity|]. split; [apply same_static_refl|auto].
  - cbn [plan_rounds]. unfold bind at 1. rewrite openai_chat_run.
    set (w1 := {| now := now w; conns := conns w;
                  trace := trace w ++ [EvOracle (PlannerRequest question sch done)] |}).
    assert (same_static w w1) as H1 by reflexivity.
    destruct (oracle E (count_oracle (trace w)) (PlannerRequest question sch done))
      as [[[p|]|]|e].
    + unfold bind at 1. cbn [_extract_json ret].
    unfold bind at 1. cbn [get_method ret].
      destruct (str_eqb _ (py "final")).
      { eexists _, w1. split; [reflexivity|]. split; [exact H1|auto]. }
      destruct (negb (str_eqb _ (py "query"))).
      { eexists _, w1. split; [reflexivity|]. split; [exact H1|auto]. }
      destruct (is_empty _).
      { eexists _, w1. split; [reflexivity|]. split; [exact H1|auto]. }
      unfold bind at 1.
      match goal with
      | |- context [safe_query E conn ?st ms w1] =>
          destruct (safe_query_static conn st ms w1) as (d & w2 & Hq & H2 & _);
          rewrite Hq
      end.
      match goal with
      | |- context [plan_rounds E n question sch conn ms ?dn w2] =>
          destruct (IH dn w2) as (r & w3 & Hr & H3 & Hn)
      end.
      exists r, w3. split; [exact Hr|]. split.
      * eapply same_static_trans; [exact H1|].
        eapply same_static_trans; [exact H2|exact H3].
      * intros Hdone. apply Hn. apply Forall_app. split; [exact Hdone|].
        constructor; [|constructor].
        unfold step_normalized. cbn [execution results].
        apply normalize_results_normalized.
    + eexists _, w1. split; [reflexivity|]. split; [exact H1|auto].
    + eexists _, w1. split; [reflexivity|]. split; [exact H1|auto].
    + eexists _, w1. split; [reflexivity|]. split; [exact H1|auto].
Qed.

Lemma run_body_static question sch conn ms max_steps (w : world C) :
  exists r w', run_body E question sch conn ms max_steps w = (r, w') /\
    same_static w w' /\
    match r with
    | Ret ar => Forall (@step_normalized C) (steps ar)
    | Raise _ => True
    end.
Proof.
  unfold run_body. unfold bind at 1.
  destruct (plan_rounds_static (Z.to_nat max_steps) question sch conn ms [] w)
    as (r & w1 & Hr & H1 & Hn).
  specialize (Hn (Forall_nil _)).
  rewrite Hr. destruct r as [[done [answer|]]|e].
  - eexists _, w1. split; [reflexivity|]. split; [exact H1|exact Hn].
  - unfold bind at 1. rewrite openai_chat_run.
    set (w2 := {| now := now w1; conns := conns w1;
                  trace := trace w1 ++ [EvOracle (FinalRequest question done)] |}).
    assert (same_static w w2) as H2 by exact H1.
    destruct (oracle E (count_oracle (trace w1)) (FinalRequest question done))
      as [[[p|]|]|e].
    + eexists _, w2. split; [reflexivity|]. split; [exact H2|exact Hn].
    + eexists _, w2. split; [reflexivity|]. split; [exact H2|exact I].
    + eexists _, w2. split; [reflexivity|]. split; [exact H2|exact I].
    + eexists _, w2. split; [reflexivity|]. split; [exact H2|exact I].
  - eexists _, w1. split; [reflexivity|]. split; [exact H1|exact I].
Qed.

(** Every step [run] returns holds normalized rows. *)
Lemma run_normalized question db_file ms max_steps (w w' : world C) ar :
  run E question db_file ms max_steps w = (Ret ar, w') ->
  Forall (@step_normalized C) (steps ar).
Proof.
  unfold run. unfold bind at 1.
  destruct (connect_to_db E db_file w) as [[[conn sch]|e] w1]; [|discriminate].
  unfold closing.
  destruct (run_body_static question sch conn ms max_steps w1)
    as (rb & wb & Hb & _ & Hn).
  rewrite Hb.
  destruct (conn_close E conn wb) as [[u|ce] w2].
  - intros H. injection H as -> _. exact Hn.
  - destruct rb as [a|e]; [discriminate|discriminate].
Qed.

Lemma connect_to_db_inv db_file (w w1 : world C) conn sch :
  connect_to_db E db_file w = (Ret (conn, sch), w1) ->
  exists f, db_file = Some f /\ conn = length (conns w) /\
    conns w1 = conns w ++ [fresh f] /\ trace w1 = trace w /\ now w1 = now w.
Proof.
  unfold connect_to_db, get_db_connection. intros H.
  destruct db_file as [f|]; [|discriminate].
  unfold bind at 1 in H.
  destruct (file_exists E f); [|discriminate].
  unfold bind at 1, get_database_schema, conn_of in H. cbn [conns] in H.
  rewrite nth_error_app2, Nat.sub_diag in H by lia. cbn in H.
  destruct (schema_result E f) as [sch'|e]; [|discriminate].
  injection H as <- <- <-. exists f. now repeat split.
Qed.

Lemma conn_close_run (c : nat) (w : world C) :
  conn_close E c w =
  (match close_error E c with Some e => Raise e | None => Ret tt end,
   after_close E c w).
Proof.
  unfold conn_close, after_close. unfold bind at 1. cbn [log].
  unfold bind at 1. unfold update_conn at 1. cbn [now conns trace].
  destruct (close_error E c) as [e|].
  - reflexivity.
  - unfold update_conn. cbn [now conns trace]. f_equal. f_equal.
    now rewrite update_nth_twice.
Qed.




End AgentLoop.






(** X20: outside the hypothesis of the two theorems above: when the file
    exists but fetching the schema fails, [connect_to_db] raises after the
    connection was made; [run] raises the same failure before its [try]
    is entered, and that connection is left open. *)
Lemma schema_failure_precedes_try (C : Type) (E : env C) (question f : str)
    (ms max_steps : Z) (w : world C) (e : exn) :
  file_exists E f = true -> schema_result E f = Raise e ->
  exists w',
    run E question (Some f) ms max_steps w = (Raise e, w') /\
    conn_of w' (length (conns w)) = Some (fresh f) /\
    trace w' = trace w.
Proof.
  intros Hf Hs. unfold run, connect_to_db, get_db_connection.
  rewrite Hf. unfold bind, get_database_schema, conn_of. cbn [conns].
  rewrite nth_error_app2, Nat.sub_diag by lia. cbn. rewrite Hs.
  eexists. split; [reflexivity|]. cbn.
  rewrite nth_error_app2, Nat.sub_diag by lia. now split.
Qed.

(** ** Canonical rows and comparison *)

Section Sorting.

Lemma code_inj (x y : ascii) : code x = code y -> x = y.
Proof.
  unfold code. intros H.
  rewrite <- (ascii_nat_embedding x), <- (ascii_nat_embedding y).
  now rewrite H.
Qed.

Lemma str_leb_total (a b : str) : str_leb a b = true \/ str_leb b a = true.
Proof.
  revert b. induction a as [|x a IH]; intros [|y b]; simpl; auto.
  destruct (code x <? code y) eqn:H1; [now left|].
  destruct (code y <? code x) eqn:H2; [now right|].
  apply IH.
Qed.

Lemma str_leb_antisym (a b : str) :
  str_leb a b = true -> str_leb b a = true -> a = b.
Proof.
  revert b. induction a as [|x a IH]; intros [|y b]; simpl; try easy.
  destruct (code x <? code y) eqn:H1.
  - apply Nat.ltb_lt in H1.
    destruct (code y <? code x) eqn:H2; [apply Nat.ltb_lt in H2; lia|easy].
  - destruct (code y <? code x) eqn:H2; [easy|].
    apply Nat.ltb_ge in H1. apply Nat.ltb_ge in H2.
    intros Ha Hb. f_equal; [apply code_inj; lia|now apply IH].
Qed.

Lemma str_leb_trans (a b c : str) :
  str_leb a b = true -> str_leb b c = true -> str_leb a c = true.
Proof.
  revert b c. induction a as [|x a IH]; intros [|y b] [|z c]; simpl; try easy.
  destruct (code x <? code y) eqn:H1.
  - apply Nat.ltb_lt in H1. intros _.
    destruct (code y <? code z) eqn:H2.
    + apply Nat.ltb_lt in H2. intros _.
      replace (code x <? code z) with true; [reflexivity|].
      symmetry. apply Nat.ltb_lt. lia.
    + destruct (code z <? code y) eqn:H3; [easy|].
      apply Nat.ltb_ge in H2. apply Nat.ltb_ge in H3. intros _.
      replace (code x <? code z) with true; [reflexivity|].
      symmetry. apply Nat.ltb_lt. lia.
  - destruct (code y <? code x) eqn:H2; [easy|].
    apply Nat.ltb_ge in H1. apply Nat.ltb_ge in H2.
    assert (code x = code y) as Exy by lia. rewrite Exy. intros Hab.
    destruct (code y <? code z); [easy|].
    destruct (code z <? code y); [easy|].
    now apply IH.
Qed.

Lemma insert_sorted_perm (x : str) (l : list str) :
  Permutation (insert_sorted x l) (x :: l).
Proof.
  induction l as [|y l IH]; simpl; [reflexivity|].
  destruct (str_leb x y); [reflexivity|].
  rewrite IH. apply perm_swap.
Qed.

Lemma sorted_perm (l : list str) : Permutation (sorted l) l.
Proof.
  induction l as [|x l IH]; simpl; [reflexivity|].
  rewrite insert_sorted_perm. now constructor.
Qed.

Lemma insert_sorted_ok (x : str) (l : list str) :
  StronglySorted str_le l -> StronglySorted str_le (insert_sorted x l).
Proof.
  induction 1 as [|y l Hs IH Hall]; simpl.
  - repeat constructor.
  - destruct (str_leb x y) eqn:Hxy.
    + constructor; [now constructor|].
      constructor; [exact Hxy|].
      eapply Forall_impl; [|exact Hall].
      intros z Hz. eapply str_leb_trans; eassumption.
    + constructor; [exact IH|].
      assert (str_le y x) as Hyx.
      { destruct (str_leb_total x y) as [H|H]; [congruence|exact H]. }
      eapply Permutation_Forall.
      * symmetry. apply insert_sorted_perm.
      * now constructor.
Qed.

Lemma sorted_ok (l : list str) : StronglySorted str_le (sorted l).
Proof.
  induction l as [|x l IH]; simpl; [constructor|now apply insert_sorted_ok].
Qed.

(** Two sorted lists with the same elements, counted, are the same list. *)
Lemma sorted_unique (l1 l2 : list str) :
  StronglySorted str_le l1 -> StronglySorted str_le l2 ->
  Permutation l1 l2 -> l1 = l2.
Proof.
  intros H1. revert l2. induction H1 as [|x l1 Hs1 IH Hall1]; intros l2 H2 Hp.
  - apply Permutation_nil in Hp. now subst.
  - destruct H2 as [|y l2 Hs2 Hall2].
    + symmetry in Hp. apply Permutation_nil in Hp. discriminate.
    + assert (x = y) as ->.
      { apply str_leb_antisym.
        - assert (In y (x :: l1)) as Hin
            by (eapply Permutation_in; [symmetry; exact Hp|now left]).
          destruct Hin as [->|Hin].
          + destruct (str_leb_total y y); assumption.
          + rewrite Forall_forall in Hall1. now apply Hall1.
        - assert (In x (y :: l2)) as Hin
            by (eapply Permutation_in; [exact Hp|now left]).
          destruct Hin as [->|Hin].
          + destruct (str_leb_total x x); assumption.
          + rewrite Forall_forall in Hall2. now apply Hall2. }
      f_equal. apply IH; [exact Hs2|].
      eapply Permutation_cons_inv. exact Hp.
Qed.

Lemma sorted_eq_iff_perm (l1 l2 : list str) :
  sorted l1 = sorted l2 <-> Permutation l1 l2.
Proof.
  split; intros H.
  - rewrite <- (sorted_perm l1), <- (sorted_perm l2). now rewrite H.
  - apply sorted_unique; try apply sorted_ok.
    now rewrite !sorted_perm.
Qed.

Lemma str_eqb_eq (a b : str) : str_eqb a b = true <-> a = b.
Proof.
  revert b. induction a as [|x a IH]; intros [|y b]; simpl; try easy.
  rewrite andb_true_iff, Ascii.eqb_eq, IH. split.
  - now intros [-> ->].
  - intros H. now injection H.
Qed.

Lemma list_str_eqb_eq (a b : list str) :
  list_eqb str_eqb a b = true <-> a = b.
Proof.
  revert b. induction a as [|x a IH]; intros [|y b]; simpl; try easy.
  rewrite andb_true_iff, str_eqb_eq, IH. split.
  - now intros [-> ->].
  - intros H. now injection H.
Qed.

End Sorting.

Lemma list_eqb_length {A} (eqb : A -> A -> bool) (a b : list A) :
  list_eqb eqb a b = true -> length a = length b.
Proof.
  revert b. induction a as [|x a IH]; intros [|y b]; simpl; try easy.
  intros H. apply andb_true_iff in H. f_equal. now apply IH.
Qed.

Lemma sorted_length (l : list str) : length (sorted l) = length l.
Proof. apply Permutation_length, sorted_perm. Qed.

(** Two single rows compare equal exactly when their renderings agree. *)
Lemma compare_results_single (C : Type) (cellC : Cell C) (x y : row C) :
  compare_results [x] [y] true = str_eqb (canon_row x) (canon_row y).
Proof.
  unfold compare_results, _canonicalize_rows. cbn. apply andb_true_r.
Qed.

(** C6: canonicalization yields, for every row list, the sorted arrangement
    of the per-row representations; order-insensitive comparison answers
    true on any two arrangements of the same rows, and in general exactly
    when the sorted sequences of representations are equal, that is when
    the representations agree as multisets; order-sensitive comparison of a
    row list with a different arrangement of it can answer false.  The
    representation of a row is that of a tuple: a list is rendered as the
    tuple of its cells, a bare scalar as the 1-tuple of it; the empty tuple
    is [()], a 1-tuple [(a,)], a longer one its cells separated by a comma
    and a space, between parentheses.  Rows are told apart: two 1-tuples or
    scalars whose cells are rendered differently never compare equal, nor
    do row lists of different lengths. *)
Theorem compare_results_order_independent :
  (forall (C : Type) (cellC : Cell C) (R : list (row C)),
     StronglySorted str_le (_canonicalize_rows R) /\
     Permutation (_canonicalize_rows R) (map (@canon_row C cellC) R)) /\
  (forall (C : Type) (cellC : Cell C) (R P : list (row C)),
     Permutation R P -> compare_results R P true = true) /\
  (forall (C : Type) (cellC : Cell C) (R P : list (row C)),
     compare_results R P true = true <->
     sorted (map (@canon_row C cellC) R) = sorted (map (@canon_row C cellC) P)) /\
  (forall (C : Type) (cellC : Cell C) (R P : list (row C)),
     compare_results R P true = true <->
     Permutation (map (@canon_row C cellC) R) (map (@canon_row C cellC) P)) /\
  (let R := [RTuple [VInt 1]; RTuple [VInt 2]] in
   let P := [RTuple [VInt 2]; RTuple [VInt 1]] in
   Permutation R P /\ compare_results R P true = true /\
   compare_results R P false = false) /\
  (forall (C : Type) (cellC : Cell C) (a b : C) (cells : list C),
     canon_row (RList cells) = canon_row (RTuple cells) /\
     canon_row (RScalar a) = canon_row (RTuple [a]) /\
     canon_row (RTuple (@nil C)) = py "()" /\
     canon_row (RTuple [a]) = py "(" ++ cell_repr a ++ py ",)" /\
     canon_row (RTuple [a; b]) =
       py "(" ++ cell_repr a ++ py ", " ++ cell_repr b ++ py ")" /\
     exists inner,
       canon_row (RTuple (a :: b :: cells)) = py "(" ++ inner ++ py ")" /\
       forall c : C,
         canon_row (RTuple (c :: a :: b :: cells)) =
         py "(" ++ cell_repr c ++ py ", " ++ inner ++ py ")") /\
  (forall (C : Type) (cellC : Cell C) (a b : C),
     cell_repr a <> cell_repr b ->
     compare_results [RTuple [a]] [RTuple [b]] true = false /\
     compare_results [RScalar a] [RScalar b] true = false /\
     compare_results [RList [a]] [RTuple [b]] true = false) /\
  (forall (C : Type) (cellC : Cell C) (R P : list (row C)),
     length R <> length P -> compare_results R P true = false) /\
  (canon_row (RTuple [VInt 1; VNone; VInt (-3)]) = py "(1, None, -3)" /\
   compare_results [RScalar (VInt 1)] [RTuple [VInt 1]] true = true /\
   compare_results [RTuple [VInt 1]] [RTuple [VInt 2]] true = false /\
   compare_results [RTuple [VInt 1; VInt 2]] [RTuple [VInt 12]] true = false).
Proof.
  split; [|split; [|split; [|split; [|split; [|split; [|split; [|split]]]]]]].
  - intros C cellC R. split; [apply sorted_ok|apply sorted_perm].
  - intros C cellC R P H. unfold compare_results, _canonicalize_rows.
    apply list_str_eqb_eq. apply sorted_eq_iff_perm.
    now apply Permutation_map.
  - intros C cellC R P. unfold compare_results, _canonicalize_rows.
    apply list_str_eqb_eq.
  - intros C cellC R P. unfold compare_results, _canonicalize_rows.
    rewrite list_str_eqb_eq. apply sorted_eq_iff_perm.
  - simpl. split; [apply perm_swap|]. split; reflexivity.
  - intros C cellC a b cells. repeat (split; [reflexivity|]).
    split.
    { cbn [canon_row repr_tuple map join]. now rewrite <- !app_assoc. }
    exists (join (py ", ") (map cell_repr (a :: b :: cells))).
    split; [reflexivity|]. intros c.
    cbn [canon_row repr_tuple map join]. now rewrite <- !app_assoc.
  - intros C cellC a b Hne.
    assert (str_eqb (py "(" ++ cell_repr a ++ py ",)")
                    (py "(" ++ cell_repr b ++ py ",)") = false) as Hf.
    { apply not_true_is_false. intros H. apply str_eqb_eq in H.
      apply app_inv_head, app_inv_tail in H. contradiction. }
    rewrite !compare_results_single. now repeat split.
  - intros C cellC R P Hlen. apply not_true_is_false. intros H. apply Hlen.
    unfold compare_results, _canonicalize_rows in H.
    apply list_eqb_length in H. now rewrite !sorted_length, !length_map in H.
  - vm_compute. now repeat split.
Qed.

(** ** The runner: one turn of [run_experiment] *)

Section Runner.

Variable C : Type.
Context {cellC : Cell C}.
Variable E : env C.

(** What a processed turn leaves in its record and in the counters. *)
Lemma process_turn_inv (oi : bool) (ms max_steps : Z) (t : turn)
    (acc acc' : metrics) (w w' : world C) (it : item C) :
  process_turn E oi ms max_steps t acc w = (Ret (it, acc'), w') ->
  exists ar w1,
    run E (t_text t) (t_db_file t) ms max_steps w = (Ret ar, w1) /\
    it_agent_result it = ar /\
    it_pred_execution it = option_map (@execution C) (last_step ar) /\
    if has_reference t then
      exists gold,
        it_gold_execution it = Some gold /\
        (d_success gold = true -> fetched (d_results gold)) /\
        (d_success gold = false -> d_results gold = []) /\
        it_results_match it =
          verdict_of (it_pred_execution it)
            (match last_step ar with
             | Some s => results (execution s)
             | None => []
             end) gold oi /\
        comparable_count acc' = S (comparable_count acc) /\
        match_count acc' = match_count acc + bonus (it_results_match it)
    else
      it_gold_execution it = None /\ it_results_match it = None /\
      comparable_count acc' = comparable_count acc /\
      match_count acc' = match_count acc.
Proof.
  unfold process_turn. unfold bind at 1.
  destruct (run E (t_text t) (t_db_file t) ms max_steps w) as [[ar|e] w1];
    [|discriminate].
  intros H. exists ar, w1. split; [reflexivity|].
  destruct (has_reference t).
  - unfold bind at 1 in H.
    destruct (get_db_connection E (t_db_file t) w1) as [[conn|e] w2];
      [|discriminate].
    unfold bind at 1, try_finally in H.
    destruct (safe_query_effect E conn (text_of (t_gold_sql t)) ms w2)
      as (gold & w3 & Hq & _ & _ & _ & Hfetch & Hfail).
    rewrite Hq, conn_close_run in H.
    destruct (close_error E conn); [discriminate|].
    cbn [ret] in H. injection H as <- <- _. cbn.
    split; [reflexivity|]. split; [reflexivity|].
    exists gold.
    destruct (option_map (@execution C) (last_step ar)) as [pe|];
      [destruct (elapsed_ms pe)|]; cbn; repeat split; assumption || reflexivity.
  - cbn [ret] in H. injection H as <- <- _. cbn.
    destruct (option_map (@execution C) (last_step ar)) as [pe|];
      [destruct (elapsed_ms pe)|]; cbn; repeat split; reflexivity.
Qed.

Lemma last_step_none (ar : AgentResult C) :
  last_step ar = None <-> steps ar = [].
Proof.
  unfold last_step. destruct (steps ar) as [|s l]; [tauto|].
  split; [|discriminate]. intros H. exfalso.
  revert s H. induction l as [|s' l IH]; intros s H; [discriminate|].
  exact (IH s' H).
Qed.

Lemma last_step_in (ar : AgentResult C) (s : QueryStep C) :
  last_step ar = Some s -> In s (steps ar).
Proof.
  unfold last_step. induction (steps ar) as [|x l IH]; [discriminate|].
  destruct l as [|y l]; simpl in *.
  - intros H. injection H as ->. now left.
  - intros H. right. now apply IH.
Qed.

(** A logged row list never equals a non-empty fetched one: its rows are
    lists or scalars, the fetched ones tuples. *)
Lemma normalized_never_equals_fetched (pred gold : list (row C)) :
  Forall (@normalized C) pred -> fetched gold -> gold <> [] ->
  list_eqb (@row_eqb C cellC) pred gold = false.
Proof.
  intros Hn (rs & ->) Hne.
  destruct rs as [|r rs]; [now elim Hne|].
  destruct pred as [|p pred]; [reflexivity|].
  simpl. inversion Hn as [|? ? Hp _]; subst.
  destruct p; [contradiction|reflexivity|reflexivity].
Qed.

End Runner.

(** C5 as stated does not hold for a transcript without steps: the
    reference exists and the predicted side reports no success, yet the
    verdict is left at None instead of false. *)
Lemma no_step_turn_has_no_verdict :
  ~ (forall (E : env value) (oi : bool) (ms max_steps : Z) (t : turn)
            (acc acc' : metrics) (w w' : world value) (it : item value),
       process_turn E oi ms max_steps t acc w = (Ret (it, acc'), w') ->
       has_reference t = true ->
       ~ (option_map (@success value) (it_pred_execution it) = Some true /\
          option_map (@d_success value) (it_gold_execution it) = Some true) ->
       it_results_match it = Some false).
Proof.
  intros H.
  assert (exists it acc' w',
            process_turn (demo_env hasty_oracle false) true 1000 4 count_turn
              metrics0 empty_world = (Ret (it, acc'), w') /\
            it_pred_execution it = None /\ it_results_match it = None)
    as (it & acc' & w' & Hp & Hpred & Hm).
  { eexists _, _, _. split; [lazy; reflexivity|]. split; reflexivity. }
  specialize (H _ _ _ _ _ _ _ _ _ _ Hp eq_refl).
  rewrite Hm, Hpred in H.
  assert (@None bool = Some false) as Habs; [|discriminate].
  apply H. intros [Hs _]. discriminate.
Qed.

(** C5 (amended): for every turn the runner processes: without a reference
    SQL the verdict is None and the turn adds nothing to the comparable
    total; with a reference SQL the turn counts in the comparable total, and
    the verdict is the comparison of the rows when the transcript has a step
    and both executions report success, false when it has a step and either
    execution is unsuccessful, and None when the transcript has no step; a
    turn adds to the match total exactly when its verdict is true, and
    accuracy is matches / comparable, undefined when comparable is zero. *)
Theorem turn_verdict (C : Type) (cellC : Cell C) (E : env C) (oi : bool)
    (ms max_steps : Z) (t : turn) (acc acc' : metrics) (w w' : world C)
    (it : item C) :
  process_turn E oi ms max_steps t acc w = (Ret (it, acc'), w') ->
  (has_reference t = false ->
     it_results_match it = None /\
     comparable_count acc' = comparable_count acc /\
     match_count acc' = match_count acc) /\
  (has_reference t = true ->
     comparable_count acc' = S (comparable_count acc) /\
     match_count acc' = match_count acc + bonus (it_results_match it) /\
     exists gold, it_gold_execution it = Some gold /\
       match it_pred_execution it with
       | None =>
           steps (it_agent_result it) = [] /\ it_results_match it = None
       | Some pe =>
           steps (it_agent_result it) <> [] /\
           it_results_match it =
             if success pe && d_success gold
             then Some (compare_results (results pe) (d_results gold) oi)
             else Some false
       end) /\
  accuracy acc' =
    match comparable_count acc' with
    | 0 => None
    | S _ => Some (inject_Z (Z.of_nat (match_count acc')) /
                   inject_Z (Z.of_nat (comparable_count acc')))%Q
    end.
Proof.
  intros H.
  destruct (process_turn_inv E oi ms max_steps t acc w H)
    as (ar & w1 & _ & Har & Hpred & Hrest).
  split; [|split; [|reflexivity]].
  - intros Href. rewrite Href in Hrest.
    destruct Hrest as (_ & Hm & Hc & Hk). now repeat split.
  - intros Href. rewrite Href in Hrest.
    destruct Hrest as (gold & Hg & _ & _ & Hm & Hc & Hk).
    split; [exact Hc|]. split; [exact Hk|].
    exists gold. split; [exact Hg|].
    rewrite Hm, Hpred, Har.
    destruct (last_step ar) as [s|] eqn:Hlast; cbn.
    + split; [|reflexivity].
      intros Hnil. apply last_step_none in Hnil. congruence.
    + split; [now apply last_step_none|reflexivity].
Qed.

(** The scenario: the oracle runs the reference query and then answers;
    the verdict is true and the turn counts as a match. *)
Lemma turn_verdict_witness :
  exists it acc' w',
    process_turn (demo_env scripted_oracle false) true 1000 4 count_turn
      metrics0 empty_world = (Ret (it, acc'), w') /\
    it_results_match it = Some true /\
    ((has_reference count_turn = false ->
        it_results_match it = None /\
        comparable_count acc' = comparable_count metrics0 /\
        match_count acc' = match_count metrics0) /\
     (has_reference count_turn = true ->
        comparable_count acc' = S (comparable_count metrics0) /\
        match_count acc' = match_count metrics0 + bonus (it_results_match it) /\
        exists gold, it_gold_execution it = Some gold /\
          match it_pred_execution it with
          | None =>
              steps (it_agent_result it) = [] /\ it_results_match it = None
          | Some pe =>
              steps (it_agent_result it) <> [] /\
              it_results_match it =
                if success pe && d_success gold
                then Some (compare_results (results pe) (d_results gold) true)
                else Some false
          end) /\
     accuracy acc' =
       match comparable_count acc' with
       | 0 => None
       | S _ => Some (inject_Z (Z.of_nat (match_count acc')) /
                      inject_Z (Z.of_nat (comparable_count acc')))%Q
       end).
Proof.
  eexists _, _, _. split; [lazy; reflexivity|].
  split; [reflexivity|].
  eapply (@turn_verdict value value_cell (demo_env scripted_oracle false) true
            1000 4 count_turn metrics0 _ empty_world).
  lazy. reflexivity.
Defined.

(** C7 as stated does not hold for a transcript without steps: the
    reference yields a row, but the verdict is None, not false. *)
Lemma no_step_turn_is_not_false :
  ~ (forall (E : env value) (ms max_steps : Z) (t : turn)
            (acc acc' : metrics) (w w' : world value) (it : item value)
            (gold : exec_dict value),
       process_turn E false ms max_steps t acc w = (Ret (it, acc'), w') ->
       it_gold_execution it = Some gold -> d_results gold <> [] ->
       it_results_match it = Some false).
Proof.
  intros H.
  assert (exists it acc' w' gold,
            process_turn (demo_env hasty_oracle false) false 1000 4 count_turn
              metrics0 empty_world = (Ret (it, acc'), w') /\
            it_gold_execution it = Some gold /\
            d_results gold = [RTuple [VInt 5]] /\
            it_results_match it = None)
    as (it & acc' & w' & gold & Hp & Hg & Hrows & Hm).
  { eexists _, _, _, _. split; [lazy; reflexivity|].
    split; [reflexivity|]. split; reflexivity. }
  assert (@None bool = Some false) as Habs; [|discriminate].
  rewrite <- Hm. apply (H _ _ _ _ _ _ _ _ _ _ Hp Hg).
  rewrite Hrows. discriminate.
Qed.

(** C7 (amended): under order-sensitive comparison, for every turn whose
    reference execution yields at least one row, the verdict is never true:
    it is false whenever the transcript has a step - the predicted rows are
    lists, the reference rows are tuples, and a list never equals a tuple -
    and None when the transcript has no step; such a turn adds nothing to
    the match total. *)
Theorem order_sensitive_never_matches (C : Type) (cellC : Cell C) (E : env C)
    (ms max_steps : Z) (t : turn) (acc acc' : metrics) (w w' : world C)
    (it : item C) (gold : exec_dict C) :
  process_turn E false ms max_steps t acc w = (Ret (it, acc'), w') ->
  it_gold_execution it = Some gold -> d_results gold <> [] ->
  it_results_match it <> Some true /\
  (steps (it_agent_result it) <> [] -> it_results_match it = Some false) /\
  (steps (it_agent_result it) = [] -> it_results_match it = None) /\
  match_count acc' = match_count acc /\
  (forall (rs : list (row C)) (r : row C),
     In r (_normalize_results rs) -> forall cells, r <> RTuple cells) /\
  (forall a b : list C, row_eqb (RList a) (RTuple b) = false).
Proof.
  intros H Hg Hrows.
  destruct (process_turn_inv E false ms max_steps t acc w H)
    as (ar & w1 & Hrun & Har & Hpred & Hrest).
  destruct (has_reference t).
  2:{ destruct Hrest as (Hnone & _). congruence. }
  destruct Hrest as (gold' & Hg' & Hfetch & Hfail & Hm & _ & Hk).
  assert (gold' = gold) as -> by congruence.
  assert (d_success gold = true) as Hs.
  { destruct (d_success gold); [reflexivity|]. now elim Hrows; apply Hfail. }
  assert (it_results_match it =
          match last_step ar with Some _ => Some false | None => None end)
    as Hv.
  { rewrite Hm, Hpred. destruct (last_step ar) as [s|] eqn:Hlast; cbn;
      [|reflexivity].
    rewrite Hs, andb_true_r. destruct (success (execution s)); [|reflexivity].
    unfold compare_results. f_equal.
    apply normalized_never_equals_fetched; [|now apply Hfetch|exact Hrows].
    pose proof (run_normalized E _ _ _ _ _ Hrun) as Hn.
    rewrite Forall_forall in Hn. apply Hn. now apply last_step_in. }
  rewrite Har.
  split; [|split; [|split; [|split; [|split]]]].
  - rewrite Hv. destruct (last_step ar); discriminate.
  - intros Hne. rewrite Hv. destruct (last_step ar) eqn:Hl; [reflexivity|].
    apply last_step_none in Hl. contradiction.
  - intros Hnil. apply last_step_none in Hnil. now rewrite Hv, Hnil.
  - rewrite Hk, Hv. destruct (last_step ar); cbn; lia.
  - intros rs r Hin cells ->.
    pose proof (normalize_results_normalized rs) as Hn.
    rewrite Forall_forall in Hn. exact (Hn _ Hin).
  - reflexivity.
Qed.

(** The scenario, compared order-sensitively: prediction and reference are
    the same query with the same single row, and the verdict is false. *)
Lemma order_sensitive_never_matches_witness :
  exists it acc' w',
    process_turn (demo_env scripted_oracle false) false 1000 4 count_turn
      metrics0 empty_world = (Ret (it, acc'), w') /\
    option_map (@d_results value) (it_gold_execution it)
      = Some [RTuple [VInt 5]] /\
    option_map (fun s => results (execution s)) (last_step (it_agent_result it))
      = Some [RList [VInt 5]] /\
    (it_results_match it <> Some true /\
     (steps (it_agent_result it) <> [] -> it_results_match it = Some false) /\
     (steps (it_agent_result it) = [] -> it_results_match it = None) /\
     match_count acc' = match_count metrics0 /\
     (forall (rs : list (row value)) (r : row value),
        In r (_normalize_results rs) -> forall cells, r <> RTuple cells) /\
     (forall a b : list value, row_eqb (RList a) (RTuple b) = false)).
Proof.
  eexists _, _, _. split; [lazy; reflexivity|].
  split; [|split]; cycle 2.
  - eapply (@order_sensitive_never_matches value value_cell
              (demo_env scripted_oracle false) 1000 4 count_turn metrics0 _
              empty_world).
    + lazy. reflexivity.
    + reflexivity.
    + cbn. discriminate.
  - reflexivity.
  - reflexivity.
Defined.

(** ** The guard on statements without comments and literals *)

Section MarkerFree.

Lemma contains_suffix (u pre s : str) :
  contains u (pre ++ s) = false -> is_prefix u s = false.
Proof.
  induction pre as [|c pre IH]; simpl.
  - destruct s; simpl; intros H; apply orb_false_iff in H; tauto.
  - intros H. apply orb_false_iff in H. now apply IH.
Qed.

(** A pattern that matches nowhere leaves the text as it is. *)
Lemma sub_go_no_match (r : re) (repl s : str) (p : option ascii) :
  (forall pre s' p', s = pre ++ s' -> m r p' s' accept = None) ->
  sub_go r repl p s 0 = s.
Proof.
  revert p. induction s as [|c s IH]; intros p H; simpl.
  - now rewrite (H [] [] p eq_refl).
  - rewrite (H [] (c :: s) p eq_refl). f_equal. apply IH.
    intros pre s' p' ->. apply (H (c :: pre) s' p'). reflexivity.
Qed.

Lemma is_prefix_app (u rest : str) : is_prefix u (u ++ rest) = true.
Proof.
  induction u as [|c u IH]; simpl; [reflexivity|].
  now rewrite Ascii.eqb_refl.
Qed.

(** A pattern that starts with a literal matches only where the literal is. *)
Lemma literal_head_needed (u : str) (r : re) (p : option ascii) (s : str) :
  is_prefix u s = false -> m (Seq (lit_list u) r) p s accept = None.
Proof.
  intros Hp. destruct (m (Seq (lit_list u) r) p s accept) as [x|] eqn:Hm;
    [|reflexivity].
  apply m_sound in Hm. destruct Hm as (w & s' & -> & Hw & _).
  cbn [matches] in Hw. destruct Hw as (w1 & w2 & -> & H1 & _).
  apply matches_lit_list in H1. subst w1.
  rewrite <- !app_assoc, is_prefix_app in Hp. discriminate.
Qed.

Lemma sub_needs_literal (u : str) (r : re) (repl s : str) :
  contains u s = false -> re_sub (Seq (lit_list u) r) repl s = s.
Proof.
  intros H. apply sub_go_no_match. intros pre s' p' ->.
  apply literal_head_needed. eapply contains_suffix. exact H.
Qed.

End MarkerFree.

(** X1: a statement that holds no quote, no [/*] and no [--] comes out of
    [_strip_comments_and_literals] unchanged. *)
Theorem sanitize_marker_free (statement : str) :
  marker_free statement ->
  _strip_comments_and_literals statement = statement.
Proof.
  intros (Hb & Hl & Hq). unfold _strip_comments_and_literals.
  unfold block_comment_re, line_comment_re, literal_re, lit.
  rewrite (sub_needs_literal (py "/*") _ _ statement Hb).
  rewrite (sub_needs_literal (py "--") _ _ statement Hl).
  change (chr "'") with (lit_list (py "'")) at 1.
  now rewrite (sub_needs_literal (py "'") _ _ statement Hq).
Qed.

Lemma sanitize_marker_free_witness :
  _strip_comments_and_literals (py "SELECT a - b / c * 2 FROM t")
  = py "SELECT a - b / c * 2 FROM t".
Proof.
  apply sanitize_marker_free. repeat split.
Defined.

Section StripKeepsWords.

Lemma is_space_lower (c : ascii) : is_space (lower_char c) = is_space c.
Proof. destruct c as [[] [] [] [] [] [] [] []]; reflexivity. Qed.

Lemma lstrip_lower (s : str) :
  lstrip_by is_space (lower s) = lower (lstrip_by is_space s).
Proof.
  induction s as [|c s IH]; simpl; [reflexivity|].
  rewrite is_space_lower. now destruct (is_space c).
Qed.

Lemma strip_lower (s : str) : strip (lower s) = lower (strip s).
Proof.
  unfold strip, strip_by, rstrip_by, lower.
  fold (lower s). rewrite lstrip_lower. unfold lower.
  rewrite <- map_rev. fold (lower (rev (lstrip_by is_space s))).
  rewrite lstrip_lower. unfold lower. now rewrite map_rev.
Qed.

(** Stripping from the left stops at the latest before a character that is
    not stripped. *)
Lemma lstrip_before (f : ascii -> bool) (a : str) (c : ascii) (b : str) :
  f c = false ->
  exists a1 a2, a = a1 ++ a2 /\ lstrip_by f (a ++ c :: b) = a2 ++ c :: b.
Proof.
  intros Hc. induction a as [|x a IH]; simpl.
  - exists [], []. rewrite Hc. now split.
  - destruct (f x).
    + destruct IH as (a1 & a2 & -> & H). exists (x :: a1), a2. now split.
    + exists [], (x :: a). now split.
Qed.

Lemma last_of_suffix (a1 a2 : str) :
  word_at (last_of None (a1 ++ a2)) = false ->
  word_at (last_of None a2) = false.
Proof.
  rewrite last_of_app. unfold last_of at 1 3.
  destruct (rev a2); [reflexivity|auto].
Qed.

Lemma hd_prefix (a1 a2 : str) :
  word_at (hd_error (a1 ++ a2)) = false -> word_at (hd_error a1) = false.
Proof. destruct a1; [reflexivity|auto]. Qed.

(** Stripping characters that are not word characters keeps every
    whole-word occurrence of a text that starts and ends with one. *)
Lemma whole_word_strip (f : ascii -> bool) (w t : str) :
  (forall c, f c = true -> is_word c = false) ->
  wordy w = true -> whole_word w t -> whole_word w (strip_by f t).
Proof.
  intros Hf Hw (pre & post & -> & Hpre & Hpost).
  destruct (wordy_inv w Hw) as (c & w' & c' & Ew & Hc & Hc' & Hl).
  assert (forall x, is_word x = true -> f x = false) as Hnf.
  { intros x Hx. destruct (f x) eqn:Hfx; [|reflexivity].
    apply Hf in Hfx. congruence. }
  unfold strip_by, rstrip_by.
  assert (exists c2 r2, rev w = c2 :: r2 /\ is_word c2 = true)
    as (c2 & r2 & Erev & Hc2).
  { specialize (Hl None). unfold last_of in Hl.
    destruct (rev w) as [|c2 r2]; [discriminate|].
    injection Hl as ->. now exists c', r2. }
  subst w.
  destruct (@lstrip_before f pre c (w' ++ post) (Hnf c Hc))
    as (a1 & a2 & -> & Hl1).
  replace ((a1 ++ a2) ++ (c :: w') ++ post)
    with ((a1 ++ a2) ++ c :: w' ++ post) by now rewrite <- app_comm_cons.
  rewrite Hl1.
  replace (rev (a2 ++ c :: w' ++ post))
    with (rev post ++ c2 :: r2 ++ rev a2).
  2:{ change (c :: w' ++ post) with ((c :: w') ++ post).
      rewrite !rev_app_distr, Erev. now rewrite <- !app_assoc. }
  destruct (@lstrip_before f (rev post) c2 (r2 ++ rev a2) (Hnf c2 Hc2))
    as (b1 & b2 & Eb & Hl2).
  rewrite Hl2.
  exists a2, (rev b2). split.
  - change (c2 :: r2 ++ rev a2) with ((c2 :: r2) ++ rev a2).
    rewrite <- Erev, !rev_app_distr, !rev_involutive. now rewrite <- app_assoc.
  - split; [eapply last_of_suffix; exact Hpre|].
    assert (post = rev b2 ++ rev b1) as ->.
    { rewrite <- (rev_involutive post), Eb. apply rev_app_distr. }
    eapply hd_prefix. exact Hpost.
Qed.

Lemma semicolon_not_word (c : ascii) :
  mem_char (py ";") c = true -> is_word c = false.
Proof.
  unfold mem_char. simpl. rewrite orb_false_r. intros H.
  apply Ascii.eqb_eq in H. now subst.
Qed.

Lemma space_not_word (c : ascii) : is_space c = true -> is_word c = false.
Proof.
  destruct c as [[] [] [] [] [] [] [] []]; intros H; vm_compute in H |- *;
    congruence.
Qed.

End StripKeepsWords.

(** X2: a statement without quotes and comment markers that holds a
    prohibited term as a whole word, in any letter case, is rejected. *)
Theorem bare_keyword_rejected (statement w : str) :
  marker_free statement -> In w prohibited_words ->
  whole_word w (lower statement) ->
  _is_read_only statement = false.
Proof.
  intros Hfree Hin Hw.
  destruct (_is_read_only statement) eqn:Hro; [|reflexivity].
  unfold _is_read_only in Hro. rewrite (sanitize_marker_free Hfree) in Hro.
  apply classify_true_iff in Hro. destruct Hro as [_ Hno].
  exfalso. apply (Hno w Hin). unfold cleaned_of.
  pose proof prohibited_wordy as Hall. rewrite forallb_forall in Hall.
  apply whole_word_strip; [exact semicolon_not_word|now apply Hall|].
  rewrite <- strip_lower.
  apply whole_word_strip; [exact space_not_word|now apply Hall|exact Hw].
Qed.

Lemma bare_keyword_rejected_witness :
  _is_read_only (py "select 1; Drop Table t") = false.
Proof.
  apply (@bare_keyword_rejected (py "select 1; Drop Table t") (py "drop")).
  - repeat split.
  - simpl. tauto.
  - exists (py "select 1; "), (py " table t"). repeat split.
Defined.

(** ** [safe_query]: the paths without interruption *)

Section SafeQueryPaths.

Variable C : Type.
Variable E : env C.

Lemma run_vm_quiet (handler : progress_handler) (n : nat) ops k (w : world C) :
  match ph_deadline handler with
  | None => True
  | Some d => Forall (fun t' => (t' < d)%Q) (poll_times n ops k (now w))
  end ->
  run_vm (Some (handler, n)) ops k w =
  (Ret false, {| now := vm_end ops (now w); conns := conns w;
                 trace := trace w |}).
Proof.
  revert k w. induction ops as [|dt ops IH]; intros k w H.
  - destruct w; reflexivity.
  - rewrite run_vm_cons. cbn [poll_times] in H.
    destruct (S k =? n).
    + assert (answer_of handler (tick dt w) = 0%Z) as ->.
      { unfold answer_of. destruct (ph_deadline handler) as [d|]; [|reflexivity].
        inversion H as [|? ? Hlt _]; subst. cbn [tick now].
        destruct (Qle_bool d (now w + dt)) eqn:Hle; [|reflexivity].
        apply Qle_bool_iff in Hle. exfalso.
        apply (Qlt_not_le _ _ Hlt Hle). }
      cbn [Z.eqb]. rewrite IH; [reflexivity|].
      destruct (ph_deadline handler); [|exact I].
      now inversion H.
    + rewrite IH; [reflexivity|exact H].
Qed.

Lemma run_vm_true_inv h ops k (w w' : world C) :
  run_vm h ops k w = (Ret true, w') ->
  exists handler n d, h = Some (handler, n) /\
    ph_deadline handler = Some d /\ (d <= now w')%Q.
Proof.
  revert k w. induction ops as [|dt ops IH]; intros k w H.
  - discriminate.
  - rewrite run_vm_cons in H. destruct h as [[handler n]|].
    + destruct (S k =? n).
      * destruct (answer_of handler (tick dt w) =? 0)%Z eqn:Ha.
        -- exact (IH _ _ H).
        -- injection H as <-. exists handler, n.
           unfold answer_of in Ha.
           destruct (ph_deadline handler) as [d|]; [|discriminate].
           exists d. repeat split.
           destruct (Qle_bool d (now (tick dt w))) eqn:Hle; [|discriminate].
           now apply Qle_bool_iff.
      * exact (IH _ _ H).
    + exact (IH _ _ H).
Qed.

Lemma execute_fetchall_open (c : nat) (cs : conn_state) (statement : str)
    (w : world C) :
  conn_of w c = Some cs -> c_open cs = true ->
  execute_fetchall E c statement w =
  match run_vm (c_handler cs) (vm_ops (vm_program E (c_file cs) statement)) 0
          (logged (EvExecute c statement) w) with
  | (Ret true, w1) => (Raise (SqliteError (py "interrupted")), w1)
  | (Ret false, w1) =>
      (match vm_result (vm_program E (c_file cs) statement) with
       | Rows rs => Ret (map (@RTuple C) rs)
       | Fails msg => Raise (SqliteError msg)
       end, w1)
  | (Raise e, w1) => (Raise e, w1)
  end.
Proof.
  intros Hc Hopen. unfold execute_fetchall. rewrite Hc.
  destruct cs as [file h op k]. cbn in Hopen. subst op. cbn [c_file c_handler].
  unfold bind at 1. cbn [log]. fold (logged (EvExecute c statement) w).
  unfold bind at 1.
  destruct (run_vm h _ 0 _) as [[[|]|e] w1]; try reflexivity.
  destruct (vm_result _); reflexivity.
Qed.

Lemma execute_fetchall_closed (c : nat) (statement : str) (w : world C) :
  (forall cs, conn_of w c = Some cs -> c_open cs = false) ->
  execute_fetchall E c statement w =
  (Raise (SqliteError (py "Cannot operate on a closed database.")), w).
Proof.
  intros H. unfold execute_fetchall.
  destruct (conn_of w c) as [[file h [|] k]|]; [|reflexivity|reflexivity].
  specialize (H _ eq_refl). discriminate.
Qed.

Lemma conn_of_installed (c : nat) (cs : conn_state)
    (h : option (progress_handler * nat)) (ev : event C) (w : world C) :
  conn_of w c = Some cs ->
  conn_of (with_handler c h (logged ev w)) c =
  Some {| c_file := c_file cs; c_handler := h; c_open := c_open cs;
          c_close_calls := c_close_calls cs |}.
Proof.
  unfold conn_of, with_handler, logged. cbn [conns]. intros H.
  now rewrite nth_error_update_nth, Nat.eqb_refl, H.
Qed.

(** The outcome of a guarded query that no deadline check interrupts: what
    the backend yields, with the time of the whole evaluation. *)
Lemma safe_query_uninterrupted (c : nat) (cs : conn_state) (statement : str)
    (ms : Z) (w : world C) :
  conn_of w c = Some cs -> c_open cs = true ->
  _is_read_only statement = true ->
  quiet (deadline_of (now w) ms) 1000
    (vm_ops (vm_program E (c_file cs) statement)) (now w) ->
  exists w',
    safe_query E c statement ms w =
    (Ret match vm_result (vm_program E (c_file cs) statement) with
         | Rows rs =>
             {| d_success := true; d_status := py "success";
                d_elapsed_ms := seconds_to_ms (now w' - now w);
                d_results := map (@RTuple C) rs; d_error := None |}
         | Fails msg =>
             {| d_success := false;
                d_status := if contains (py "interrupted") (lower msg)
                            then py "TimeOut" else py "ExecFailed";
                d_elapsed_ms := seconds_to_ms (now w' - now w);
                d_results := []; d_error := Some msg |}
         end, w') /\
    now w' = vm_end (vm_ops (vm_program E (c_file cs) statement)) (now w) /\
    trace w' = trace w ++ [EvSafeQuery c statement; EvExecute c statement] /\
    installed w' c = None.
Proof.
  intros Hc Hopen Hro Hq.
  rewrite (safe_query_allowed E c statement ms w Hro). cbv zeta.
  fold (deadline_of (now w) ms).
  set (h := Some ({| ph_deadline := deadline_of (now w) ms |}, 1000)).
  pose proof (conn_of_installed c h (EvSafeQuery c statement) w Hc) as Hc1.
  rewrite (execute_fetchall_open c statement _ Hc1 Hopen).
  cbn [c_file c_handler]. unfold h.
  rewrite run_vm_quiet by exact Hq.
  eexists (with_handler c None
             {| now := vm_end (vm_ops (vm_program E (c_file cs) statement)) (now w);
                conns := _; trace := _ |}).
  split.
  - destruct (vm_result _); reflexivity.
  - cbn [now trace with_handler logged]. split; [reflexivity|].
    split; [now rewrite <- app_assoc|].
    unfold installed, conn_of, with_handler, logged. cbn [conns].
    rewrite update_nth_twice, nth_error_update_nth, Nat.eqb_refl.
    unfold conn_of in Hc. now rewrite Hc.
Qed.

End SafeQueryPaths.

(** X3: with a budget [msx_ms <= 0] no deadline is set: an allowed
    statement on an open connection is never interrupted, however long the
    evaluation takes; the outcome is the backend's own - all rows with status
    "success", or its failure - the elapsed time is that of the whole
    evaluation, and no handler is left on the connection. *)
Theorem unlimited_budget_never_interrupts (C : Type) (E : env C) (c : nat)
    (cs : conn_state) (statement : str) (ms : Z) (w : world C) :
  conn_of w c = Some cs -> c_open cs = true ->
  _is_read_only statement = true -> (ms <= 0)%Z ->
  exists d w',
    safe_query E c statement ms w = (Ret d, w') /\
    d_elapsed_ms d =
      seconds_to_ms
        (vm_end (vm_ops (vm_program E (c_file cs) statement)) (now w) - now w) /\
    installed w' c = None /\
    match vm_result (vm_program E (c_file cs) statement) with
    | Rows rs =>
        d_success d = true /\ d_status d = py "success" /\
        d_results d = map (@RTuple C) rs /\ d_error d = None
    | Fails msg =>
        d_success d = false /\ d_results d = [] /\ d_error d = Some msg
    end.
Proof.
  intros Hc Hopen Hro Hms.
  destruct (safe_query_uninterrupted E c statement ms w Hc Hopen Hro)
    as (w' & Hq & Hnow & _ & Hinst).
  { unfold quiet, deadline_of.
    replace (0 <? ms)%Z with false; [exact I|].
    symmetry. apply Z.ltb_ge. exact Hms. }
  eexists _, w'. split; [exact Hq|]. rewrite <- Hnow.
  destruct (vm_result _); cbn; now repeat split.
Qed.

(** A scan of 2.5 s without a budget. *)
Lemma unlimited_budget_never_interrupts_witness :
  exists d w',
    safe_query (demo_env stubborn_oracle false) 0 (py "SELECT * FROM big") 0
      one_conn = (Ret d, w') /\
    d_elapsed_ms d =
      seconds_to_ms
        (vm_end (vm_ops (vm_program (demo_env stubborn_oracle false)
                           (c_file fresh_conn) (py "SELECT * FROM big")))
           (now one_conn) - now one_conn) /\
    installed w' 0 = None /\
    match vm_result (vm_program (demo_env stubborn_oracle false)
                       (c_file fresh_conn) (py "SELECT * FROM big")) with
    | Rows rs =>
        d_success d = true /\ d_status d = py "success" /\
        d_results d = map (@RTuple value) rs /\ d_error d = None
    | Fails msg =>
        d_success d = false /\ d_results d = [] /\ d_error d = Some msg
    end.
Proof.
  apply (@unlimited_budget_never_interrupts value
           (demo_env stubborn_oracle false) 0 fresh_conn
           (py "SELECT * FROM big") 0 one_conn).
  - reflexivity.
  - reflexivity.
  - vm_compute. reflexivity.
  - lia.
Defined.





(** X6: [safe_query] reports "TimeOut" only for an allowed statement on
    an open connection, with success false and no rows, and only in two
    cases: a positive budget was set and the deadline check interrupted the
    statement, the error being "interrupted"; or the backend's own failure
    message, which is the error, holds "interrupted". *)
Theorem timeout_status_sound (C : Type) (E : env C) (c : nat)
    (statement : str) (ms : Z) (w w' : world C) (d : exec_dict C) :
  safe_query E c statement ms w = (Ret d, w') ->
  d_status d = py "TimeOut" ->
  exists cs,
    conn_of w c = Some cs /\ c_open cs = true /\
    _is_read_only statement = true /\
    d_success d = false /\ d_results d = [] /\
    (((0 < ms)%Z /\ d_error d = Some (py "interrupted")) \/
     (exists msg,
        vm_result (vm_program E (c_file cs) statement) = Fails msg /\
        contains (py "interrupted") (lower msg) = true /\
        d_error d = Some msg)).
Proof.
  intros Hq Hst.
  destruct (_is_read_only statement) eqn:Hro.
  2:{ rewrite (safe_query_rejected E c statement ms w Hro) in Hq.
      injection Hq as <- _. discriminate. }
  rewrite (safe_query_allowed E c statement ms w Hro) in Hq. cbv zeta in Hq.
  fold (deadline_of (now w) ms) in Hq.
  set (h := Some ({| ph_deadline := deadline_of (now w) ms |}, 1000)) in Hq.
  destruct (conn_of w c) as [cs|] eqn:Hc.
  - destruct (c_open cs) eqn:Hopen.
    + pose proof (conn_of_installed c h (EvSafeQuery c statement) w Hc) as Hc1.
      rewrite (execute_fetchall_open E c statement _ Hc1 Hopen) in Hq.
      cbn [c_file c_handler] in Hq.
      exists cs. split; [reflexivity|]. split; [exact Hopen|].
      split; [reflexivity|].
      destruct (run_vm h _ 0 _) as [[[|]|e] w2] eqn:Hrun.
      * apply run_vm_true_inv in Hrun.
        destruct Hrun as (handler & n & dl & Hh & Hdl & _).
        unfold h in Hh. injection Hh as <- _. cbn in Hdl.
        unfold deadline_of in Hdl.
        destruct (0 <? ms)%Z eqn:Hms; [|discriminate].
        injection Hq as <- _. cbn.
        split; [reflexivity|]. split; [reflexivity|]. left.
        split; [now apply Z.ltb_lt|reflexivity].
      * destruct (vm_result _) as [rs|msg] eqn:Hres.
        -- injection Hq as <- _. discriminate.
        -- injection Hq as <- _. cbn in Hst. cbn.
           split; [reflexivity|]. split; [reflexivity|].
           right. exists msg. split; [reflexivity|].
           split; [|reflexivity].
           destruct (contains _ _); [reflexivity|discriminate].
      * exfalso.
        match type of Hrun with
        | run_vm ?hh ?ops 0 ?ww = _ =>
            destruct (run_vm_frame hh ops 0 ww) as (b & w3 & Hf & _)
        end.
        congruence.
    + rewrite execute_fetchall_closed in Hq.
      * injection Hq as <- _. discriminate.
      * intros cs' Hcs'.
        rewrite (conn_of_installed c h (EvSafeQuery c statement) w Hc) in Hcs'.
        injection Hcs' as <-. exact Hopen.
  - rewrite execute_fetchall_closed in Hq.
    + injection Hq as <- _. discriminate.
    + intros cs' Hcs'. exfalso.
      unfold conn_of, with_handler, logged in Hcs'. cbn [conns] in Hcs'.
      rewrite nth_error_update_nth, Nat.eqb_refl in Hcs'.
      unfold conn_of in Hc. rewrite Hc in Hcs'. discriminate.
Qed.

(** The interrupted scan of the demo database. *)
Lemma timeout_status_sound_witness :
  exists d w',
    safe_query (demo_env stubborn_oracle false) 0 (py "SELECT * FROM big")
      1500 one_conn = (Ret d, w') /\
    d_status d = py "TimeOut" /\
    exists cs,
      conn_of one_conn 0 = Some cs /\ c_open cs = true /\
      _is_read_only (py "SELECT * FROM big") = true /\
      d_success d = false /\ d_results d = [] /\
      (((0 < 1500)%Z /\ d_error d = Some (py "interrupted")) \/
       (exists msg,
          vm_result (vm_program (demo_env stubborn_oracle false) (c_file cs)
                       (py "SELECT * FROM big")) = Fails msg /\
          contains (py "interrupted") (lower msg) = true /\
          d_error d = Some msg)).
Proof.
  eexists _, _. split; [vm_compute; reflexivity|]. split; [reflexivity|].
  eapply (@timeout_status_sound value (demo_env stubborn_oracle false) 0
            (py "SELECT * FROM big") 1500 one_conn).
  - vm_compute. reflexivity.
  - reflexivity.
Defined.

(** ** The agent loop under any oracle *)

Section AnyOracle.

Variable C : Type.
Variable E : env C.

Lemma executed_statements_app (a b : list (event C)) :
  executed_statements (a ++ b) = executed_statements a ++ executed_statements b.
Proof.
  induction a as [|ev a IH]; [reflexivity|].
  destruct ev; simpl; now rewrite IH.
Qed.

Lemma guarded_app (a b : list (event C)) :
  guarded (a ++ b) <-> guarded a /\ guarded b.
Proof. unfold guarded. rewrite executed_statements_app. apply Forall_app. Qed.

(** The dict and the log of one guarded query. *)
Lemma safe_query_inv (c : nat) (statement : str) (ms : Z) (w : world C) :
  exists d w' added,
    safe_query E c statement ms w = (Ret d, w') /\
    trace w' = trace w ++ EvSafeQuery c statement :: added /\
    (added = [] \/
     (added = [EvExecute c statement] /\ _is_read_only statement = true)) /\
    dict_ok statement d.
Proof.
  destruct (_is_read_only statement) eqn:Hro.
  - rewrite (safe_query_allowed E c statement ms w Hro). cbv zeta.
    match goal with
    | |- context [execute_fetchall E c statement ?ww] =>
        destruct (execute_fetchall_effect E c statement ww)
          as (r & w2 & Hex & _ & Htr & Hr); rewrite Hex
    end.
    cbn [trace with_handler logged] in Htr.
    assert (exists added,
              trace w2 = trace w ++ EvSafeQuery c statement :: added /\
              (added = [] \/ added = [EvExecute c statement]))
      as (added & Htrace & Hadded).
    { destruct Htr as [Htr|Htr]; rewrite Htr.
      - exists []. split; [reflexivity|now left].
      - exists [EvExecute c statement]. rewrite <- app_assoc.
        split; [reflexivity|now right]. }
    assert (added = [] \/ (added = [EvExecute c statement] /\ true = true))
      as Hadded' by (destruct Hadded; [now left|right; now split]).
    destruct r as [rows|e].
    + eexists _, _, added. split; [reflexivity|]. split; [exact Htrace|].
      split; [exact Hadded'|]. split; cbn; [now repeat split|discriminate].
    + destruct e; try contradiction.
      eexists _, _, added. split; [reflexivity|]. split; [exact Htrace|].
      split; [exact Hadded'|]. split; cbn; [discriminate|].
      intros _. split; [reflexivity|discriminate].
  - rewrite (safe_query_rejected E c statement ms w Hro).
    eexists _, _, []. split; [reflexivity|]. split; [reflexivity|].
    split; [now left|]. split; cbn; [discriminate|].
    intros _. split; [reflexivity|discriminate].
Qed.

Lemma guarded_safe_query (c : nat) (statement : str) (added : list (event C)) :
  added = [] \/
  (added = [EvExecute c statement] /\ _is_read_only statement = true) ->
  guarded (EvSafeQuery c statement :: added) /\
  count_events (@is_safe_query C) (EvSafeQuery c statement :: added) = 1 /\
  count_events (@is_planner_request C) (EvSafeQuery c statement :: added) = 0 /\
  count_events (@is_final_request C) (EvSafeQuery c statement :: added) = 0.
Proof.
  intros [->|[-> H]]; unfold guarded; cbn; repeat split; auto.
Qed.

(** The planning loop, whatever the oracle answers. *)
Lemma plan_rounds_inv (n : nat) question sch conn ms done (w : world C) :
  exists r w' added,
    plan_rounds E n question sch conn ms done w = (r, w') /\
    trace w' = trace w ++ added /\ guarded added /\
    count_events (@is_planner_request C) added <= n /\
    count_events (@is_final_request C) added = 0 /\
    match r with
    | Ret (done', fa) =>
        exists new, done' = done ++ new /\ length new <= n /\
          count_events (@is_safe_query C) added = length new /\
          Forall (@step_ok C) new /\
          (fa = None -> length new = n)
    | Raise e => oracle_failure E e
    end.
Proof.
  revert done w. induction n as [|n IH]; intros done w.
  - exists (Ret (done, None)), w, []. rewrite !app_nil_r.
    split; [reflexivity|]. split; [reflexivity|]. split; [constructor|].
    split; [reflexivity|]. split; [reflexivity|].
    exists []. rewrite app_nil_r. now repeat split.
  - cbn [plan_rounds]. unfold bind at 1. rewrite openai_chat_run.
    set (req := PlannerRequest question sch done).
    set (w1 := {| now := now w; conns := conns w;
                  trace := trace w ++ [EvOracle req] |}).
    assert (forall fa : str,
      exists added,
        trace w1 = trace w ++ added /\ guarded added /\
        count_events (@is_planner_request C) added <= S n /\
        count_events (@is_final_request C) added = 0 /\
        exists new, done = done ++ new /\ length new <= S n /\
          count_events (@is_safe_query C) added = length new /\
          Forall (@step_ok C) new /\ (Some fa = None -> length new = S n))
      as Hstop.
    { intros fa. exists [EvOracle req]. split; [reflexivity|].
      split; [constructor|]. split; [cbn; lia|]. split; [reflexivity|].
      exists []. rewrite app_nil_r. repeat split; try (cbn; lia); [constructor|].
      discriminate. }
    destruct (oracle E (count_oracle (trace w)) req) as [[[p|type_name]|]|e] eqn:Horc.
    + unfold bind at 1. cbn [_extract_json ret].
    unfold bind at 1. cbn [get_method ret].
      destruct (str_eqb _ (py "final")).
      { destruct (Hstop (strip (payload_get p (py "final_answer") [])))
          as (added & H). eexists _, w1, added. split; [reflexivity|exact H]. }
      destruct (negb (str_eqb _ (py "query"))).
      { destruct (Hstop (py "Agent returned an invalid action."))
          as (added & H). eexists _, w1, added. split; [reflexivity|exact H]. }
      destruct (strip (payload_get p (py "sql") [])) as [|ch st] eqn:Hsql.
      { destruct (Hstop (py "Agent did not provide SQL to execute."))
          as (added & H). eexists _, w1, added. split; [reflexivity|exact H]. }
      cbn [is_empty]. unfold bind at 1.
      destruct (safe_query_inv conn (ch :: st) ms w1)
        as (d & w2 & sq & Hq & Htr2 & Hsq & Hd).
      rewrite Hq.
      destruct (guarded_safe_query Hsq)
        as (Hg & Hc1 & Hc2 & Hc3).
      match goal with
      | |- context [plan_rounds E n question sch conn ms (done ++ [?step]) w2] =>
          set (st1 := step);
          destruct (IH (done ++ [st1]) w2)
            as (r & w3 & added & Hr & Htr3 & Hg3 & Hp3 & Hf3 & Hres)
      end.
      exists r, w3,
        ([EvOracle req] ++ (EvSafeQuery conn (ch :: st) :: sq) ++ added).
      split; [exact Hr|]. split.
      { rewrite Htr3, Htr2. cbn [trace w1]. now rewrite <- !app_assoc. }
      split.
      { apply guarded_app. split; [constructor|].
        apply guarded_app. now split. }
      rewrite !count_events_app, Hc2, Hc3, Hf3, Hc1.
      split; [cbn; lia|]. split; [reflexivity|].
      destruct r as [[done' fa]|e]; [|exact Hres].
      destruct Hres as (new & -> & Hlen & Hcnt & Hok & Hnone).
      exists (st1 :: new). split; [now rewrite <- app_assoc|].
      split; [cbn; lia|]. split; [cbn; lia|]. split.
      * constructor; [|exact Hok].
        destruct Hd as [Hd1 Hd2].
        unfold step_ok, st1. cbn.
        split; [reflexivity|]. split; [discriminate|].
        split; [discriminate|].
        split; [apply normalize_results_normalized|].
        split; [exact Hd1|].
        intros Hs. destruct (Hd2 Hs) as [-> He]. now split.
      * intros Hfa. cbn. now rewrite (Hnone Hfa).
    + eexists _, w1, [EvOracle req]. split; [reflexivity|].
      split; [reflexivity|]. split; [constructor|]. split; [cbn; lia|].
      split; [reflexivity|]. right. right.
      now exists (count_oracle (trace w)), req, type_name.
    + eexists _, w1, [EvOracle req]. split; [reflexivity|].
      split; [reflexivity|]. split; [constructor|]. split; [cbn; lia|].
      split; [reflexivity|]. right. now left.
    + eexists _, w1, [EvOracle req]. split; [reflexivity|].
      split; [reflexivity|]. split; [constructor|]. split; [cbn; lia|].
      split; [reflexivity|]. left. now exists (count_oracle (trace w)), req.
Qed.


Lemma run_body_inv question sch conn ms max_steps (w : world C) :
  exists r w' added,
    run_body E question sch conn ms max_steps w = (r, w') /\
    trace w' = trace w ++ added /\ guarded added /\
    count_events (@is_planner_request C) added <= Z.to_nat max_steps /\
    count_events (@is_final_request C) added <= 1 /\
    match r with
    | Ret ar =>
        length (steps ar) <= Z.to_nat max_steps /\
        count_events (@is_safe_query C) added = length (steps ar) /\
        Forall (@step_ok C) (steps ar)
    | Raise e => oracle_failure E e
    end.
Proof.
  unfold run_body. unfold bind at 1.
  destruct (plan_rounds_inv (Z.to_nat max_steps) question sch conn ms [] w)
    as (r & w1 & added & Hr & Htr & Hg & Hp & Hf & Hres).
  rewrite Hr. destruct r as [[done fa]|e].
  - destruct Hres as (new & Hdone & Hlen & Hcnt & Hok & _).
    cbn [app] in Hdone. subst new.
    destruct fa as [answer|].
    + eexists _, w1, added. split; [reflexivity|]. split; [exact Htr|].
      split; [exact Hg|]. split; [exact Hp|]. split; [lia|].
      cbn [steps]. now repeat split.
    + unfold bind at 1. rewrite openai_chat_run.
      set (req := FinalRequest question done).
      assert (guarded (added ++ [EvOracle req])) as Hg2.
      { apply guarded_app. split; [exact Hg|constructor]. }
      assert (count_events (@is_planner_request C) (added ++ [EvOracle req])
              <= Z.to_nat max_steps) as Hp2.
      { rewrite count_events_app. cbn. lia. }
      assert (count_events (@is_final_request C) (added ++ [EvOracle req])
              <= 1) as Hf2.
      { rewrite count_events_app, Hf. cbn. lia. }
      assert (count_events (@is_safe_query C) (added ++ [EvOracle req])
              = length done) as Hs2.
      { rewrite count_events_app, Hcnt. cbn. lia. }
      destruct (oracle E (count_oracle (trace w1)) req) as [[[p|type_name]|]|e] eqn:Horc.
      * eexists _, _, (added ++ [EvOracle req]). split; [reflexivity|].
        cbn [trace]. rewrite Htr, <- app_assoc. split; [reflexivity|].
        split; [exact Hg2|]. split; [exact Hp2|]. split; [exact Hf2|].
        cbn [steps]. now repeat split.
      * eexists _, _, (added ++ [EvOracle req]). split; [reflexivity|].
        cbn [trace]. rewrite Htr, <- app_assoc. split; [reflexivity|].
        split; [exact Hg2|]. split; [exact Hp2|]. split; [exact Hf2|].
        right. right.
        now exists (count_oracle (trace w1)), req, type_name.
      * eexists _, _, (added ++ [EvOracle req]). split; [reflexivity|].
        cbn [trace]. rewrite Htr, <- app_assoc. split; [reflexivity|].
        split; [exact Hg2|]. split; [exact Hp2|]. split; [exact Hf2|].
        right. now left.
      * eexists _, _, (added ++ [EvOracle req]). split; [reflexivity|].
        cbn [trace]. rewrite Htr, <- app_assoc. split; [reflexivity|].
        split; [exact Hg2|]. split; [exact Hp2|]. split; [exact Hf2|].
        left. now exists (count_oracle (trace w1)), req.
  - eexists _, w1, added. split; [reflexivity|]. split; [exact Htr|].
    split; [exact Hg|]. split; [exact Hp|]. split; [lia|exact Hres].
Qed.

(** [connect_to_db] writes nothing to the log. *)
Lemma connect_to_db_trace db_file (w : world C) :
  exists r w1, connect_to_db E db_file w = (r, w1) /\ trace w1 = trace w.
Proof.
  unfold connect_to_db, get_db_connection.
  destruct db_file as [f|]; [|eexists _, _; split; reflexivity].
  unfold bind at 1. destruct (file_exists E f).
  - unfold bind at 1, get_database_schema.
    destruct (conn_of _ _) as [cs|]; [|eexists _, _; split; reflexivity].
    destruct (schema_result E (c_file cs)); eexists _, _; split; reflexivity.
  - eexists _, _; split; reflexivity.
Qed.

(** One run of the agent, whatever the oracle and the database do. *)
Lemma run_inv question db_file ms max_steps (w : world C) :
  exists r w' added,
    run E question db_file ms max_steps w = (r, w') /\
    trace w' = trace w ++ added /\ guarded added /\
    count_events (@is_planner_request C) added <= Z.to_nat max_steps /\
    count_events (@is_final_request C) added <= 1 /\
    match r with
    | Ret ar =>
        length (steps ar) <= Z.to_nat max_steps /\
        count_events (@is_safe_query C) added = length (steps ar) /\
        Forall (@step_ok C) (steps ar)
    | Raise e =>
        (exists w1, connect_to_db E db_file w = (Raise e, w1)) \/
        oracle_failure E e \/
        (exists conn, close_error E conn = Some e)
    end.
Proof.
  unfold run. unfold bind at 1.
  destruct (connect_to_db_trace db_file w) as (rc & w1 & Hc & Ht1).
  rewrite Hc. destruct rc as [[conn sch]|e].
  - unfold closing.
    destruct (run_body_inv question sch conn ms max_steps w1)
      as (rb & wb & added & Hb & Htr & Hg & Hp & Hf & Hres).
    rewrite Hb, conn_close_run.
    assert (guarded (added ++ [EvClose conn])) as Hg2.
    { apply guarded_app. split; [exact Hg|constructor]. }
    assert (trace (after_close E conn wb) = trace w ++ added ++ [EvClose conn])
      as Htr2.
    { unfold after_close. cbn [trace]. now rewrite Htr, Ht1, <- app_assoc. }
    assert (count_events (@is_planner_request C) (added ++ [EvClose conn])
            <= Z.to_nat max_steps) as Hp2.
    { rewrite count_events_app. cbn. lia. }
    assert (count_events (@is_final_request C) (added ++ [EvClose conn]) <= 1)
      as Hf2.
    { rewrite count_events_app. cbn. lia. }
    assert (count_events (@is_safe_query C) (added ++ [EvClose conn])
            = count_events (@is_safe_query C) added) as Hs2.
    { rewrite count_events_app. cbn. lia. }
    destruct (close_error E conn) as [ce|] eqn:Hce.
    + destruct rb as [ar|e].
      * eexists _, _, _. split; [reflexivity|]. split; [exact Htr2|].
        split; [exact Hg2|]. split; [exact Hp2|]. split; [exact Hf2|].
        right. right. now exists conn.
      * eexists _, _, _. split; [reflexivity|]. split; [exact Htr2|].
        split; [exact Hg2|]. split; [exact Hp2|]. split; [exact Hf2|].
        right. now left.
    + eexists _, _, _. split; [reflexivity|]. split; [exact Htr2|].
      split; [exact Hg2|]. split; [exact Hp2|]. split; [exact Hf2|].
      destruct rb as [ar|e]; [|right; now left].
      rewrite Hs2. exact Hres.
  - exists (Raise e), w1, []. split; [reflexivity|].
    rewrite app_nil_r. split; [exact Ht1|]. split; [constructor|].
    split; [cbn; lia|]. split; [cbn; lia|]. left. now exists w1.
Qed.

End AnyOracle.

(** X7: whatever the oracle answers, a transcript [run] returns has at most
    [max_steps] steps (none when [max_steps] is not positive); the run made
    at most that many planner calls, at most one summarization call, and
    exactly one guarded query per step. *)
Theorem transcript_within_round_bound (C : Type) (E : env C) (question : str)
    (db_file : option str) (ms max_steps : Z) (w w' : world C)
    (ar : AgentResult C) :
  run E question db_file ms max_steps w = (Ret ar, w') ->
  exists added,
    trace w' = trace w ++ added /\
    length (steps ar) <= Z.to_nat max_steps /\
    count_events (@is_planner_request C) added <= Z.to_nat max_steps /\
    count_events (@is_final_request C) added <= 1 /\
    count_events (@is_safe_query C) added = length (steps ar).
Proof.
  intros H.
  destruct (run_inv E question db_file ms max_steps w)
    as (r & w2 & added & Hr & Htr & _ & Hp & Hf & Hres).
  rewrite H in Hr. injection Hr as <- <-.
  exists added. destruct Hres as (Hlen & Hcnt & _). now repeat split.
Qed.

(** The scenario: one query, then the answer. *)
Lemma transcript_within_round_bound_witness :
  exists ar w' added,
    run (demo_env scripted_oracle false) (py "how many?") (Some students_db)
      1000 4 empty_world = (Ret ar, w') /\
    trace w' = trace empty_world ++ added /\
    length (steps ar) <= Z.to_nat 4 /\
    count_events (@is_planner_request value) added <= Z.to_nat 4 /\
    count_events (@is_final_request value) added <= 1 /\
    count_events (@is_safe_query value) added = length (steps ar).
Proof.
  eexists _, _. 
  assert (X := @transcript_within_round_bound value
                 (demo_env scripted_oracle false) (py "how many?")
                 (Some students_db) 1000 4 empty_world).
  edestruct X as (added & H); [lazy; reflexivity|].
  exists added. split; [lazy; reflexivity|exact H].
Defined.

(** X8: whatever the oracle answers, every step of a transcript [run]
    returns was executed, carries non-empty SQL and an elapsed time, holds
    only normalized rows, reports success only with the status "success", no
    error and SQL that passes the guard, and reports a failure with no rows
    and an error message. *)
Theorem transcript_steps_well_formed (C : Type) (E : env C) (question : str)
    (db_file : option str) (ms max_steps : Z) (w w' : world C)
    (ar : AgentResult C) :
  run E question db_file ms max_steps w = (Ret ar, w') ->
  Forall (@step_ok C) (steps ar).
Proof.
  intros H.
  destruct (run_inv E question db_file ms max_steps w)
    as (r & w2 & added & Hr & _ & _ & _ & _ & Hres).
  rewrite H in Hr. injection Hr as <- <-. now destruct Hres as (_ & _ & Hok).
Qed.

Lemma transcript_steps_well_formed_witness :
  exists ar w',
    run (demo_env stubborn_oracle false) (py "how many?") (Some students_db)
      1000 2 empty_world = (Ret ar, w') /\
    length (steps ar) = 2 /\
    Forall (@step_ok value) (steps ar).
Proof.
  eexists _, _. split; [lazy; reflexivity|]. split; [reflexivity|].
  eapply (@transcript_steps_well_formed value (demo_env stubborn_oracle false)
            (py "how many?") (Some students_db) 1000 2 empty_world).
  lazy. reflexivity.
Defined.

(** X9: an exception that [run] raises is the failure of opening the
    database, a failure of the oracle - its transport, a reply that is not
    JSON ([ValueError]), or a reply that is JSON but no object
    ([AttributeError] at the first [.get]) - or the failure of closing the
    connection; a query that [safe_query] rejects, that fails with an
    sqlite3 error or that is interrupted never makes [run] raise. *)
Theorem run_raises_only_infrastructure (C : Type) (E : env C) (question : str)
    (db_file : option str) (ms max_steps : Z) (w w' : world C) (e : exn) :
  run E question db_file ms max_steps w = (Raise e, w') ->
  (exists w1, connect_to_db E db_file w = (Raise e, w1)) \/
  (exists i req, oracle E i req = Raise e) \/
  e = ValueError (py "Model did not return valid JSON") \/
  (exists i req type_name,
     oracle E i req = Ret (Some (JOther type_name)) /\
     e = AttributeError
           (py "'" ++ type_name ++ py "' object has no attribute 'get'")) \/
  (exists conn, close_error E conn = Some e).
Proof.
  intros H.
  destruct (run_inv E question db_file ms max_steps w)
    as (r & w2 & added & Hr & _ & _ & _ & _ & Hres).
  rewrite H in Hr. injection Hr as <- <-.
  unfold oracle_failure in Hres. tauto.
Qed.

(** A reply that is the JSON array [[1, 2]]. *)
Lemma run_raises_only_infrastructure_witness :
  exists w' e,
    run array_env (py "how many?") (Some students_db) 1000 4 empty_world
      = (Raise e, w') /\
    e = AttributeError (py "'list' object has no attribute 'get'") /\
    ((exists w1, connect_to_db array_env (Some students_db) empty_world
                 = (Raise e, w1)) \/
     (exists i req, oracle array_env i req = Raise e) \/
     e = ValueError (py "Model did not return valid JSON") \/
     (exists i req type_name,
        oracle array_env i req = Ret (Some (JOther type_name)) /\
        e = AttributeError
              (py "'" ++ type_name ++ py "' object has no attribute 'get'")) \/
     (exists conn, close_error array_env conn = Some e)).
Proof.
  eexists _, _. split; [lazy; reflexivity|]. split; [reflexivity|].
  eapply (@run_raises_only_infrastructure value array_env (py "how many?")
            (Some students_db) 1000 4 empty_world).
  lazy. reflexivity.
Defined.

(** ** The agent loop: stopping early, and no rounds at all *)

(** X10: when the first reply of the oracle is a "final" action, an action
    other than "query", or a "query" without SQL, [run] stops there: it
    returns no step and the answer of that reply (or the fixed diagnostic),
    having made one oracle call, no summarization call and no query. *)
Theorem run_stops_on_first_reply (C : Type) (E : env C) (question : str)
    (db_file : option str) (ms max_steps : Z) (w w1 : world C) (conn : nat)
    (sch : schema) (p : payload) (answer : str) :
  connect_to_db E db_file w = (Ret (conn, sch), w1) ->
  close_error E conn = None -> (0 < max_steps)%Z ->
  oracle E (count_oracle (trace w)) (PlannerRequest question sch [])
    = Ret (Some (JObject p)) ->
  early_answer p = Some answer ->
  exists w',
    run E question db_file ms max_steps w
      = (Ret {| steps := []; final_answer := answer |}, w') /\
    trace w' = trace w ++ [EvOracle (PlannerRequest question sch []);
                           EvClose conn].
Proof.
  intros Hopen Hclose Hmax Horc Hearly.
  destruct (connect_to_db_inv E db_file w Hopen) as (f & -> & _ & _ & Htr1 & _).
  unfold run. unfold bind at 1. rewrite Hopen. unfold closing, run_body.
  destruct (Z.to_nat max_steps) as [|n] eqn:Hn; [lia|].
  unfold bind at 1. cbn [plan_rounds]. unfold bind at 1.
  rewrite openai_chat_run, Htr1, Horc. unfold bind at 1.
  cbn [_extract_json ret]. unfold bind at 1. cbn [get_method ret].
  unfold early_answer in Hearly.
  destruct (str_eqb _ (py "final")).
  - injection Hearly as <-. cbn [ret]. rewrite conn_close_run, Hclose.
    eexists. split; [reflexivity|]. unfold after_close. cbn [trace].
    now rewrite <- app_assoc.
  - destruct (negb (str_eqb _ (py "query"))).
    + injection Hearly as <-. cbn [ret]. rewrite conn_close_run, Hclose.
      eexists. split; [reflexivity|]. unfold after_close. cbn [trace].
      now rewrite <- app_assoc.
    + destruct (is_empty _); [|discriminate].
      injection Hearly as <-. cbn [ret]. rewrite conn_close_run, Hclose.
      eexists. split; [reflexivity|]. unfold after_close. cbn [trace].
      now rewrite <- app_assoc.
Qed.

(** The oracle that answers at once. *)
Lemma run_stops_on_first_reply_witness :
  exists w',
    run (demo_env hasty_oracle false) (py "how many?") (Some students_db)
      1000 4 empty_world
      = (Ret {| steps := []; final_answer := py "5" |}, w') /\
    trace w' = trace empty_world ++
      [EvOracle (PlannerRequest (py "how many?")
                   [(py "students", [py "id"; py "name"])] []);
       EvClose 0].
Proof.
  apply (@run_stops_on_first_reply value (demo_env hasty_oracle false)
           (py "how many?") (Some students_db) 1000 4 empty_world one_conn 0
           [(py "students", [py "id"; py "name"])] (final_payload "5")).
  - reflexivity.
  - reflexivity.
  - lia.
  - reflexivity.
  - reflexivity.
Defined.

(** X11: with [max_steps <= 0] the planning loop does not run: [run] makes
    no planner call and no query; it makes the one summarization call, over
    an empty transcript, and returns its answer with no step. *)
Theorem run_without_rounds (C : Type) (E : env C) (question : str)
    (db_file : option str) (ms max_steps : Z) (w w1 : world C) (conn : nat)
    (sch : schema) (p : payload) :
  connect_to_db E db_file w = (Ret (conn, sch), w1) ->
  close_error E conn = None -> (max_steps <= 0)%Z ->
  oracle E (count_oracle (trace w)) (FinalRequest question []) = Ret (Some (JObject p)) ->
  exists w',
    run E question db_file ms max_steps w
      = (Ret {| steps := [];
                final_answer := strip (payload_get p (py "final_answer") []) |},
         w') /\
    trace w' = trace w ++ [EvOracle (FinalRequest question []); EvClose conn].
Proof.
  intros Hopen Hclose Hmax Horc.
  destruct (connect_to_db_inv E db_file w Hopen) as (f & -> & _ & _ & Htr1 & _).
  unfold run. unfold bind at 1. rewrite Hopen. unfold closing, run_body.
  replace (Z.to_nat max_steps) with 0 by lia.
  unfold bind at 1. cbn [plan_rounds ret]. unfold bind at 1.
  rewrite openai_chat_run, Htr1, Horc. unfold bind at 1.
  cbn [_extract_json ret]. unfold bind at 1. cbn [get_method ret].
  rewrite conn_close_run, Hclose.
  eexists. split; [reflexivity|]. unfold after_close. cbn [trace].
  now rewrite <- app_assoc.
Qed.

Lemma run_without_rounds_witness :
  exists w',
    run (demo_env hasty_oracle false) (py "how many?") (Some students_db)
      1000 0 empty_world
      = (Ret {| steps := [];
                final_answer :=
                  strip (payload_get (final_payload "5")
                           (py "final_answer") []) |}, w') /\
    trace w' = trace empty_world ++
      [EvOracle (FinalRequest (py "how many?") []); EvClose 0].
Proof.
  apply (@run_without_rounds value (demo_env hasty_oracle false)
           (py "how many?") (Some students_db) 1000 0 empty_world one_conn 0
           [(py "students", [py "id"; py "name"])] (final_payload "5")).
  - reflexivity.
  - reflexivity.
  - lia.
  - reflexivity.
Defined.

(** A file that opens but is not a database. *)
Lemma schema_failure_precedes_try_witness :
  exists w',
    run unreadable_env (py "how many?") (Some students_db) 1000 4 empty_world
      = (Raise (SqliteError (py "file is not a database")), w') /\
    conn_of w' (length (conns empty_world)) = Some (fresh students_db) /\
    trace w' = trace empty_world.
Proof.
  apply (@schema_failure_precedes_try value unreadable_env (py "how many?")
           students_db 1000 4 empty_world
           (SqliteError (py "file is not a database"))).
  - reflexivity.
  - reflexivity.
Defined.

(** ** The runner over all turns *)

Section RunnerAll.

Variable C : Type.
Context {cellC : Cell C}.
Variable E : env C.

Lemma get_db_connection_trace db_file (w : world C) :
  exists r w1, get_db_connection E db_file w = (r, w1) /\ trace w1 = trace w.
Proof.
  unfold get_db_connection. destruct db_file as [f|].
  - destruct (file_exists E f); eexists _, _; split; reflexivity.
  - eexists _, _; split; reflexivity.
Qed.

(** One turn, whatever happens in it: only guarded statements are sent to
    the backend. *)
Lemma process_turn_grows (oi : bool) (ms max_steps : Z) (t : turn)
    (acc : metrics) (w : world C) :
  exists r w' added,
    process_turn E oi ms max_steps t acc w = (r, w') /\
    trace w' = trace w ++ added /\ guarded added.
Proof.
  unfold process_turn. unfold bind at 1.
  destruct (run_inv E (t_text t) (t_db_file t) ms max_steps w)
    as (r & w1 & added & Hr & Htr & Hg & _).
  rewrite Hr. destruct r as [ar|e].
  2:{ exists (Raise e), w1, added. now repeat split. }
  destruct (has_reference t).
  2:{ eexists _, w1, added. split; [reflexivity|now split]. }
  unfold bind at 1.
  destruct (get_db_connection_trace (t_db_file t) w1) as (rc & w2 & Hc & Ht2).
  rewrite Hc. destruct rc as [conn|e].
  2:{ exists (Raise e), w2, added. split; [reflexivity|].
      split; [congruence|exact Hg]. }
  unfold bind at 1, try_finally.
  destruct (safe_query_inv E conn (text_of (t_gold_sql t)) ms w2)
    as (d & w3 & sq & Hq & Htr3 & Hsq & _).
  rewrite Hq, conn_close_run.
  destruct (guarded_safe_query Hsq) as (Hg3 & _).
  assert (trace (after_close E conn w3) =
          trace w ++ added ++
            (EvSafeQuery conn (text_of (t_gold_sql t)) :: sq) ++ [EvClose conn])
    as Htr4.
  { unfold after_close. cbn [trace].
    rewrite Htr3, Ht2, Htr. now rewrite <- !app_assoc. }
  assert (guarded (added ++
            (EvSafeQuery conn (text_of (t_gold_sql t)) :: sq) ++ [EvClose conn]))
    as Hg4.
  { apply guarded_app. split; [exact Hg|].
    apply guarded_app. split; [exact Hg3|constructor]. }
  destruct (close_error E conn).
  - eexists _, _, _. split; [reflexivity|]. split; [exact Htr4|exact Hg4].
  - eexists _, _, _. split; [reflexivity|]. split; [exact Htr4|exact Hg4].
Qed.

Lemma run_turns_grows (oi : bool) (ms max_steps : Z) (turns : list turn)
    (acc : metrics) (w : world C) :
  exists r w' added,
    run_turns E oi ms max_steps turns acc w = (r, w') /\
    trace w' = trace w ++ added /\ guarded added.
Proof.
  revert acc w. induction turns as [|t turns IH]; intros acc w.
  - exists (Ret ([], acc)), w, []. rewrite app_nil_r.
    split; [reflexivity|]. split; [reflexivity|constructor].
  - cbn [run_turns]. unfold bind at 1.
    destruct (process_turn_grows oi ms max_steps t acc w)
      as (r & w1 & a1 & Hr & Ht1 & Hg1).
    rewrite Hr. destruct r as [[it acc1]|e].
    2:{ exists (Raise e), w1, a1. now repeat split. }
    unfold bind at 1. cbn [snd].
    destruct (IH acc1 w1) as (r2 & w2 & a2 & Hr2 & Ht2 & Hg2).
    rewrite Hr2.
    assert (trace w2 = trace w ++ a1 ++ a2) as Ht
      by (rewrite Ht2, Ht1; now rewrite <- app_assoc).
    assert (guarded (a1 ++ a2)) as Hg by (apply guarded_app; now split).
    destruct r2 as [[items acc2]|e].
    + exists (Ret (it :: items, acc2)), w2, (a1 ++ a2).
      split; [reflexivity|]. split; [exact Ht|exact Hg].
    + exists (Raise e), w2, (a1 ++ a2).
      split; [reflexivity|]. split; [exact Ht|exact Hg].
Qed.

(** The counters after all turns. *)
Lemma run_turns_counts (oi : bool) (ms max_steps : Z) (turns : list turn)
    (acc acc' : metrics) (w w' : world C) (items : list (item C)) :
  run_turns E oi ms max_steps turns acc w = (Ret (items, acc'), w') ->
  length items = length turns /\
  comparable_count acc' = comparable_count acc + references turns /\
  match_count acc <= match_count acc' /\
  match_count acc' <= match_count acc + references turns.
Proof.
  revert acc acc' w w' items.
  induction turns as [|t turns IH]; intros acc acc' w w' items H.
  - cbn in H. injection H as <- <- _. cbn. lia.
  - cbn [run_turns] in H. unfold bind at 1 in H.
    destruct (process_turn E oi ms max_steps t acc w) as [[[it acc1]|e] w1]
      eqn:Hp; [|discriminate].
    unfold bind at 1 in H. cbn [snd fst] in H.
    destruct (run_turns E oi ms max_steps turns acc1 w1)
      as [[[items2 acc2]|e] w2] eqn:Hr; [|discriminate].
    cbn in H. injection H as <- <- _.
    destruct (IH _ _ _ _ _ Hr) as (Hlen & Hc & Hm1 & Hm2).
    destruct (process_turn_inv E oi ms max_steps t acc w Hp)
      as (ar & w0 & _ & _ & _ & Hrest).
    unfold references in *. cbn [filter length].
    destruct (has_reference t).
    + destruct Hrest as (gold & _ & _ & _ & _ & Hc1 & Hk1).
      assert (bonus (it_results_match it) <= 1)
        by (destruct (it_results_match it) as [[|]|]; cbn; lia).
      cbn [length]. lia.
    + destruct Hrest as (_ & _ & Hc1 & Hk1). cbn [length]. lia.
Qed.

End RunnerAll.

(** X12: over a whole experiment, whatever the oracle proposes and
    whatever fails, every statement that [safe_query] passes to
    [cursor.execute] - each predicted and each reference statement that is
    executed - has passed the read-only guard.  The log holds the statements
    executed by [safe_query]; the schema queries of [connect_to_db] do not
    go through it and are not among them. *)
Theorem only_guarded_statements_run (C : Type) (cellC : Cell C) (E : env C)
    (oi : bool) (ms max_steps : Z) (turns : list turn) (acc : metrics)
    (w : world C) :
  exists r w' added,
    run_turns E oi ms max_steps turns acc w = (r, w') /\
    trace w' = trace w ++ added /\
    Forall (fun statement => _is_read_only statement = true)
      (executed_statements added).
Proof. apply run_turns_grows. Qed.

(** X13: when the runner has processed all turns, there is one record per
    turn; the comparable total is the number of turns with a reference, the
    match total does not exceed it, and the accuracy, which is undefined
    exactly when no turn has a reference, lies between 0 and 1. *)
Theorem run_turns_metrics (C : Type) (cellC : Cell C) (E : env C) (oi : bool)
    (ms max_steps : Z) (turns : list turn) (acc' : metrics) (w w' : world C)
    (items : list (item C)) :
  run_turns E oi ms max_steps turns metrics0 w = (Ret (items, acc'), w') ->
  length items = length turns /\
  comparable_count acc' = references turns /\
  match_count acc' <= comparable_count acc' /\
  (accuracy acc' = None <-> references turns = 0) /\
  (forall a, accuracy acc' = Some a -> (0 <= a)%Q /\ (a <= 1)%Q).
Proof.
  intros H.
  destruct (run_turns_counts E oi ms max_steps turns metrics0 w H)
    as (Hlen & Hc & _ & Hm).
  cbn in Hc, Hm.
  split; [exact Hlen|]. split; [exact Hc|]. split; [lia|].
  unfold accuracy. rewrite Hc.
  destruct (references turns) as [|k] eqn:Hk.
  - split; [tauto|discriminate].
  - split; [split; discriminate|].
    intros a Ha. injection Ha as <-.
    assert (0 < inject_Z (Z.of_nat (S k)))%Q as Hpos.
    { unfold Qlt. cbn. lia. }
    split.
    + apply Qle_shift_div_l; [exact Hpos|].
      rewrite Qmult_0_l. unfold Qle. cbn. lia.
    + apply Qle_shift_div_r; [exact Hpos|].
      rewrite Qmult_1_l. rewrite <- Zle_Qle. lia.
Qed.

(** Two turns, one of them with a reference, against the oracle that runs
    the reference query. *)
Lemma run_turns_metrics_witness :
  exists items acc' w',
    run_turns (demo_env scripted_oracle false) true 1000 4 two_turns
      metrics0 empty_world = (Ret (items, acc'), w') /\
    (length items = length two_turns /\
     comparable_count acc' = references two_turns /\
     match_count acc' <= comparable_count acc' /\
     (accuracy acc' = None <-> references two_turns = 0) /\
     (forall a, accuracy acc' = Some a -> (0 <= a)%Q /\ (a <= 1)%Q)).
Proof.
  eexists _, _, _. split; [lazy; reflexivity|].
  eapply (@run_turns_metrics value value_cell (demo_env scripted_oracle false)
            true 1000 4 two_turns _ empty_world).
  lazy. reflexivity.
Defined.

(** ** Connections over a run, a turn and an experiment *)

Section Connections.

Variable C : Type.
Context {cellC : Cell C}.
Variable E : env C.

Lemma update_nth_app_last {A} (f : A -> A) (l : list A) (x : A) :
  update_nth (length l) f (l ++ [x]) = l ++ [f x].
Proof. induction l as [|y l IH]; simpl; [reflexivity|now rewrite IH]. Qed.

Lemma update_nth_clear_last (l : list conn_state) (cs : conn_state) :
  c_handler cs = None ->
  update_nth (length l) clear_handler (l ++ [cs]) = l ++ [cs].
Proof.
  intros H. rewrite update_nth_app_last. f_equal. f_equal.
  destruct cs as [f h o k]. cbn in H. subst h. reflexivity.
Qed.

(** On the connection opened last, still without a handler, a guarded
    query changes nothing in the connection table. *)
Lemma safe_query_conns (old : list conn_state) (cs : conn_state)
    (statement : str) (ms : Z) (w : world C) :
  conns w = old ++ [cs] -> c_handler cs = None ->
  exists d w', safe_query E (length old) statement ms w = (Ret d, w') /\
    conns w' = old ++ [cs].
Proof.
  intros Hw Hh.
  destruct (safe_query_effect E (length old) statement ms w)
    as (d & w' & Hq & Hcs & _).
  exists d, w'. split; [exact Hq|]. rewrite Hcs, Hw.
  destruct (_is_read_only statement); [|reflexivity].
  now apply update_nth_clear_last.
Qed.

Lemma plan_rounds_conns (old : list conn_state) (cs : conn_state) (n : nat)
    question sch ms done (w : world C) :
  conns w = old ++ [cs] -> c_handler cs = None ->
  exists r w', plan_rounds E n question sch (length old) ms done w = (r, w') /\
    conns w' = old ++ [cs].
Proof.
  intros Hw Hh. revert done w Hw. induction n as [|n IH]; intros done w Hw.
  - exists (Ret (done, None)), w. split; [reflexivity|exact Hw].
  - cbn [plan_rounds]. unfold bind at 1. rewrite openai_chat_run.
    set (w1 := {| now := now w; conns := conns w;
                  trace := trace w ++ [EvOracle (PlannerRequest question sch done)] |}).
    assert (conns w1 = old ++ [cs]) as H1 by exact Hw.
    destruct (oracle E (count_oracle (trace w)) (PlannerRequest question sch done))
      as [[[p|]|]|e].
    + unfold bind at 1. cbn [_extract_json ret].
    unfold bind at 1. cbn [get_method ret].
      destruct (str_eqb _ (py "final")).
      { eexists _, w1. split; [reflexivity|exact H1]. }
      destruct (negb (str_eqb _ (py "query"))).
      { eexists _, w1. split; [reflexivity|exact H1]. }
      destruct (is_empty _).
      { eexists _, w1. split; [reflexivity|exact H1]. }
      unfold bind at 1.
      match goal with
      | |- context [safe_query E (length old) ?st ms w1] =>
          destruct (@safe_query_conns old cs st ms w1 H1 Hh) as (d & w2 & Hq & H2);
          rewrite Hq
      end.
      match goal with
      | |- context [plan_rounds E n question sch (length old) ms ?dn w2] =>
          destruct (IH dn w2 H2) as (r & w3 & Hr & H3)
      end.
      exists r, w3. split; [exact Hr|exact H3].
    + eexists _, w1. split; [reflexivity|exact H1].
    + eexists _, w1. split; [reflexivity|exact H1].
    + eexists _, w1. split; [reflexivity|exact H1].
Qed.

Lemma run_body_conns (old : list conn_state) (cs : conn_state)
    question sch ms max_steps (w : world C) :
  conns w = old ++ [cs] -> c_handler cs = None ->
  exists r w', run_body E question sch (length old) ms max_steps w = (r, w') /\
    conns w' = old ++ [cs].
Proof.
  intros Hw Hh. unfold run_body. unfold bind at 1.
  destruct (@plan_rounds_conns old cs (Z.to_nat max_steps) question sch ms []
              w Hw Hh)
    as (r & w1 & Hr & H1).
  rewrite Hr. destruct r as [[done [answer|]]|e].
  - eexists _, w1. split; [reflexivity|exact H1].
  - unfold bind at 1. rewrite openai_chat_run.
    destruct (oracle E (count_oracle (trace w1)) (FinalRequest question done))
      as [[[p|]|]|e]; eexists _, _; (split; [reflexivity|exact H1]).
  - eexists _, w1. split; [reflexivity|exact H1].
Qed.

(** The connection [run] has opened is, when [run] is over, the last of the
    table: closed if [close] worked, with one call of [close] and without a
    handler; the connections that existed before are as they were. *)
Lemma run_conns question db_file ms max_steps (w w1 w' : world C) conn sch r :
  connect_to_db E db_file w = (Ret (conn, sch), w1) ->
  run E question db_file ms max_steps w = (r, w') ->
  exists f, db_file = Some f /\
    conns w' = conns w ++
      [{| c_file := f; c_handler := None;
          c_open := match close_error E conn with
                    | Some _ => true
                    | None => false
                    end;
          c_close_calls := 1 |}].
Proof.
  intros Hc. unfold run. unfold bind at 1. rewrite Hc.
  destruct (connect_to_db_inv E db_file w Hc) as (f & -> & -> & Hcs & _).
  unfold closing.
  destruct (@run_body_conns (conns w) (fresh f) question sch ms max_steps w1
              Hcs eq_refl)
    as (rb & wb & Hb & Hcb).
  rewrite Hb, conn_close_run.
  intros H. exists f. split; [reflexivity|].
  assert (conns (after_close E (length (conns w)) wb) =
          conns w ++
            [{| c_file := f; c_handler := None;
                c_open := match close_error E (length (conns w)) with
                          | Some _ => true
                          | None => false
                          end;
                c_close_calls := 1 |}]) as Hfinal.
  { unfold after_close. cbn [conns]. rewrite Hcb, update_nth_app_last.
    cbn. now destruct (close_error E (length (conns w))). }
  destruct (close_error E (length (conns w))) as [ce|].
  - destruct rb; injection H as _ <-; exact Hfinal.
  - injection H as _ <-. exact Hfinal.
Qed.

Lemma run_ret_conns question db_file ms max_steps (w w' : world C) ar :
  run E question db_file ms max_steps w = (Ret ar, w') ->
  exists cs, conns w' = conns w ++ [cs] /\ closed_once cs.
Proof.
  intros H.
  destruct (connect_to_db E db_file w) as [[[conn sch]|e] w1] eqn:Hc.
  - destruct (@run_conns question db_file ms max_steps w w1 w' conn sch _ Hc H)
      as (f & _ & Hcs).
    eexists. split; [exact Hcs|].
    assert (close_error E conn = None) as Hce.
    { revert H. unfold run. unfold bind at 1. rewrite Hc. unfold closing.
      destruct (run_body E question sch conn ms max_steps w1) as [rb wb].
      rewrite conn_close_run.
      destruct (close_error E conn); [|reflexivity].
      destruct rb; discriminate. }
    rewrite Hce. now repeat split.
  - revert H. unfold run. unfold bind at 1. rewrite Hc. discriminate.
Qed.

Lemma process_turn_conns (oi : bool) (ms max_steps : Z) (t : turn)
    (acc acc' : metrics) (w w' : world C) (it : item C) :
  process_turn E oi ms max_steps t acc w = (Ret (it, acc'), w') ->
  exists opened, conns w' = conns w ++ opened /\
    Forall closed_once opened /\
    length opened = if has_reference t then 2 else 1.
Proof.
  unfold process_turn. unfold bind at 1.
  destruct (run E (t_text t) (t_db_file t) ms max_steps w) as [[ar|e] w1] eqn:Hr;
    [|discriminate].
  destruct (@run_ret_conns _ _ _ _ _ _ _ Hr) as (cs & Hcs & Hclosed).
  destruct (has_reference t).
  2:{ intros H. injection H as _ _ <-. exists [cs].
      split; [exact Hcs|]. split; [now constructor|reflexivity]. }
  unfold bind at 1. unfold get_db_connection.
  destruct (t_db_file t) as [f|]; [|discriminate].
  destruct (file_exists E f); [|discriminate].
  unfold bind at 1, try_finally.
  match goal with
  | |- context [safe_query E _ ?st ms ?ww] =>
      destruct (@safe_query_conns (conns w1) (fresh f) st ms ww eq_refl eq_refl)
        as (d & w3 & Hq & H3)
  end.
  rewrite Hq, conn_close_run.
  destruct (close_error E (length (conns w1))) eqn:Hce; [discriminate|].
  cbn [ret]. intros H. injection H as _ _ <-.
  exists [cs; {| c_file := f; c_handler := None; c_open := false;
                 c_close_calls := 1 |}].
  split; [|split; [|reflexivity]].
  - unfold after_close. cbn [conns].
    rewrite H3, update_nth_app_last, Hce, Hcs. cbn.
    now rewrite <- app_assoc.
  - constructor; [exact Hclosed|]. constructor; [|constructor].
    now repeat split.
Qed.

End Connections.

(** X14: a completed experiment leaves no connection behind.  It has
    opened one connection for each turn and one more for each turn with a
    reference; each of them is closed, was closed exactly once, and carries
    no progress handler; the connections that existed before are as they
    were. *)
Theorem experiment_leaves_connections_closed (C : Type) (cellC : Cell C)
    (E : env C) (oi : bool) (ms max_steps : Z) (turns : list turn)
    (acc acc' : metrics) (w w' : world C) (items : list (item C)) :
  run_turns E oi ms max_steps turns acc w = (Ret (items, acc'), w') ->
  exists opened, conns w' = conns w ++ opened /\
    Forall closed_once opened /\
    length opened = length turns + references turns.
Proof.
  revert acc acc' w w' items.
  induction turns as [|t turns IH]; intros acc acc' w w' items H.
  - cbn in H. injection H as _ _ <-. exists []. rewrite app_nil_r.
    split; [reflexivity|]. split; [constructor|reflexivity].
  - cbn [run_turns] in H. unfold bind at 1 in H.
    destruct (process_turn E oi ms max_steps t acc w) as [[[it acc1]|e] w1]
      eqn:Hp; [|discriminate].
    unfold bind at 1 in H. cbn [snd fst] in H.
    destruct (run_turns E oi ms max_steps turns acc1 w1)
      as [[[items2 acc2]|e] w2] eqn:Hr; [|discriminate].
    cbn in H. injection H as _ _ <-.
    destruct (@process_turn_conns C cellC E oi ms max_steps t acc acc1 w w1 it Hp)
      as (o1 & Hc1 & Hf1 & Hl1).
    destruct (IH _ _ _ _ _ Hr) as (o2 & Hc2 & Hf2 & Hl2).
    exists (o1 ++ o2). split; [|split].
    + rewrite Hc2, Hc1. now rewrite <- app_assoc.
    + apply Forall_app. now split.
    + rewrite length_app, Hl1, Hl2. unfold references. cbn [filter length].
      destruct (has_reference t); cbn [length]; lia.
Qed.

Lemma experiment_leaves_connections_closed_witness :
  exists items acc' w' opened,
    run_turns (demo_env scripted_oracle false) true 1000 4 two_turns
      metrics0 one_conn = (Ret (items, acc'), w') /\
    conns w' = conns one_conn ++ opened /\
    Forall closed_once opened /\
    length opened = length two_turns + references two_turns.
Proof.
  assert (exists items acc' w',
    run_turns (demo_env scripted_oracle false) true 1000 4 two_turns
      metrics0 one_conn = (Ret (items, acc'), w')) as (items & acc' & w' & H).
  { eexists _, _, _. lazy. reflexivity. }
  destruct (@experiment_leaves_connections_closed value value_cell
              (demo_env scripted_oracle false) true 1000 4 two_turns
              metrics0 acc' one_conn w' items H) as (opened & Ho).
  exists items, acc', w', opened. split; [exact H|exact Ho].
Defined.

(** ** Comparison of result sets *)

Section Comparison.

Variable C : Type.
Context {cellC : Cell C}.

Lemma canon_normalize (rs : list (row C)) :
  map (@canon_row C cellC) (_normalize_results rs) =
  map (@canon_row C cellC) rs.
Proof.
  unfold _normalize_results. rewrite map_map. apply map_ext.
  now intros [cells|cells|c].
Qed.

Lemma normalize_results_idem (rs : list (row C)) :
  _normalize_results (_normalize_results rs) = _normalize_results rs.
Proof.
  unfold _normalize_results. rewrite map_map. apply map_ext.
  now intros [cells|cells|c].
Qed.

Lemma normalization_free (a b : list (row C)) :
  _canonicalize_rows (_normalize_results a) = _canonicalize_rows a /\
  compare_results (_normalize_results a) b true = compare_results a b true /\
  compare_results a (_normalize_results b) true = compare_results a b true.
Proof.
  unfold compare_results, _canonicalize_rows.
  rewrite !canon_normalize. now repeat split.
Qed.

Lemma compare_results_refl (rs : list (row C)) :
  compare_results rs rs true = true.
Proof. unfold compare_results. now apply list_str_eqb_eq. Qed.

End Comparison.

(** X15: the agent's normalization of rows (tuples become lists) is
    invisible to canonicalization, so no order-insensitive verdict depends
    on whether either side was normalized; normalizing twice is
    normalizing once. *)
Theorem normalization_invisible_when_order_insensitive (C : Type)
    (cellC : Cell C) (a b : list (row C)) :
  _canonicalize_rows (_normalize_results a) = _canonicalize_rows a /\
  compare_results (_normalize_results a) b true = compare_results a b true /\
  compare_results a (_normalize_results b) true = compare_results a b true /\
  _normalize_results (_normalize_results a) = _normalize_results a.
Proof.
  unfold compare_results, _canonicalize_rows.
  rewrite !canon_normalize. repeat split. apply normalize_results_idem.
Qed.

(** X16: two result sets with different numbers of rows never compare
    equal, in either mode. *)
Theorem different_sizes_never_match (C : Type) (cellC : Cell C)
    (a b : list (row C)) (order_insensitive : bool) :
  length a <> length b ->
  compare_results a b order_insensitive = false.
Proof.
  intros Hlen. apply not_true_is_false. intros H. apply Hlen.
  unfold compare_results, _canonicalize_rows in H.
  destruct order_insensitive.
  - apply list_eqb_length in H. now rewrite !sorted_length, !length_map in H.
  - now apply list_eqb_length in H.
Qed.

Lemma different_sizes_never_match_witness :
  compare_results [RTuple [VInt 1]; RTuple [VInt 1]] [RTuple [VInt 1]] true
    = false /\
  compare_results [RTuple [VInt 1]; RTuple [VInt 1]] [RTuple [VInt 1]] false
    = false.
Proof.
  split;
    apply (@different_sizes_never_match value value_cell
             [RTuple [VInt 1]; RTuple [VInt 1]] [RTuple [VInt 1]]);
    simpl; lia.
Defined.

(** ** What the prompt shows of earlier results *)

Section PromptBounds.

Variable C : Type.
Context {cellC : Cell C}.
Variable cell_str : C -> str.

Lemma slice_to_length {A} (n : Z) (l : list A) :
  length (slice_to n l) <= length l /\
  ((0 <= n)%Z -> length (slice_to n l) = Nat.min (Z.to_nat n) (length l)).
Proof.
  unfold slice_to. destruct (0 <=? n)%Z eqn:Hn.
  - rewrite length_firstn. split; [lia|reflexivity].
  - rewrite length_firstn. split; [lia|]. intros H.
    apply Z.leb_gt in Hn. lia.
Qed.

Lemma clip_length (mx : Z) (s : str) :
  (0 <= mx)%Z -> (Z.of_nat (length (clip mx s)) <= mx + 3)%Z.
Proof.
  intros Hmx. unfold clip.
  destruct (mx <? Z.of_nat (length s))%Z eqn:Hlt.
  - rewrite length_app.
    destruct (slice_to_length mx s) as (_ & Hlen). rewrite (Hlen Hmx).
    cbn [py list_ascii_of_string length]. lia.
  - apply Z.ltb_ge in Hlt. lia.
Qed.

End PromptBounds.

(** X17: with non-negative limits, the rows embedded in a prompt are the
    first [max_rows] rows at most, and no text among them is longer than
    [max_cell_chars] plus the three dots of the ellipsis. *)
Theorem truncate_results_bounds (C : Type) (cellC : Cell C)
    (cell_str : C -> str) (results : list (row C))
    (max_rows max_cell_chars : Z) :
  (0 <= max_rows)%Z -> (0 <= max_cell_chars)%Z ->
  let shown := _truncate_results cell_str results max_rows max_cell_chars in
  length shown = Nat.min (Z.to_nat max_rows) (length results) /\
  Forall (texts_within (max_cell_chars + 3)) shown.
Proof.
  intros Hr Hc. cbv zeta. unfold _truncate_results. split.
  - rewrite length_map. now apply slice_to_length.
  - apply Forall_forall. intros p Hin. apply in_map_iff in Hin.
    destruct Hin as (r & <- & _).
    destruct r as [cells|cells|c]; cbn [texts_within].
    + now apply clip_length.
    + apply Forall_forall. intros s Hs. apply in_map_iff in Hs.
      destruct Hs as (cell & <- & _). now apply clip_length.
    + now apply clip_length.
Qed.

(** With the defaults of [_truncate_results]: 20 rows, 200 characters. *)
Lemma truncate_results_bounds_witness :
  let shown :=
    _truncate_results value_repr (repeat (RList [VInt 7; VNone]) 25) 20 200 in
  length shown = Nat.min 20 25 /\ Forall (texts_within 203) shown.
Proof.
  apply (@truncate_results_bounds value value_cell value_repr
           (repeat (RList [VInt 7; VNone]) 25) 20 200); lia.
Defined.

(** ** The summary of the loaded turns *)

Lemma total_counter_incr (k : str) (c : list (str * nat)) :
  total (counter_incr k c) = S (total c).
Proof.
  induction c as [|[k' n] c IH]; [reflexivity|].
  cbn [counter_incr]. destruct (str_eqb k k'); cbn [total fold_right snd].
  - reflexivity.
  - fold (total (counter_incr k c)). fold (total c). rewrite IH. lia.
Qed.

Lemma keys_counter_incr (k : str) (c : list (str * nat)) :
  map fst (counter_incr k c) =
  if existsb (str_eqb k) (map fst c) then map fst c else map fst c ++ [k].
Proof.
  induction c as [|[k' n] c IH]; [reflexivity|].
  cbn [counter_incr map fst existsb].
  destruct (str_eqb k k'); cbn [orb map fst]; [reflexivity|].
  rewrite IH. now destruct (existsb (str_eqb k) (map fst c)).
Qed.

Lemma existsb_str_eqb_in (k : str) (l : list str) :
  existsb (str_eqb k) l = true <-> In k l.
Proof.
  rewrite existsb_exists. split.
  - intros (x & Hin & Heq). apply str_eqb_eq in Heq. now subst.
  - intros Hin. exists k. split; [exact Hin|]. now apply str_eqb_eq.
Qed.

Lemma nodup_counter_incr (k : str) (c : list (str * nat)) :
  NoDup (map fst c) -> NoDup (map fst (counter_incr k c)).
Proof.
  intros H. rewrite keys_counter_incr.
  destruct (existsb (str_eqb k) (map fst c)) eqn:Hk; [exact H|].
  apply NoDup_app; repeat split; auto.
  - constructor; [easy|constructor].
  - intros x Hx [<-|[]]. apply existsb_str_eqb_in in Hx. congruence.
Qed.

Lemma positive_counter_incr (k : str) (c : list (str * nat)) :
  Forall (fun kn => 1 <= snd kn) c ->
  Forall (fun kn => 1 <= snd kn) (counter_incr k c).
Proof.
  induction 1 as [|[k' n] c Hn Hc IH]; cbn [counter_incr].
  - constructor; [cbn; lia|constructor].
  - destruct (str_eqb k k'); constructor; cbn [snd] in *; auto; lia.
Qed.

Lemma counter_fold (l : list str) (c : list (str * nat)) :
  let c' := fold_left (fun c k => counter_incr k c) l c in
  total c' = total c + length l /\
  (NoDup (map fst c) -> NoDup (map fst c')) /\
  (Forall (fun kn => 1 <= snd kn) c -> Forall (fun kn => 1 <= snd kn) c').
Proof.
  cbv zeta. revert c. induction l as [|k l IH]; intros c.
  - cbn [fold_left length]. split; [lia|auto].
  - cbn [fold_left length]. destruct (IH (counter_incr k c)) as (Ht & Hn & Hp).
    rewrite Ht, total_counter_incr. split; [lia|]. split; intros H.
    + apply Hn. now apply nodup_counter_incr.
    + apply Hp. now apply positive_counter_incr.
Qed.

Lemma present_length (key : str) (turns : list turn_dict) :
  length (present key turns) <= length turns.
Proof.
  induction turns as [|t turns IH]; [reflexivity|].
  cbn [present length]. destruct (dict_get key t); cbn [length]; lia.
Qed.

Lemma present_truthy_length (key : str) (turns : list turn_dict) :
  length (present_truthy key turns) <= length turns.
Proof.
  induction turns as [|t turns IH]; [reflexivity|].
  cbn [present_truthy length].
  destruct (dict_get key t) as [[|a v]|]; cbn [length]; lia.
Qed.

Lemma distinct_length (l : list str) :
  length (distinct l) <= length l /\ (distinct l = [] -> l = []).
Proof.
  induction l as [|x l (IH1 & IH2)]; [split; [reflexivity|auto]|].
  cbn [distinct]. destruct (existsb (str_eqb x) l) eqn:Hx.
  - split; [cbn [length]; lia|]. intros H. rewrite (IH2 H) in Hx. discriminate.
  - split; [cbn [length]; lia|discriminate].
Qed.

(** X18: in the summary of the loaded turns, the counts of the datasets
    add up to the number of turns that carry a dataset, each listed dataset
    is listed once with a count of at least one, and neither that total nor
    the number of distinct databases exceeds the number of turns; no
    database is counted exactly when no turn names one. *)
Theorem summarize_turns_consistent (turns : list turn_dict) :
  let s := summarize_turns turns in
  num_turns s = length turns /\
  total (datasets s) = length (present (py "dataset") turns) /\
  total (datasets s) <= num_turns s /\
  total (splits s) <= num_turns s /\
  NoDup (map fst (datasets s)) /\
  Forall (fun kn => 1 <= snd kn) (datasets s) /\
  unique_dbs s <= num_turns s /\
  (unique_dbs s = 0 <-> present_truthy (py "db_file") turns = []).
Proof.
  cbv zeta. unfold summarize_turns. cbn [num_turns datasets splits unique_dbs].
  unfold Counter.
  destruct (counter_fold (present (py "dataset") turns) []) as (Ht & Hn & Hp).
  destruct (counter_fold (present (py "split") turns) []) as (Ht2 & _).
  cbn [total fold_right] in Ht, Ht2. cbn [Nat.add] in Ht, Ht2.
  pose proof (present_length (py "dataset") turns).
  pose proof (present_length (py "split") turns).
  pose proof (present_truthy_length (py "db_file") turns).
  destruct (distinct_length (present_truthy (py "db_file") turns)) as (Hd & Hz).
  repeat split; try lia.
  - apply Hn. constructor.
  - apply Hp. constructor.
  - intros Hzero. apply Hz. now apply length_zero_iff_nil.
  - intros ->. reflexivity.
Qed.

(** ** The statement [load_data] builds *)

Lemma placeholders_app (a b : str) :
  placeholders (a ++ b) = placeholders a + placeholders b.
Proof. unfold placeholders. now rewrite filter_app, length_app. Qed.

Lemma placeholders_uint (d : Decimal.uint) :
  placeholders (list_ascii_of_string (NilEmpty.string_of_uint d)) = 0.
Proof. induction d; cbn; auto. Qed.

Lemma placeholders_decimal (z : Z) : placeholders (decimal z) = 0.
Proof.
  unfold decimal, NilZero.string_of_int, NilZero.string_of_uint.
  destruct (Z.to_int z) as [d|d].
  - destruct d; try reflexivity; apply (placeholders_uint (_ d)).
  - cbn [list_ascii_of_string].
    change (placeholders (py "-" ++ list_ascii_of_string
              match d with
              | Decimal.Nil => "0"%string
              | _ => NilEmpty.string_of_uint d
              end) = 0).
    rewrite placeholders_app.
    destruct d; try reflexivity; apply (placeholders_uint (_ d)).
Qed.

(** X19: the statement [load_data] builds has exactly as many [?]
    placeholders as parameters are bound to it, at most three, whatever
    the filters and the limit. *)
Theorem load_data_placeholders_bound (source split : option str)
    (min_turn_index limit : option Z) :
  let (query, params) := load_data_query source split min_turn_index limit in
  placeholders query = length params /\ length params <= 3.
Proof.
  unfold load_data_query.
  assert (forall q n, placeholders
            match limit with
            | Some z => if (z =? 0)%Z then q else q ++ py " LIMIT " ++ decimal z
            | None => q
            end = n <-> placeholders q = n) as Hlimit.
  { intros q n. destruct limit as [z|]; [|tauto].
    destruct (z =? 0)%Z; [tauto|].
    rewrite !placeholders_app, placeholders_decimal.
    change (placeholders (py " LIMIT ")) with 0. now rewrite !Nat.add_0_r. }
  destruct (truthy source), (truthy split), min_turn_index as [i|];
    cbn [app map fst snd length];
    (split; [apply Hlimit; reflexivity|lia]).
Qed.

(** ** Where the rows of a transcript come from *)

Section Faithful.

Variable C : Type.
Context {cellC : Cell C}.
Variable E : env C.


(** A success of [safe_query] is a success of the backend. *)
Lemma safe_query_success_inv (c : nat) (statement : str) (ms : Z)
    (w w' : world C) (d : exec_dict C) :
  safe_query E c statement ms w = (Ret d, w') ->
  d_success d = true ->
  exists cs rs,
    conn_of w c = Some cs /\ c_open cs = true /\
    _is_read_only statement = true /\
    vm_result (vm_program E (c_file cs) statement) = Rows rs /\
    d_results d = map (@RTuple C) rs /\
    d_status d = py "success" /\ d_error d = None.
Proof.
  intros H Hs. destruct (_is_read_only statement) eqn:Hro.
  2:{ rewrite (safe_query_rejected E c statement ms w Hro) in H.
      injection H as <- _. discriminate. }
  rewrite (safe_query_allowed E c statement ms w Hro) in H. cbv zeta in H.
  set (h := Some ({| ph_deadline :=
                       if (0 <? ms)%Z then Some (now w + inject_Z ms / 1000)%Q
                       else None |}, 1000)) in H.
  destruct (conn_of w c) as [cs|] eqn:Hc.
  - destruct (c_open cs) eqn:Ho;
      pose proof (conn_of_installed c h (EvSafeQuery c statement) w Hc) as Hc1.
    + rewrite (execute_fetchall_open E c statement _ Hc1 Ho) in H.
      cbn [c_file c_handler] in H.
      match type of H with
      | context [run_vm ?hh ?ops ?k ?ww] =>
          destruct (run_vm_frame hh ops k ww) as (b & w1 & Hrun & _);
          rewrite Hrun in H
      end.
      destruct b.
      * injection H as <- _. discriminate.
      * destruct (vm_result (vm_program E (c_file cs) statement))
          as [rs|msg] eqn:Hv.
        -- injection H as <- _. exists cs, rs. now repeat split.
        -- injection H as <- _. discriminate.
    + rewrite execute_fetchall_closed in H.
      * injection H as <- _. discriminate.
      * intros cs' Hcs'. rewrite Hc1 in Hcs'. injection Hcs' as <-. exact Ho.
  - rewrite execute_fetchall_closed in H.
    + injection H as <- _. discriminate.
    + intros cs' Hcs'. exfalso. revert Hcs'.
      unfold conn_of, with_handler, logged in *. cbn [conns].
      rewrite nth_error_update_nth, Nat.eqb_refl, Hc. discriminate.
Qed.



End Faithful.

(** X21: [safe_query] reports a success only for an allowed statement on
    an open connection that the backend evaluated to the end, and then with
    exactly the rows the backend yields, the status "success" and no
    error. *)
Theorem success_returns_database_rows (C : Type) (E : env C) (c : nat)
    (statement : str) (ms : Z) (w w' : world C) (d : exec_dict C) :
  safe_query E c statement ms w = (Ret d, w') ->
  d_success d = true ->
  exists cs rs,
    conn_of w c = Some cs /\ c_open cs = true /\
    _is_read_only statement = true /\
    vm_result (vm_program E (c_file cs) statement) = Rows rs /\
    d_results d = map (@RTuple C) rs /\
    d_status d = py "success" /\ d_error d = None.
Proof. apply safe_query_success_inv. Qed.

Lemma success_returns_database_rows_witness :
  exists d w',
    safe_query (demo_env scripted_oracle false) 0
      (py "SELECT COUNT(*) FROM students") 1000 one_conn = (Ret d, w') /\
    d_success d = true /\
    exists cs rs,
      conn_of one_conn 0 = Some cs /\ c_open cs = true /\
      _is_read_only (py "SELECT COUNT(*) FROM students") = true /\
      vm_result (vm_program (demo_env scripted_oracle false) (c_file cs)
                   (py "SELECT COUNT(*) FROM students")) = Rows rs /\
      d_results d = map (@RTuple value) rs /\
      d_status d = py "success" /\ d_error d = None.
Proof.
  eexists _, _. split; [vm_compute; reflexivity|]. split; [reflexivity|].
  eapply (@success_returns_database_rows value (demo_env scripted_oracle false)
            0 (py "SELECT COUNT(*) FROM students") 1000 one_conn).
  - vm_compute. reflexivity.
  - reflexivity.
Defined.



(** ** A prediction that holds the reference rows *)

Section Verdict.

Variable C : Type.
Context {cellC : Cell C}.

Lemma compare_results_canon_perm (R P : list (row C)) :
  Permutation (map (@canon_row C cellC) R) (map (@canon_row C cellC) P) ->
  compare_results R P true = true.
Proof.
  intros H. unfold compare_results, _canonicalize_rows.
  apply list_str_eqb_eq. now apply sorted_eq_iff_perm.
Qed.

Lemma canon_list_tuple (rs : list (list C)) :
  map (@canon_row C cellC) (map (@RList C) rs) =
  map (@canon_row C cellC) (map (@RTuple C) rs).
Proof. now rewrite !map_map. Qed.

End Verdict.

(** X23: in order-insensitive mode, a turn whose last predicted step and
    whose reference execution both succeeded is counted as a match when the
    rows of the step are the rows the reference fetched, in any order, each
    as the list of its cells. *)
Theorem reference_rows_match (C : Type) (cellC : Cell C) (E : env C)
    (ms max_steps : Z) (t : turn) (acc acc' : metrics) (w w' : world C)
    (it : item C) (s : QueryStep C) (gold : exec_dict C)
    (rs : list (list C)) :
  process_turn E true ms max_steps t acc w = (Ret (it, acc'), w') ->
  has_reference t = true ->
  last_step (it_agent_result it) = Some s ->
  success (execution s) = true ->
  it_gold_execution it = Some gold -> d_success gold = true ->
  d_results gold = map (@RTuple C) rs ->
  Permutation (results (execution s)) (map (@RList C) rs) ->
  it_results_match it = Some true /\ match_count acc' = S (match_count acc).
Proof.
  intros H Href Hlast Hs Hgold Hgs Hrows Hperm.
  destruct (process_turn_inv E true ms max_steps t acc w H)
    as (ar & w1 & _ & Har & Hpe & Hrest).
  rewrite Href in Hrest.
  destruct Hrest as (gold' & Hg & _ & _ & Hm & _ & Hk).
  rewrite Hgold in Hg. injection Hg as <-.
  rewrite Har in Hlast.
  rewrite Hpe, Hlast in Hm. cbn [option_map verdict_of] in Hm.
  rewrite Hs, Hgs in Hm. cbn [andb] in Hm.
  rewrite compare_results_canon_perm in Hm.
  - rewrite Hk, Hm. cbn [bonus]. split; [reflexivity|lia].
  - rewrite Hrows, <- canon_list_tuple. now apply Permutation_map.
Qed.

Lemma reference_rows_match_witness :
  exists it acc' w' s gold,
    process_turn (demo_env scripted_oracle false) true 1000 4 count_turn
      metrics0 empty_world = (Ret (it, acc'), w') /\
    last_step (it_agent_result it) = Some s /\
    it_gold_execution it = Some gold /\
    d_results gold = map (@RTuple value) [[VInt 5]] /\
    it_results_match it = Some true /\
    match_count acc' = S (match_count metrics0).
Proof.
  eexists _, _, _, _, _. split; [lazy; reflexivity|].
  split; [lazy; reflexivity|]. split; [lazy; reflexivity|].
  split; [reflexivity|].
  eapply (@reference_rows_match value value_cell
            (demo_env scripted_oracle false) 1000 4 count_turn metrics0 _
            empty_world _ _ _ _ [[VInt 5]]).
  - lazy. reflexivity.
  - reflexivity.
  - lazy. reflexivity.
  - reflexivity.
  - lazy. reflexivity.
  - reflexivity.
  - reflexivity.
  - apply Permutation_refl.
Defined.
